(** * RRT Architect: the puzzle-generation engine of [src/App.tsx]

    A shallow embedding of the logic generators ([generateLogic],
    [generateCipherKey], [invertSpatial], [shuffleArray],
    [getDistinctRandomIndices], [generateSymbols], [generateWord]), of the
    round and session control ([startSession], [startRound],
    [startInterference], [handleAnswer], the answer controls) and of the
    display helpers [getCipherList] and [formatTime], followed by the
    properties stated about them.

    Conventions of the embedding:
    - JavaScript strings are [string]; arrays are [list]; array indices are
      [nat]; lattice coordinates are [Z]; the string-keyed objects used as
      maps are [gmap string string].
    - [Math.random()] is an explicit source: a list of rational draws in
      [0, 1) that is consumed from the left, one element per call.  A
      computation that needs a draw when none is left yields [None].  The
      product in [Math.floor(Math.random() * n)] is taken exactly.
    - React state setters are state passing on a record; a function that
      reads the state through its closure takes what it reads as
      arguments.
    - [generateVoronoi] formats floating-point trigonometry; what it makes
      of its draws is a variable of the development.
    - [Array.prototype.sort] is engine code.  [shuffleArray] runs it as an
      insertion sort; where the arrangement matters, the engine is any
      decision procedure on the sign of the comparator's result that
      conforms to ECMAScript ([conforming]), of which the insertion sort
      is one. *)

From Stdlib Require Import QArith Qround Lqa.
From stdpp Require Import gmap strings list fin_maps pretty sorting.


Local Open Scope Z_scope.

(** ** JavaScript string primitives used by the source *)

Module JsString.

(** [s.startsWith(p)] *)
Fixpoint startsWith (p s : string) : bool :=
  match p, s with
  | EmptyString, _ => true
  | String a p', String b s' => if Ascii.eqb a b then startsWith p' s' else false
  | String _ _, EmptyString => false
  end.

(** [s.includes(p)] *)
Fixpoint includes (p s : string) : bool :=
  if startsWith p s then true
  else match s with
       | EmptyString => false
       | String _ s' => includes p s'
       end.

(** [parts.join(sep)] *)
Fixpoint join (sep : string) (parts : list string) : string :=
  match parts with
  | [] => EmptyString
  | [p] => p
  | p :: rest => p +:+ sep +:+ join sep rest
  end.

(** [s.split(sep)] for a non-empty separator: left-to-right scan, cutting
    at every occurrence of [sep] and resuming after it.  [skip] counts the
    characters of a matched separator still to be passed over, [cur] is the
    piece being accumulated. *)
Fixpoint split_go (sep : string) (skip : nat) (cur : string) (s : string)
  : list string :=
  match s with
  | EmptyString => [cur]
  | String c s' =>
      match skip with
      | S k => split_go sep k cur s'
      | O =>
          if startsWith sep s
          then cur :: split_go sep (String.length sep - 1) EmptyString s'
          else split_go sep 0 (cur +:+ String c EmptyString) s'
      end
  end.

Definition split (sep s : string) : list string :=
  split_go sep 0 EmptyString s.

(** [s.replace(p, r)] with a string pattern: only the first occurrence. *)
Fixpoint replace_go (p r : string) (skip : nat) (found : bool) (s : string)
  : string :=
  match s with
  | EmptyString =>
      if negb found && startsWith p EmptyString then r else EmptyString
  | String c s' =>
      match skip with
      | S k => replace_go p r k found s'
      | O =>
          if negb found && startsWith p s
          then match String.length p with
               | O => r +:+ String c (replace_go p r 0 true s')
               | S k => r +:+ replace_go p r k true s'
               end
          else String c (replace_go p r 0 found s')
      end
  end.

Definition replace (p r s : string) : string := replace_go p r 0 false s.

Definition is_space (c : Ascii.ascii) : bool :=
  let n := Ascii.nat_of_ascii c in
  ((n =? 32) || (n =? 9) || (n =? 10) || (n =? 11) || (n =? 12) || (n =? 13))%nat.

Fixpoint trimStart (s : string) : string :=
  match s with
  | String c s' => if is_space c then trimStart s' else s
  | EmptyString => EmptyString
  end.

Fixpoint trimEnd (s : string) : string :=
  match s with
  | EmptyString => EmptyString
  | String c s' =>
      match trimEnd s' with
      | EmptyString => if is_space c then EmptyString else String c EmptyString
      | t => String c t
      end
  end.

(** [s.trim()], for the ASCII white space; the relation words it is
    applied to are ASCII. *)
Definition trim (s : string) : string := trimEnd (trimStart s).

(** Truthiness of a string-or-undefined value: [undefined] and the empty
    string are falsy. *)
Definition truthy (v : option string) : bool :=
  match v with
  | Some (String _ _) => true
  | _ => false
  end.

End JsString.

(** ** [invertSpatial] (App.tsx, lines 98-110) *)

Definition invert_map : gmap string string :=
  list_to_map
    [ ("NORTH", "SOUTH"); ("SOUTH", "NORTH");
      ("EAST", "WEST"); ("WEST", "EAST");
      ("ABOVE", "BELOW"); ("BELOW", "ABOVE");
      ("LEFT", "RIGHT"); ("RIGHT", "LEFT");
      ("FRONT", "BEHIND"); ("BEHIND", "FRONT");
      ("SAME LOCATION", "SAME LOCATION") ].

(** [map[p] || p]; [map] is read as the table of its own eleven entries
    (no entry has an empty value, so [||] falls back exactly on a missing
    key). *)
Definition invert_part (p : string) : string :=
  if JsString.truthy (invert_map !! p) then default p (invert_map !! p) else p.

Definition invertSpatial (rel : string) : string :=
  if JsString.includes " and " rel
  then JsString.join " and " (map invert_part (JsString.split " and " rel))
  else invert_part rel.

(** The relation words [invertSpatial] has an entry for. *)
Definition spatial_words : list string :=
  [ "NORTH"; "SOUTH"; "EAST"; "WEST"; "ABOVE"; "BELOW";
    "LEFT"; "RIGHT"; "FRONT"; "BEHIND"; "SAME LOCATION" ].

(** ** The random source and the generator monad *)

(** One value returned by [Math.random()]: a rational in [0, 1).  The range
    is part of the type, as it is part of the contract of [Math.random]. *)
Definition in_unit_interval (q : Q) : bool :=
  Qle_bool 0 q && negb (Qle_bool 1 q).

Record Draw := mkDraw {
  draw_val : Q;
  draw_ok : Is_true (in_unit_interval draw_val)
}.

(** The state threaded through a generator call: the draws [Math.random()]
    has yet to return, and the [usedKeys] set of [generateLogic] (a JS [Set],
    which keeps insertion order and ignores repeated additions). *)
Record Env := mkEnv { draws : list Draw; usedKeys : list string }.

(** A generator step either returns a value and the next state, or yields
    [None]: the draws ran out before the code returned, or the code threw
    (a property read on [undefined]). *)
Definition M (A : Type) : Type := Env → option (A * Env).

#[global] Instance M_ret : MRet M := λ A a e, Some (a, e).
#[global] Instance M_bind : MBind M :=
  λ A B f m e, match m e with Some (a, e') => f a e' | None => None end.

Definition throw {A} : M A := λ _, None.

(** [Math.random()] *)
Definition random : M Q :=
  λ e, match draws e with
       | [] => None
       | r :: ds => Some (draw_val r, mkEnv ds (usedKeys e))
       end.

(** [r > 0.5] and [r < 0.5] on a draw *)
Definition gt_half (r : Q) : bool := negb (Qle_bool r (1 # 2)).
Definition lt_half (r : Q) : bool := negb (Qle_bool (1 # 2) r).

(** [Math.floor(r * n)] as an array index *)
Definition floor_mul (r : Q) (n : nat) : nat :=
  Z.to_nat (Qfloor (r * inject_Z (Z.of_nat n))).

(** [Math.floor(Math.random() * n)] *)
Definition randomIndex (n : nat) : M nat := r ← random; mret (floor_mul r n).

(** [usedKeys.add(key)] *)
Definition addUsedKey (key : string) : M unit :=
  λ e, Some (tt, mkEnv (draws e)
                   (if bool_decide (key ∈ usedKeys e) then usedKeys e
                    else usedKeys e ++ [key])).

(** [Array.from(usedKeys)] *)
Definition readUsedKeys : M (list string) := λ e, Some (usedKeys e, e).

(** [while (!stop(cur)) cur = next(Math.random());] on the bare draw list:
    one draw per iteration. *)
Fixpoint redraw_until {A} (stop : A → bool) (next : Q → A) (cur : A)
    (ds : list Draw) : option (A * list Draw) :=
  if stop cur then Some (cur, ds)
  else match ds with
       | [] => None
       | r :: ds' => redraw_until stop next (next (draw_val r)) ds'
       end.

Definition redrawUntil {A} (stop : A → bool) (next : Q → A) (cur : A) : M A :=
  λ e, match redraw_until stop next cur (draws e) with
       | Some (a, ds) => Some (a, mkEnv ds (usedKeys e))
       | None => None
       end.

(** Running the body of a [for] loop over a list of indices, collecting what
    each iteration pushes. *)
Fixpoint forPush {A B} (body : A → M B) (l : list A) : M (list B) :=
  match l with
  | [] => mret []
  | a :: l' => b ← body a; bs ← forPush body l'; mret (b :: bs)
  end.

(** ** Constants (App.tsx, lines 24-30 and 89-93) *)

Definition COMMON_accent : string := "#06b6d4".

Definition CIPHER_WORDS : list string :=
  [ "ZAX"; "JOP"; "KIV"; "LUZ"; "MEC"; "VEX"; "QOD"; "WIB"; "HAF"; "GUK";
    "YIN"; "BEX"; "DUB"; "ROZ"; "NIX"; "POK"; "VOM"; "JEX"; "KAZ"; "QUZ";
    "YEP"; "WUX"; "FIP"; "GOZ" ].

(** ** [shuffleArray] (App.tsx, line 96)

    [[...array].sort(() => Math.random() - 0.5)].  The sort itself is engine
    code; it is modelled as a straight insertion sort that calls the
    comparator once per comparison, [comparefn(a[j], x) > 0] meaning that
    [a[j]] moves behind [x].  The comparator ignores its arguments and draws
    once.  The sorted prefix is kept reversed while inserting. *)

(** [Math.random() - 0.5 > 0] *)
Definition comparator_positive (r : Q) : bool := gt_half r.

Fixpoint sort_insert {A} (x : A) (rev_prefix : list A) : M (list A) :=
  match rev_prefix with
  | [] => mret [x]
  | y :: ys =>
      r ← random;
      if comparator_positive r
      then zs ← sort_insert x ys; mret (y :: zs)
      else mret (x :: y :: ys)
  end.

Fixpoint sort_loop {A} (rev_prefix : list A) (rest : list A) : M (list A) :=
  match rest with
  | [] => mret rev_prefix
  | x :: rest' => p ← sort_insert x rev_prefix; sort_loop p rest'
  end.

Definition shuffleArray {A} (array : list A) : M (list A) :=
  p ← sort_loop [] array; mret (reverse p).

(** ** [getDistinctRandomIndices] (App.tsx, lines 112-117) *)

Definition getDistinctRandomIndices (count : nat) : M (nat * nat) :=
  a ← randomIndex count;
  b ← randomIndex count;
  b' ← redrawUntil (λ b, negb (a =? b)%nat) (λ r, floor_mul r count) b;
  mret (a, b').

(** ** [generateCipherKey] (App.tsx, lines 309-319) *)

Definition relations : list string :=
  [ "GREATER"; "LESS"; "SAME"; "DIFFERENT"; "CONTAINS"; "INSIDE";
    "NORTH"; "SOUTH"; "EAST"; "WEST"; "ABOVE"; "BELOW";
    "LEFT"; "RIGHT"; "FRONT"; "BEHIND"; "START"; "FACE"; "WALK"; "TURN" ].

(** [relations.forEach((rel, i) => { newMap[rel] = shuffledWords[i % n] })],
    from index [i] on.  An index outside [shuffledWords] reads [undefined] in
    JS; it is stored here as the empty string, which is falsy as well. *)
Fixpoint assignWords (shuffledWords : list string) (i : nat) (rels : list string)
    (newMap : gmap string string) : gmap string string :=
  match rels with
  | [] => newMap
  | rel :: rels' =>
      assignWords shuffledWords (S i) rels'
        (<[rel := default EmptyString
                    (shuffledWords !! (i mod length shuffledWords)%nat)]> newMap)
  end.

Definition generateCipherKey : M (gmap string string) :=
  shuffledWords ← shuffleArray CIPHER_WORDS;
  mret (assignWords shuffledWords 0 relations ∅).

(** ** Types (App.tsx, lines 32-83 and 174) *)

Inductive RftMode := LINEAR | SPATIAL_2D | SPATIAL_3D | HIERARCHY | DISTINCTION.
Inductive SymbolMode := EMOJI | WORDS | VORONOI | MIXED.

Record GameSettings := mkSettings {
  activeModes : RftMode → bool;
  numPremises : Z;
  autoProgress : bool;
  useQuestionTimer : bool;
  questionTimeLimit : Z;
  sessionLengthMinutes : Z;
  disableSessionTimer : bool;
  blindMode : bool;
  symbolMode : SymbolMode;
  enableDeictic : bool;
  enableTransformation : bool;
  enableInterference : bool;
  enableCipher : bool;
  enableMovement : bool
}.

Record Position := mkPos { pos_x : Z; pos_y : Z; pos_z : Z }.

Record VisualNode := mkNode {
  node_id : string; node_x : Z; node_y : Z; node_z : Z; node_label : string
}.

(** The object [generateLogic] returns. *)
Record LogicData := mkLogic {
  premises : list string;
  question : string;
  answer : bool;
  modifiers : list string;
  visualMap : list VisualNode;
  usedCipherKeys : list string
}.

(** The local variables of the branch of [generateLogic] that ran, recorded
    next to the returned object so that properties can refer to them.
    [asked] is the keyword handed to [getTerm] for the word the question
    asks about. *)
Inductive QueryTrace :=
| LinearTrace (rels : list string) (idxA idxB : nat) (qType : string)
| DistinctionTrace (values : list Z) (rels : list string)
    (idxA idxB : nat) (qType : string)
| HierarchyTrace (idxA idxB : nat) (asked : string)
| DeicticTrace (idxMe idxTarget facingDir : nat) (localX localY : Z)
    (trueLocalRel effectiveRel asked : string)
| MovementTrace (heading : nat) (relX relY localX localY : Z)
    (trueRel effectiveRel asked : string)
| StandardTrace (idxA idxB : nat) (parts effectiveParts : list string)
    (asked : string).

Record Locals := mkLocals { newPremises : list string; trace : QueryTrace }.

(** ** [generateLogic] (App.tsx, lines 323-571)

    [items] stands for the array [generateSymbols(num + 1, symbolMode)]
    returns; the symbol provider (which renders SVG coordinates with
    floating-point trigonometry) is not part of the embedding. *)

Section GenerateLogic.

Variable settings : GameSettings.
Variable cipherMap : gmap string string.
Variable isNight : bool.
Variable items : list string.

(** [`${items[i]}`]: an index outside the array renders as "undefined". *)
Definition item (i : nat) : string := default "undefined" (items !! i).

Definition dquote : string := String (Ascii.ascii_of_nat 34) EmptyString.

(** [`<b style="color: ${COMMON.accent}">${token}</b>`] *)
Definition accented (token : string) : string :=
  "<b style=" +:+ dquote +:+ "color: " +:+ COMMON_accent +:+ dquote +:+ ">"
    +:+ token +:+ "</b>".

Definition getTerm (key : string) : M string :=
  if enableCipher settings && JsString.truthy (cipherMap !! key)
  then _ ← addUsedKey key;
       mret (accented (default EmptyString (cipherMap !! key)))
  else mret key.

Definition cleanRelOf (rawRel : string) : string :=
  JsString.trim
    (JsString.replace "the " EmptyString
       (JsString.replace " of" EmptyString
          (JsString.replace " than" EmptyString
             (JsString.replace "is " EmptyString rawRel)))).

Definition createPremise (a rawRel b : string) : M string :=
  let cleanRel := cleanRelOf rawRel in
  if enableCipher settings && JsString.truthy (cipherMap !! cleanRel)
  then _ ← addUsedKey cleanRel;
       mret (a +:+ " " +:+ accented (default EmptyString (cipherMap !! cleanRel))
               +:+ " " +:+ b)
  else mret (a +:+ " " +:+ rawRel +:+ " " +:+ b).

(** [if (isNight) newAnswer = !newAnswer] *)
Definition nightFlip (newAnswer : bool) : bool :=
  if isNight then negb newAnswer else newAnswer.

(** *** LINEAR (lines 348-361) *)

Definition linearLink (i : nat) : M (string * string) :=
  r ← random;
  let rel := if gt_half r then "GREATER" else "LESS" in
  p ← createPremise (item i) ("is " +:+ rel +:+ " than") (item (i + 1));
  mret (rel, p).

Definition linearRound (num : nat) : M (string * bool * Locals) :=
  links ← forPush linearLink (seq 0 num);
  '(idxA, idxB) ← getDistinctRandomIndices (num + 1);
  r ← random;
  let qType := if gt_half r then "GREATER" else "LESS" in
  qText ← getTerm qType;
  let newQuestion :=
    "Is " +:+ item idxA +:+ " " +:+ qText +:+ " "
      +:+ (if enableCipher settings then EmptyString else "than")
      +:+ " " +:+ item idxB +:+ "?" in
  let newAnswer :=
    if String.eqb qType "GREATER" then (idxA <? idxB)%nat else (idxB <? idxA)%nat in
  mret (newQuestion, nightFlip newAnswer,
        mkLocals (links.*2) (LinearTrace (links.*1) idxA idxB qType)).

(** *** DISTINCTION (lines 362-378) *)

(** The loop body reads [values[i]], the last element pushed so far
    ([values] has [i + 1] elements at iteration [i]). *)
Fixpoint distinctionLoop (idxs : list nat) (values : list Z)
  : M (list Z * list (string * string)) :=
  match idxs with
  | [] => mret (values, [])
  | i :: idxs' =>
      r ← random;
      let isSame := gt_half r in
      let v := values !!! i in
      let values' := values ++ [if isSame then v else 1 - v] in
      let rel := if isSame then "SAME" else "DIFFERENT" in
      p ← createPremise (item i) rel (item (i + 1));
      '(vs, links) ← distinctionLoop idxs' values';
      mret (vs, (rel, p) :: links)
  end.

(** [values[idxA] === values[idxB]]: two reads outside the array are both
    [undefined] and compare equal. *)
Definition strictEq (a b : option Z) : bool := bool_decide (a = b).

Definition distinctionRound (num : nat) : M (string * bool * Locals) :=
  r0 ← random;
  '(values, links) ← distinctionLoop (seq 0 num) [if gt_half r0 then 1 else 0];
  '(idxA, idxB) ← getDistinctRandomIndices (num + 1);
  r ← random;
  let qType := if gt_half r then "SAME" else "DIFFERENT" in
  qText0 ← getTerm qType;
  let qText :=
    if negb (enableCipher settings)
    then (if String.eqb qType "SAME" then "the SAME as" else "DIFFERENT from")
    else qText0 in
  let newQuestion := "Is " +:+ item idxA +:+ " " +:+ qText +:+ " " +:+ item idxB +:+ "?" in
  let newAnswer :=
    if String.eqb qType "SAME"
    then strictEq (values !! idxA) (values !! idxB)
    else negb (strictEq (values !! idxA) (values !! idxB)) in
  mret (newQuestion, nightFlip newAnswer,
        mkLocals (links.*2) (DistinctionTrace values (links.*1) idxA idxB qType)).

(** *** HIERARCHY (lines 379-391) *)

Definition hierarchyRound (num : nat) : M (string * bool * Locals) :=
  newPremises ← forPush (λ i, createPremise (item i) "CONTAINS" (item (i + 1)))
                        (seq 0 num);
  '(idxA, idxB) ← getDistinctRandomIndices (num + 1);
  r ← random;
  if gt_half r
  then t ← getTerm "INSIDE";
       mret ("Is " +:+ item idxA +:+ " " +:+ t +:+ " " +:+ item idxB +:+ "?",
             nightFlip (idxB <? idxA)%nat,
             mkLocals newPremises (HierarchyTrace idxA idxB "INSIDE"))
  else t ← getTerm "CONTAINS";
       mret ("Does " +:+ item idxA +:+ " " +:+ t +:+ " " +:+ item idxB +:+ "?",
             nightFlip (idxA <? idxB)%nat,
             mkLocals newPremises (HierarchyTrace idxA idxB "CONTAINS")).

(** *** SPATIAL_2D / SPATIAL_3D (lines 392-561) *)

Definition facingNames : list string := ["NORTH"; "EAST"; "SOUTH"; "WEST"].
Definition possibleDirs : list string := ["FRONT"; "BEHIND"; "LEFT"; "RIGHT"].
Definition allDirs (is3D : bool) : list string :=
  if is3D then ["NORTH"; "SOUTH"; "EAST"; "WEST"; "ABOVE"; "BELOW"]
  else ["NORTH"; "SOUTH"; "EAST"; "WEST"].

(** [arr[i]] rendered or compared as a string; [undefined] is kept as the
    word it renders to, which is no element of any of the arrays above. *)
Definition word_at (arr : list string) (i : nat) : string :=
  default "undefined" (arr !! i).

(** [positions[i]]: reading [.x] on [undefined] throws. *)
Definition position_at (positions : list Position) (i : nat) : M Position :=
  match positions !! i with
  | Some p => mret p
  | None => throw
  end.

(** The [switch (dir)] of the lattice walk: (dx, dy, dz, text). *)
Definition stepOf (dir : nat) : Z * Z * Z * string :=
  match dir with
  | 0%nat => (0, 1, 0, "NORTH")
  | 1%nat => (0, -1, 0, "SOUTH")
  | 2%nat => (1, 0, 0, "EAST")
  | 3%nat => (-1, 0, 0, "WEST")
  | 4%nat => (0, 0, 1, "ABOVE")
  | 5%nat => (0, 0, -1, "BELOW")
  | _ => (0, 0, 0, EmptyString)
  end.

Fixpoint latticeWalk (is3D : bool) (idxs : list nat) (c : Position)
  : M (list string * list Position * list VisualNode) :=
  match idxs with
  | [] => mret ([], [], [])
  | i :: idxs' =>
      dir ← randomIndex (if is3D then 6 else 4)%nat;
      let '(dx, dy, dz, text) := stepOf dir in
      p ← createPremise (item (i + 1)) text (item i);
      let c' := mkPos (pos_x c + dx) (pos_y c + dy) (pos_z c + dz) in
      '(ps, poss, nodes) ← latticeWalk is3D idxs' c';
      mret (p :: ps, c' :: poss,
            mkNode (item (i + 1)) (pos_x c') (pos_y c') (pos_z c') (item (i + 1))
              :: nodes)
  end.

(** Lines 416-420. *)
Definition availableTypes (is3D : bool) : list string :=
  let types :=
    (["STANDARD"]
       ++ (if enableDeictic settings then ["DEICTIC"] else [])
       ++ (if enableMovement settings && negb is3D then ["MOVEMENT"] else []))%list in
  if (1 <? length types)%nat
  then filter (λ t, t ≠ "STANDARD") types
  else types.

Definition selectType (is3D : bool) : M string :=
  i ← randomIndex (length (availableTypes is3D));
  mret (word_at (availableTypes is3D) i).

(** The rotation of DEICTIC (lines 430-436). *)
Definition deicticLocal (facingDir : nat) (diffX diffY : Z) : Z * Z :=
  match facingDir with
  | 0%nat => (diffX, diffY)
  | 1%nat => (- diffY, diffX)
  | 2%nat => (- diffX, - diffY)
  | 3%nat => (diffY, - diffX)
  | _ => (0, 0)
  end.

(** The rotation of MOVEMENT (lines 498-502). *)
Definition movementLocal (heading : nat) (relX relY : Z) : Z * Z :=
  match heading with
  | 0%nat => (relX, relY)
  | 1%nat => (relY, - relX)
  | 2%nat => (- relX, - relY)
  | 3%nat => (- relY, relX)
  | _ => (0, 0)
  end.

(** The bearing classification, written out twice in the source with the
    same text (lines 438-443 and 504-509). *)
Definition classifyLocal (localX localY : Z) : string :=
  if (0 <? localY) && (Z.abs localX <=? localY) then "FRONT"
  else if (localY <? 0) && (Z.abs localX <=? Z.abs localY) then "BEHIND"
  else if 0 <? localX then "RIGHT"
  else if localX <? 0 then "LEFT"
  else "SAME LOCATION".

(** [while (fakeRaw === effectiveRel) fakeRaw = possibleDirs[...]] *)
Definition pickFakeBearing (effectiveRel : string) : M string :=
  i ← randomIndex 4;
  redrawUntil (λ fakeRaw, negb (String.eqb fakeRaw effectiveRel))
              (λ r, word_at possibleDirs (floor_mul r 4))
              (word_at possibleDirs i).

Definition deicticQuery (positions : list Position)
  : M (string * bool * QueryTrace) :=
  '(idxMe, idxTarget) ← getDistinctRandomIndices (length items);
  pT ← position_at positions idxTarget;
  pM ← position_at positions idxMe;
  let diffX := pos_x pT - pos_x pM in
  let diffY := pos_y pT - pos_y pM in
  facingDir ← randomIndex 4;
  let myFacing := word_at facingNames facingDir in
  let '(localX, localY) := deicticLocal facingDir diffX diffY in
  let trueLocalRel := classifyLocal localX localY in
  let effectiveRel := if isNight then invertSpatial trueLocalRel else trueLocalRel in
  r ← random;
  if gt_half r
  then f ← getTerm myFacing;
       t ← getTerm effectiveRel;
       mret ("You are at " +:+ item idxMe +:+ " facing " +:+ f +:+ ".<br/>Is "
               +:+ item idxTarget +:+ " to your " +:+ t +:+ "?",
             true,
             DeicticTrace idxMe idxTarget facingDir localX localY
               trueLocalRel effectiveRel effectiveRel)
  else fakeRaw ← pickFakeBearing effectiveRel;
       f ← getTerm myFacing;
       t ← getTerm fakeRaw;
       mret ("You are at " +:+ item idxMe +:+ " facing " +:+ f +:+ ".<br/>Is "
               +:+ item idxTarget +:+ " to your " +:+ t +:+ "?",
             false,
             DeicticTrace idxMe idxTarget facingDir localX localY
               trueLocalRel effectiveRel fakeRaw).

(** The walker of MOVEMENT: position, heading and instructions so far. *)
Record Walker := mkWalker {
  curX : Z; curY : Z; heading : nat; instructions : list string
}.

(** One iteration of [for (let m = 0; m < moves; m++)] (lines 476-487). *)
Definition moveStep (w : Walker) : M Walker :=
  r ← random;
  if lt_half r
  then let '(x, y) :=
         match heading w with
         | 0%nat => (curX w, curY w + 1)
         | 1%nat => (curX w + 1, curY w)
         | 2%nat => (curX w, curY w - 1)
         | 3%nat => (curX w - 1, curY w)
         | _ => (curX w, curY w)
         end in
       t ← getTerm "WALK";
       mret (mkWalker x y (heading w) (instructions w ++ [t +:+ " 1."]))
  else r' ← random;
       if gt_half r'
       then t ← getTerm "TURN";
            d ← getTerm "RIGHT";
            mret (mkWalker (curX w) (curY w) ((heading w + 1) mod 4)%nat
                    (instructions w ++ [t +:+ " " +:+ d +:+ "."]))
       else t ← getTerm "TURN";
            d ← getTerm "LEFT";
            mret (mkWalker (curX w) (curY w) ((heading w + 3) mod 4)%nat
                    (instructions w ++ [t +:+ " " +:+ d +:+ "."])).

Fixpoint moveLoop (moves : nat) (w : Walker) : M Walker :=
  match moves with
  | O => mret w
  | S k => w' ← moveStep w; moveLoop k w'
  end.

(** The condition of the target loop (line 491); [||] and [&&] short-cut,
    so [positions[targetIdx]] is read only when [targetIdx] is not
    [startIdx]. *)
Definition targetRejected (positions : list Position) (startIdx : nat)
    (w : Walker) (targetIdx : nat) : M bool :=
  if (targetIdx =? startIdx)%nat then mret true
  else p ← position_at positions targetIdx;
       mret ((pos_x p =? curX w) && (pos_y p =? curY w)).

(** [while (rejected && attempts < 50) { redraw; attempts++ }], with
    [budget = 50 - attempts]. *)
Fixpoint pickTarget (positions : list Position) (startIdx : nat) (w : Walker)
    (budget : nat) (targetIdx : nat) : M nat :=
  rejected ← (targetRejected positions startIdx w targetIdx : M bool);
  if rejected : bool
  then match budget with
       | O => mret targetIdx
       | S budget' =>
           t ← randomIndex (length items);
           pickTarget positions startIdx w budget' t
       end
  else mret targetIdx.

Definition movementQuery (positions : list Position)
  : M (string * bool * QueryTrace) :=
  startIdx ← randomIndex (length items);
  pS ← position_at positions startIdx;
  heading0 ← randomIndex 4;
  s ← getTerm "START";
  f ← getTerm "FACE";
  h ← getTerm (word_at facingNames heading0);
  let w0 := mkWalker (pos_x pS) (pos_y pS) heading0
              [s +:+ " " +:+ item startIdx +:+ "."; f +:+ " " +:+ h +:+ "."] in
  m ← randomIndex 2;
  w ← moveLoop (2 + m) w0;
  t0 ← randomIndex (length items);
  targetIdx ← pickTarget positions startIdx w 50 t0;
  tPos ← position_at positions targetIdx;
  let relX := pos_x tPos - curX w in
  let relY := pos_y tPos - curY w in
  let '(localX, localY) := movementLocal (heading w) relX relY in
  let trueRel := classifyLocal localX localY in
  let effectiveRel := if isNight then invertSpatial trueRel else trueRel in
  r ← random;
  if gt_half r
  then t ← getTerm effectiveRel;
       mret (JsString.join " " (instructions w) +:+ " <br/><br/> Is "
               +:+ item targetIdx +:+ " to your " +:+ t +:+ "?",
             true,
             MovementTrace (heading w) relX relY localX localY
               trueRel effectiveRel effectiveRel)
  else qRaw ← pickFakeBearing effectiveRel;
       t ← getTerm qRaw;
       mret (JsString.join " " (instructions w) +:+ " <br/><br/> Is "
               +:+ item targetIdx +:+ " to your " +:+ t +:+ "?",
             false,
             MovementTrace (heading w) relX relY localX localY
               trueRel effectiveRel qRaw).

(** [parts] of STANDARD (lines 531-534). *)
Definition standardParts (is3D : bool) (diffX diffY diffZ : Z) : list string :=
  ((if is3D
    then (if 0 <? diffZ then ["ABOVE"] else if diffZ <? 0 then ["BELOW"] else [])
    else [])
     ++ (if 0 <? diffY then ["NORTH"] else if diffY <? 0 then ["SOUTH"] else [])
     ++ (if 0 <? diffX then ["EAST"] else if diffX <? 0 then ["WEST"] else []))%list.

(** [arr.includes(w)] *)
Definition list_includes (arr : list string) (w : string) : bool :=
  bool_decide (w ∈ arr).

(** Lines 554-558: a direction outside [effectiveParts]. *)
Definition standardFake (is3D : bool) (effectiveParts : list string) : M string :=
  i ← randomIndex (length (allDirs is3D));
  redrawUntil (λ fakeRaw, negb (list_includes effectiveParts fakeRaw))
              (λ r, word_at (allDirs is3D) (floor_mul r (length (allDirs is3D))))
              (word_at (allDirs is3D) i).

Definition standardQuery (is3D : bool) (positions : list Position)
  : M (string * bool * QueryTrace) :=
  '(idxA, idxB) ← getDistinctRandomIndices (length items);
  pB ← position_at positions idxB;
  pA ← position_at positions idxA;
  let parts :=
    standardParts is3D (pos_x pB - pos_x pA) (pos_y pB - pos_y pA)
      (pos_z pB - pos_z pA) in
  let effectiveParts := if isNight then map invertSpatial parts else parts in
  let askFalse :=
    fakeRaw ← standardFake is3D effectiveParts;
    t ← getTerm fakeRaw;
    mret ("Is " +:+ item idxB +:+ " " +:+ t +:+ " " +:+ item idxA +:+ "?",
          false, StandardTrace idxA idxB parts effectiveParts fakeRaw) in
  if (0 <? length effectiveParts)%nat
  then r ← random;
       if gt_half r
       then i ← randomIndex (length effectiveParts);
            let partToAsk := word_at effectiveParts i in
            t ← getTerm partToAsk;
            mret ("Is " +:+ item idxB +:+ " " +:+ t +:+ " " +:+ item idxA +:+ "?",
                  true, StandardTrace idxA idxB parts effectiveParts partToAsk)
       else askFalse
  else askFalse.

Definition spatialRound (is3D : bool) (num : nat)
  : M (string * bool * list string * list VisualNode * Locals) :=
  let origin := mkPos 0 0 0 in
  '(newPremises, poss, nodes) ← latticeWalk is3D (seq 0 num) origin;
  let positions := origin :: poss in
  let visualNodes := mkNode (item 0) 0 0 0 (item 0) :: nodes in
  selectedType ← selectType is3D;
  if String.eqb selectedType "DEICTIC"
  then '(q, a, tr) ← deicticQuery positions;
       mret (q, a, ["DEICTIC"], visualNodes, mkLocals newPremises tr)
  else if String.eqb selectedType "MOVEMENT"
  then '(q, a, tr) ← movementQuery positions;
       mret (q, a, ["MOVEMENT"], visualNodes, mkLocals newPremises tr)
  else '(q, a, tr) ← standardQuery is3D positions;
       mret (q, a, [], visualNodes, mkLocals newPremises tr).

(** *** The whole generator *)

(** The [if (mode === ...) ... else if ...] chain: the question, the
    answer, [modifiers], [visualNodes] and the locals of the branch. *)
Definition generateRound (mode : RftMode) (num : nat)
  : M (string * bool * list string * list VisualNode * Locals) :=
  match mode with
  | LINEAR =>
      '(q, a, l) ← linearRound num; mret (q, a, [], [], l)
  | DISTINCTION =>
      '(q, a, l) ← distinctionRound num; mret (q, a, [], [], l)
  | HIERARCHY =>
      '(q, a, l) ← hierarchyRound num; mret (q, a, [], [], l)
  | SPATIAL_2D => spatialRound false num
  | SPATIAL_3D => spatialRound true num
  end.

Definition generateLogic (mode : RftMode) (num : nat) : M (LogicData * Locals) :=
  '(newQuestion, newAnswer, modifiers, visualNodes, locals) ←
    generateRound mode num;
  shuffled ← shuffleArray (newPremises locals);
  keys ← readUsedKeys;
  mret (mkLogic shuffled newQuestion newAnswer modifiers visualNodes keys, locals).

(** The string [createPremise] returns. *)
Definition premiseText (a rawRel b : string) : string :=
  if enableCipher settings && JsString.truthy (cipherMap !! cleanRelOf rawRel)
  then a +:+ " " +:+ accented (default EmptyString (cipherMap !! cleanRelOf rawRel))
         +:+ " " +:+ b
  else a +:+ " " +:+ rawRel +:+ " " +:+ b.

(** A premise list in link order: entry [i] links item [i] and item
    [i + 1]; the spatial premises name the later item first. *)
Definition in_link_order (laterFirst : bool) (prems : list string) : Prop :=
  ∀ i p, prems !! i = Some p →
    ∃ rawRel,
      p = if laterFirst then premiseText (item (i + 1)) rawRel (item i)
          else premiseText (item i) rawRel (item (i + 1)).

End GenerateLogic.

(** ** Session state and [handleAnswer] (App.tsx, lines 574-601, 714-776)

    The pieces of React state that [handleAnswer] reads and writes, as one
    record.  Every setter call of one handler run lands in the same render,
    so a handler is a function from the state it closed over to the next
    state. *)

Inductive GamePhase :=
  SETUP | PREMISE_MEMORIZE | INTERFERENCE | QUESTION | RESULT | SESSION_END.

Record Session := mkSession {
  settings : GameSettings;
  phase : GamePhase;
  expectedAnswer : bool;
  contextIsNight : bool;
  currentScore : Z;
  questionsAttempted : Z;
  maxDepthReached : Z;
  feedbackMsg : string;
  progressCount : Z;
  mistakeCount : Z
}.

(** [{ ...s, numPremises: n }] *)
Definition withNumPremises (s : GameSettings) (n : Z) : GameSettings :=
  mkSettings (activeModes s) n (autoProgress s) (useQuestionTimer s)
    (questionTimeLimit s) (sessionLengthMinutes s) (disableSessionTimer s)
    (blindMode s) (symbolMode s) (enableDeictic s) (enableTransformation s)
    (enableInterference s) (enableCipher s) (enableMovement s).

(** The resets of [startSession] (lines 575-579); the timers, the cipher
    key and the first round it then starts are not part of this record. *)
Definition startSession (σ : Session) : Session :=
  mkSession (settings σ) (phase σ) (expectedAnswer σ) (contextIsNight σ)
    0 0 (numPremises (settings σ)) (feedbackMsg σ) 0 0.

(** What [startRound] leaves for [handleAnswer] to read: the night flag and
    the expected answer of the round it generated (lines 656 and 666), with
    the question phase entered. *)
Definition armRound (isNight expected : bool) (σ : Session) : Session :=
  mkSession (settings σ) QUESTION expected isNight
    (currentScore σ) (questionsAttempted σ) (maxDepthReached σ) (feedbackMsg σ)
    (progressCount σ) (mistakeCount σ).

(** [userAnswer === expectedAnswerRef.current]; [null] is a timeout. *)
Definition isCorrect (userAnswer : option bool) (σ : Session) : bool :=
  bool_decide (userAnswer = Some (expectedAnswer σ)).

Definition handleAnswer (userAnswer : option bool) (σ : Session) : Session :=
  let st := settings σ in
  let correct := isCorrect userAnswer σ in
  let night := enableTransformation st && contextIsNight σ in
  let msg :=
    match userAnswer with
    | None => "TIMEOUT"
    | Some _ =>
        if correct
        then (if night then "INVERSION SUCCESSFUL" else "VERIFIED")
        else (if night then "FAILED TO INVERT" else "COLLAPSE")
    end in
  let attempted := questionsAttempted σ + 1 in
  if correct
  then
    let score := currentScore σ + numPremises st * 10 in
    if autoProgress st
    then
      if 2 <=? progressCount σ
      then mkSession (withNumPremises st (numPremises st + 1)) RESULT
             (expectedAnswer σ) (contextIsNight σ) score attempted
             (Z.max (maxDepthReached σ) (numPremises st + 1))
             (msg +:+ " | DEPTH INCREASED") 0 0
      else mkSession st RESULT (expectedAnswer σ) (contextIsNight σ) score
             attempted (maxDepthReached σ) msg (progressCount σ + 1) 0
    else mkSession st RESULT (expectedAnswer σ) (contextIsNight σ) score
           attempted (maxDepthReached σ) msg (progressCount σ) 0
  else
    let score := Z.max 0 (currentScore σ - 20) in
    if autoProgress st && (2 <? numPremises st)
    then
      if 1 <=? mistakeCount σ
      then mkSession (withNumPremises st (numPremises st - 1)) RESULT
             (expectedAnswer σ) (contextIsNight σ) score attempted
             (maxDepthReached σ) (msg +:+ " | DEPTH DECREASED") 0 0
      else mkSession st RESULT (expectedAnswer σ) (contextIsNight σ) score
             attempted (maxDepthReached σ) msg 0 (mistakeCount σ + 1)
    else mkSession st RESULT (expectedAnswer σ) (contextIsNight σ) score
           attempted (maxDepthReached σ) msg 0 (mistakeCount σ).

(** The current depth. *)
Definition depth (σ : Session) : Z := numPremises (settings σ).

(** One played round: what the generator armed, and what the player (or
    the question timer, with [None]) answered. *)
Record Round := mkRound {
  round_night : bool; round_expected : bool; round_answer : option bool
}.

Definition playRound (r : Round) (σ : Session) : Session :=
  handleAnswer (round_answer r) (armRound (round_night r) (round_expected r) σ).

Definition roundCorrect (r : Round) : bool :=
  bool_decide (round_answer r = Some (round_expected r)).

(** One line of the session's history: was the answer correct, and the
    depth before and after it was handled. *)
Record Outcome := mkOutcome {
  out_correct : bool; depth_before : Z; depth_after : Z
}.

(** Playing a list of rounds, most recent first, from a session state;
    returns the state reached and the history, most recent first. *)
Fixpoint play (rounds : list Round) (σ0 : Session) : Session * list Outcome :=
  match rounds with
  | [] => (σ0, [])
  | r :: earlier =>
      let '(σ, h) := play earlier σ0 in
      let σ' := playRound r σ in
      (σ', mkOutcome (roundCorrect r) (depth σ) (depth σ') :: h)
  end.




(** ** Auxiliary definitions of the properties *)

(** [wp m e Φ]: whenever [m] returns from state [e], the value and the
    state it returns satisfy [Φ]. *)
Definition wp {A} (m : M A) (e : Env) (Φ : A → Env → Prop) : Prop :=
  ∀ a e', m e = Some (a, e') → Φ a e'.

(** Walking one step forward from [(x, y)] with heading [h] (line 477). *)
Definition forwardOf (h : nat) : Z * Z :=
  match h with
  | 0%nat => (0, 1) | 1%nat => (1, 0) | 2%nat => (0, -1) | 3%nat => (-1, 0)
  | _ => (0, 0)
  end.


(** A value of the chain is 0 or 1. *)
Definition bit (v : Z) : Prop := v = 0 ∨ v = 1.

(** What the loop has done for link [i]: the label drawn, the premise
    pushed, and the value appended for item [i + 1]. *)
Definition link_ok (st : GameSettings) (cm : gmap string string)
    (items : list string) (vs : list Z) (i : nat) (link : string * string) : Prop :=
  (link.1 = "SAME" ∨ link.1 = "DIFFERENT")
  ∧ link.2 = premiseText st cm (item items i) link.1 (item items (i + 1))
  ∧ ∃ v, vs !! i = Some v
         ∧ vs !! S i = Some (if String.eqb link.1 "SAME" then v else 1 - v).

(** How the stored answer relates to the relation the branch computed,
    read off the trace: the effective relation is the true one, inverted
    word by word at night, and the answer is true exactly when the word
    asked about belongs to the effective relation. *)
Definition spatial_answer_ok (night : bool) (a : bool) (tr : QueryTrace) : Prop :=
  match tr with
  | DeicticTrace _ _ _ localX localY trueRel effectiveRel asked =>
      trueRel = classifyLocal localX localY
      ∧ effectiveRel = (if night then invertSpatial trueRel else trueRel)
      ∧ (a = true ↔ asked = effectiveRel)
  | MovementTrace h relX relY localX localY trueRel effectiveRel asked =>
      (localX, localY) = movementLocal h relX relY
      ∧ trueRel = classifyLocal localX localY
      ∧ effectiveRel = (if night then invertSpatial trueRel else trueRel)
      ∧ (a = true ↔ asked = effectiveRel)
  | StandardTrace _ _ parts effectiveParts asked =>
      effectiveParts = (if night then map invertSpatial parts else parts)
      ∧ (a = true ↔ asked ∈ effectiveParts)
  | _ => False
  end.

(** The sub-mode a trace belongs to. *)
Definition subModeOf (tr : QueryTrace) : string :=
  match tr with
  | DeicticTrace _ _ _ _ _ _ _ _ => "DEICTIC"
  | MovementTrace _ _ _ _ _ _ _ _ => "MOVEMENT"
  | StandardTrace _ _ _ _ _ => "STANDARD"
  | _ => EmptyString
  end.



(** Is the frame one of the two spatial ones. *)
Definition is_spatial (mode : RftMode) : bool :=
  match mode with
  | SPATIAL_2D | SPATIAL_3D => true
  | _ => false
  end.

(** The spatial frame of a dimension. *)
Definition spatialMode (is3D : bool) : RftMode :=
  if is3D then SPATIAL_3D else SPATIAL_2D.

(** The largest depth a session has been at: its start depth and the depth
    after each of its rounds. *)
Fixpoint peakDepth (d0 : Z) (h : list Outcome) : Z :=
  match h with
  | [] => d0
  | o :: h' => Z.max (depth_after o) (peakDepth d0 h')
  end.

(** ** Concrete settings, draws and rounds *)

(** [DEFAULT_SETTINGS] (lines 157-172), and a session on it before its
    start. *)
Definition DEFAULT_SETTINGS : GameSettings :=
  mkSettings
    (λ m, match m with SPATIAL_3D => false | _ => true end)
    2 true true 15 5 false false EMOJI false false false false false.

Definition default_session : Session :=
  mkSession DEFAULT_SETTINGS SETUP false false 0 0 2 EmptyString 0 0.

Definition correct_round : Round := mkRound false true (Some true).

(** A round that ran into the question timer: [handleAnswer(null)]. *)
Definition timeout_round : Round := mkRound false true None.

(** Two draws on either side of one half. *)
Definition draw_low : Draw := mkDraw (1 # 4) I.
Definition draw_high : Draw := mkDraw (3 # 4) I.

Definition draw_zero : Draw := mkDraw 0 I.
Definition draw_third : Draw := mkDraw (1 # 3) I.
Definition draw_half : Draw := mkDraw (1 # 2) I.
Definition draw_two_thirds : Draw := mkDraw (2 # 3) I.

Definition example_items : list string := ["A"; "B"; "C"].

(** [DEFAULT_SETTINGS] with the Movement modifier switched on. *)
Definition movement_settings : GameSettings :=
  mkSettings (activeModes DEFAULT_SETTINGS) 2 true true 15 5 false false EMOJI
    false false false false true.

(** The parts of a run's result, for a run that returned. *)
Definition run_data (x : option (LogicData * Locals * Env)) : LogicData :=
  match x with
  | Some (r, _, _) => r
  | None => mkLogic [] EmptyString false [] [] []
  end.

Definition run_locals (x : option (LogicData * Locals * Env)) : Locals :=
  match x with
  | Some (_, loc, _) => loc
  | None => mkLocals [] (StandardTrace 0 0 [] [] EmptyString)
  end.

Definition run_env (x : option (LogicData * Locals * Env)) : Env :=
  match x with
  | Some (_, _, e) => e
  | None => mkEnv [] []
  end.

(** LINEAR, depth 2: labels GREATER and LESS, indices 0 and 1, a GREATER
    query; one comparison in the shuffle. *)
Definition linear_draws : list Draw :=
  [draw_high; draw_low; draw_zero; draw_half; draw_high; draw_low].
Definition linear_example : option (LogicData * Locals * Env) :=
  generateLogic DEFAULT_SETTINGS ∅ false example_items LINEAR 2
    (mkEnv linear_draws []).

(** DISTINCTION, depth 2: start value 1, links SAME and DIFFERENT, indices 0
    and 2, a DIFFERENT query. *)
Definition distinction_draws : list Draw :=
  [draw_high; draw_high; draw_low; draw_zero; draw_two_thirds; draw_low; draw_low].
Definition distinction_example : option (LogicData * Locals * Env) :=
  generateLogic DEFAULT_SETTINGS ∅ false example_items DISTINCTION 2
    (mkEnv distinction_draws []).

(** HIERARCHY, depth 2: indices 0 and 2, an INSIDE query. *)
Definition hierarchy_draws : list Draw :=
  [draw_zero; draw_two_thirds; draw_high; draw_low].
Definition hierarchy_example : option (LogicData * Locals * Env) :=
  generateLogic DEFAULT_SETTINGS ∅ false example_items HIERARCHY 2
    (mkEnv hierarchy_draws []).

(** SPATIAL_2D with Movement on, depth 2: two steps EAST; the walker starts
    at item 0 facing EAST, turns left, turns right; item 1 is the target and
    the true bearing is asked. *)
Definition movement_draws : list Draw :=
  [draw_half; draw_half; draw_zero; draw_zero; draw_low; draw_zero;
   draw_high; draw_low; draw_high; draw_high; draw_third; draw_high; draw_low].
Definition movement_example : option (LogicData * Locals * Env) :=
  generateLogic movement_settings ∅ false example_items SPATIAL_2D 2
    (mkEnv movement_draws []).

(** SPATIAL_2D at night, depth 1: one step NORTH, items 0 and 1, a direction
    of the effective relation asked. *)
Definition night_draws : list Draw :=
  [draw_zero; draw_zero; draw_zero; draw_half; draw_high; draw_zero].
Definition night_example : option (LogicData * Locals * Env) :=
  generateLogic DEFAULT_SETTINGS ∅ true ["A"; "B"] SPATIAL_2D 1
    (mkEnv night_draws []).

(** A cipher key from a source whose comparisons all leave the order. *)
Definition cipher_example : option (gmap string string * Env) :=
  generateCipherKey (mkEnv (replicate 23 draw_low) []).

(** ** [getCipherList] (App.tsx, lines 837-840)

    [Object.entries(currentCipherMap).filter(([k]) =>
    activeCipherKeys.includes(k))].  The entries are listed in the order of
    the map model, not in the insertion order of the JS object. *)
Definition getCipherList (st : GameSettings) (currentCipherMap : gmap string string)
    (activeCipherKeys : list string) : list (string * string) :=
  if negb (enableCipher st) then []
  else filter (λ kv, kv.1 ∈ activeCipherKeys) (map_to_list currentCipherMap).

(** ** The [usedKeys] set of [generateLogic] (lines 329-346) *)

(** A key [getTerm] or [createPremise] may record: the cipher is on and the
    key has a non-empty token. *)
Definition recordable (st : GameSettings) (cm : gmap string string)
    (k : string) : Prop :=
  enableCipher st = true ∧ JsString.truthy (cm !! k) = true.

(** The invariant of the [usedKeys] set: no key twice, recordable keys
    only. *)
Definition keys_ok (st : GameSettings) (cm : gmap string string)
    (ks : list string) : Prop :=
  NoDup ks ∧ Forall (recordable st cm) ks.

(** [m] keeps the invariant of [usedKeys]. *)
Definition keeps (st : GameSettings) (cm : gmap string string) {A} (m : M A) : Prop :=
  ∀ e a e', m e = Some (a, e') →
    keys_ok st cm (usedKeys e) → keys_ok st cm (usedKeys e').

(** ** Reading a spatial round off its map *)

(** The position a node of [visualMap] is drawn at. *)
Definition nodePosition (n : VisualNode) : Position :=
  mkPos (node_x n) (node_y n) (node_z n).

(** The number of step directions of a dimension (line 400). *)
Definition directionCount (is3D : bool) : nat := if is3D then 6%nat else 4%nat.

(** Link [i] of a lattice walk: position [i + 1] is position [i] moved by
    the step of one direction of the dimension, and premise [i] is the one
    rendered for "item i+1 is <that direction> of item i". *)
Definition walk_ok (st : GameSettings) (cm : gmap string string)
    (items : list string) (is3D : bool)
    (positions : list Position) (prems : list string) : Prop :=
  ∀ i p q, positions !! i = Some p → positions !! S i = Some q →
    ∃ dir dx dy dz text,
      (dir < directionCount is3D)%nat
      ∧ stepOf dir = (dx, dy, dz, text)
      ∧ q = mkPos (pos_x p + dx) (pos_y p + dy) (pos_z p + dz)
      ∧ prems !! i
        = Some (premiseText st cm (item items (i + 1)) text (item items i)).

(** How the locals of a spatial query relate to the positions of the
    walk. *)
Definition query_on_map (is3D : bool) (positions : list Position)
    (tr : QueryTrace) : Prop :=
  match tr with
  | StandardTrace idxA idxB parts _ asked =>
      idxA ≠ idxB
      ∧ asked ∈ allDirs is3D
      ∧ ∃ pA pB, positions !! idxA = Some pA ∧ positions !! idxB = Some pB
          ∧ parts = standardParts is3D (pos_x pB - pos_x pA)
                      (pos_y pB - pos_y pA) (pos_z pB - pos_z pA)
  | DeicticTrace idxMe idxTarget facingDir localX localY _ _ asked =>
      idxMe ≠ idxTarget
      ∧ (facingDir < 4)%nat
      ∧ asked ∈ "SAME LOCATION" :: possibleDirs
      ∧ ∃ pM pT, positions !! idxMe = Some pM ∧ positions !! idxTarget = Some pT
          ∧ (localX, localY)
            = deicticLocal facingDir (pos_x pT - pos_x pM) (pos_y pT - pos_y pM)
  | MovementTrace _ _ _ _ _ _ _ asked => asked ∈ "SAME LOCATION" :: possibleDirs
  | _ => False
  end.



(** [DEFAULT_SETTINGS] with the Deictic modifier and the cipher switched
    on. *)
Definition cipher_settings : GameSettings :=
  mkSettings (activeModes DEFAULT_SETTINGS) 2 true true 15 5 false false EMOJI
    true false false true false.

(** SPATIAL_2D with Deictic and the cipher on, depth 2: steps EAST and
    NORTH; the observer is at item 0 facing EAST, item 2 is the target and
    the true bearing is asked.  The key is generated from the draws that
    come first. *)
Definition deictic_draws : list Draw :=
  [draw_half; draw_zero; draw_zero; draw_zero; draw_two_thirds; draw_low;
   draw_high; draw_low].
Definition cipher_key_run : option (gmap string string * Env) :=
  generateCipherKey (mkEnv (replicate 23 draw_low ++ deictic_draws) []).
Definition cipher_map : gmap string string :=
  match cipher_key_run with Some (cm, _) => cm | None => ∅ end.
Definition deictic_example : option (LogicData * Locals * Env) :=
  generateLogic cipher_settings cipher_map false example_items SPATIAL_2D 2
    (mkEnv deictic_draws []).

(** ** Reading a Distinction round off its premises *)

(** The number of DIFFERENT links among the links that lie between item
    [i] and item [j] of the chain (link [k] joins items [k] and [k + 1]). *)
Definition differentBetween (rels : list string) (i j : nat) : nat :=
  length (filter (λ rel, rel = "DIFFERENT")
            (take (Nat.max i j - Nat.min i j) (drop (Nat.min i j) rels))).

(** ** Reading a Movement question *)

(** Following one instruction of a Movement question by hand, as it reads
    with the cipher off: a walk goes one step forward in the compass
    direction of the heading, a right turn goes on to the next of NORTH,
    EAST, SOUTH, WEST, a left turn back to the previous one. *)
Definition followInstruction (w : Z * Z * nat) (ins : string) : Z * Z * nat :=
  let '(x, y, h) := w in
  if String.eqb ins "WALK 1." then (x + (forwardOf h).1, y + (forwardOf h).2, h)
  else if String.eqb ins "TURN RIGHT." then (x, y, (h + 1) mod 4)%nat
  else if String.eqb ins "TURN LEFT." then (x, y, (h + 3) mod 4)%nat
  else w.

(** ** The answer controls and the result heading
       (App.tsx, lines 793-798, 998-1003 and 1014) *)

Inductive AnswerButton := LeftButton | RightButton.

(** [onClick]: [handleAnswer(!isYesRight)] on the left,
    [handleAnswer(isYesRight)] on the right. *)
Definition buttonAnswer (isYesRight : bool) (b : AnswerButton) : bool :=
  match b with
  | LeftButton => negb isYesRight
  | RightButton => isYesRight
  end.

(** The text on the buttons. *)
Definition buttonLabel (isYesRight : bool) (b : AnswerButton) : string :=
  match b with
  | LeftButton => if isYesRight then "NO" else "YES"
  | RightButton => if isYesRight then "YES" else "NO"
  end.

(** The keydown handler of the question phase: the answers it hands to
    [handleAnswer], in order. *)
Definition keyAnswers (ph : GamePhase) (isYesRight : bool) (code : string)
  : list bool :=
  match ph with
  | QUESTION =>
      (if String.eqb code "ArrowLeft" || String.eqb code "KeyD"
       then [negb isYesRight] else [])
      ++ (if String.eqb code "ArrowRight" || String.eqb code "KeyJ"
          then [isYesRight] else [])
  | _ => []
  end.

(** The test that colours the result heading green rather than red. *)
Definition feedbackIsGreen (msg : string) : bool :=
  JsString.includes "VERIFIED" msg || JsString.includes "SUCCESS" msg.

(** ** The symbols of a round (App.tsx, lines 85-87 and 119-155) *)

Definition EMOJIS : list string :=
  [ "🚀"; "💎"; "🔥"; "🌊"; "⚡"; "🍄"; "👁️"; "🎲"; "🧬"; "🔮";
    "⚓"; "🪐"; "🌋"; "🦠"; "🌌"; "💊"; "🧿"; "🧩"; "🧸"; "💣" ].
Definition NONSENSE_CONSONANTS : string := "BCDFGHJKLMNPQRSTVWXYZ".
Definition NONSENSE_VOWELS : string := "AEIOU".
Definition THEME_dark_bg : string := "#0f172a".
Definition COMMON_dim : string := "#64748b".

(** [s[i]] on a string: the character as a string, [undefined] outside. *)
Definition charAt (s : string) (i : nat) : string :=
  match String.get i s with
  | Some c => String c EmptyString
  | None => "undefined"
  end.

(** The template of [generateWord] (line 124). *)
Definition wordSpan (c1 v1 c2 v2 : string) : string :=
  "<span class=" +:+ dquote
    +:+ "px-1 rounded border font-mono font-bold text-sm tracking-wider inline-block"
    +:+ dquote +:+ " style=" +:+ dquote +:+ "background-color: " +:+ THEME_dark_bg
    +:+ "; border-color: " +:+ COMMON_dim +:+ "; color: " +:+ COMMON_accent
    +:+ dquote +:+ ">" +:+ c1 +:+ v1 +:+ c2 +:+ v2 +:+ "</span>".

Definition generateWord : M string :=
  c1 ← randomIndex (String.length NONSENSE_CONSONANTS);
  v1 ← randomIndex (String.length NONSENSE_VOWELS);
  c2 ← randomIndex (String.length NONSENSE_CONSONANTS);
  v2 ← randomIndex (String.length NONSENSE_VOWELS);
  mret (wordSpan (charAt NONSENSE_CONSONANTS c1) (charAt NONSENSE_VOWELS v1)
          (charAt NONSENSE_CONSONANTS c2) (charAt NONSENSE_VOWELS v2)).

(** The template of the emoji branch (line 152). *)
Definition emojiSpan (emoji : string) : string :=
  "<span class=" +:+ dquote +:+ "text-2xl align-middle" +:+ dquote +:+ ">"
    +:+ emoji +:+ "</span>".

(** The number literals [0.33] and [0.66] of line 147, as the doubles they
    denote. *)
Definition roll_033 : Q := 5944751508129055 # 18014398509481984.
Definition roll_066 : Q := 5944751508129055 # 9007199254740992.

(** [r < c] on a draw *)
Definition lt_draw (r c : Q) : bool := negb (Qle_bool c r).

Section Symbols.

(** [generateVoronoi] (lines 127-139) prints floating-point coordinates
    computed with [Math.cos] and [Math.sin].  What it makes of the draws it
    takes is kept as a variable, so that what is proved of
    [generateSymbols] holds whatever it draws and returns; it touches
    nothing but [Math.random]. *)
Variable voronoi : list Draw → option (string * list Draw).

Definition generateVoronoi : M string :=
  λ e, match voronoi (draws e) with
       | Some (s, ds) => Some (s, mkEnv ds (usedKeys e))
       | None => None
       end.

(** One iteration of the loop of [generateSymbols] (lines 144-153). *)
Definition symbolAt (shuffledEmojis : list string) (mode : SymbolMode) (i : nat)
  : M string :=
  currentMode ←
    match mode with
    | MIXED =>
        roll ← random;
        mret (if lt_draw roll roll_033 then EMOJI
              else if lt_draw roll roll_066 then WORDS else VORONOI)
    | _ => mret mode
    end;
  match currentMode with
  | WORDS => generateWord
  | VORONOI => generateVoronoi
  | _ => mret (emojiSpan (word_at shuffledEmojis (i mod length shuffledEmojis)))
  end.

Definition generateSymbols (count : nat) (mode : SymbolMode) : M (list string) :=
  shuffledEmojis ← shuffleArray EMOJIS;
  forPush (symbolAt shuffledEmojis mode) (seq 0 count).

End Symbols.

(** ** [startRound] (App.tsx, lines 628-679), with [startInterference]
       (lines 681-693) and [startQuestionPhase] (lines 695-711) *)

(** [Object.keys(settings.activeModes)]: the keys come in the order of
    [DEFAULT_SETTINGS], which loading and toggling keep. *)
Definition modeKeys : list RftMode :=
  [LINEAR; DISTINCTION; SPATIAL_2D; SPATIAL_3D; HIERARCHY].

Definition enabledModes (st : GameSettings) : list RftMode :=
  filter (λ k, activeModes st k = true) modeKeys.

(** The number literal [0.15] of line 644, as the double it denotes. *)
Definition key_change_chance : Q := 5404319552844595 # 36028797018963968.

(** [const usedKeys = new Set()] (line 329) *)
Definition freshUsedKeys : M unit := λ e, Some (tt, mkEnv (draws e) []).

(** What [startRound] leaves in the state of the component when it starts
    a round. *)
Record StartedRound := mkStarted {
  currentRoundMode : RftMode;
  roundCipherMap : gmap string string;
  cipherHasChanged : bool;
  roundIsNight : bool;
  logicData : LogicData;
  roundLocals : Locals;
  activeModifiers : list string;
  isYesRight : bool;
  questionSecondsRemaining : Z;
  roundPhase : GamePhase;
  interferenceTargetColor : option string
}.

Inductive RoundStart :=
  | SessionEnds
  | NoModuleAlert
  | RoundStarted (r : StartedRound).

Definition interferenceColors : list string := ["red"; "blue"; "green"; "yellow"].

Section StartRound.

Variable voronoi : list Draw → option (string * list Draw).
Variable st : GameSettings.

(** [generateLogic(mode, num, cipherMap, isNight)] as [startRound] calls
    it: [usedKeys] starts empty and the items are the symbols generated at
    the head of the branch of the mode (lines 349, 363, 380 and 394). *)
Definition callGenerateLogic (mode : RftMode) (num : nat)
    (cipherMap : gmap string string) (isNight : bool) : M (LogicData * Locals) :=
  _ ← freshUsedKeys;
  items ← generateSymbols voronoi (num + 1) (symbolMode st);
  generateLogic st cipherMap isNight items mode num.

(** The phase a started round enters (lines 676-678): the new phase, the
    modifiers, and the target colour when [startInterference] sets one. *)
Definition enterPhase (roundCipherChanged : bool) (mods : list string)
  : M (GamePhase * list string * option string) :=
  if blindMode st || roundCipherChanged then mret (PREMISE_MEMORIZE, mods, None)
  else if enableInterference st
  then i ← randomIndex (length interferenceColors);
       mret (INTERFERENCE, mods ++ ["INTERFERENCE"],
             Some (word_at interferenceColors i))
  else mret (QUESTION, mods, None).

(** [startRound], from the state its closure reads: the settings, the
    current cipher map, the number of questions attempted and the seconds
    left on the session timer.  The depth is handed to the generator as a
    natural number; the settings panel and [handleAnswer] keep it at 2 or
    above. *)
Definition startRound (currentCipherMap : gmap string string)
    (questionsAttempted : Z) (sessionTimer : Z) : M RoundStart :=
  if negb (disableSessionTimer st) && (sessionTimer <=? 0) then mret SessionEnds
  else if (length (enabledModes st) =? 0)%nat then mret NoModuleAlert
  else
    i ← randomIndex (length (enabledModes st));
    match enabledModes st !! i with
    | None => throw
    | Some nextMode =>
        '(roundCipherMap, roundCipherChanged) ←
          (if enableCipher st && (size currentCipherMap =? 0)%nat
           then m ← generateCipherKey; mret (m, false)
           else if enableCipher st && (0 <? questionsAttempted)
           then r ← random;
                if lt_draw r key_change_chance
                then m ← generateCipherKey; mret (m, true)
                else mret (currentCipherMap, false)
           else mret (currentCipherMap, false));
        isNight ←
          (if enableTransformation st then r ← random; mret (gt_half r)
           else mret false);
        '(data, locals) ←
          callGenerateLogic nextMode (Z.to_nat (numPremises st)) roundCipherMap isNight;
        let mods :=
          modifiers data
            ++ (if roundCipherChanged : bool then ["KEY_CHANGE"] else [])
            ++ (if isNight : bool then ["TRANSFORM"] else []) in
        r ← random;
        '(ph, mods', colour) ← enterPhase roundCipherChanged mods;
        mret (RoundStarted
                (mkStarted nextMode roundCipherMap roundCipherChanged isNight
                   data locals mods' (gt_half r) (questionTimeLimit st) ph colour))
    end.

End StartRound.

(** A run of [startRound] on [cipher_settings] with no key yet: the mode
    drawn is SPATIAL_2D, a key is generated, and the round is the one of
    [deictic_example]. *)
Definition start_draws : list Draw :=
  [draw_half] ++ replicate 23 draw_low ++ replicate 19 draw_low
    ++ deictic_draws ++ [draw_high].
Definition start_example : option (RoundStart * Env) :=
  startRound (λ _, None) cipher_settings ∅ 0 300 (mkEnv start_draws []).
Definition started_example : StartedRound :=
  match start_example with
  | Some (RoundStarted r, _) => r
  | _ => mkStarted LINEAR ∅ false false (mkLogic [] EmptyString false [] [] [])
           (mkLocals [] (StandardTrace 0 0 [] [] EmptyString)) [] false 0 SETUP None
  end.

(** ** [formatTime] (App.tsx, lines 831-835) *)

(** [n.toString()] of an integer. *)
Definition toString (n : Z) : string := pretty n.

(** The first [k] characters of [padString] repeated; [cur] is what is left
    of the copy being written. *)
Fixpoint filler (k : nat) (padString cur : string) : string :=
  match k with
  | O => EmptyString
  | S k' =>
      match cur with
      | String c cur' => String c (filler k' padString cur')
      | EmptyString =>
          match padString with
          | String c pad' => String c (filler k' padString pad')
          | EmptyString => EmptyString
          end
      end
  end.

(** [s.padStart(targetLength, padString)] *)
Definition padStart (targetLength : nat) (padString s : string) : string :=
  if (targetLength <=? String.length s)%nat then s
  else filler (targetLength - String.length s) padString padString +:+ s.

(** [formatTime(s)] for a whole number of seconds: [Math.floor(s / 60)] is
    the floored quotient, [s % 60] the remainder with the sign of [s]. *)
Definition formatTime (s : Z) : string :=
  let m := padStart 2 "0" (toString (s / 60)) in
  let sec := padStart 2 "0" (toString (Z.rem s 60)) in
  m +:+ ":" +:+ sec.

(** The character of a decimal digit. *)
Definition digitChar (d : Z) : Ascii.ascii := Ascii.ascii_of_nat (48 + Z.to_nat d).

(** SPATIAL_2D with Movement on at depth 0, a single item: every redraw of
    the target gives the start item again, and the loop gives up after 50
    redraws. *)
Definition depth_zero_example : option (LogicData * Locals * Env) :=
  generateLogic movement_settings ∅ false ["A"] SPATIAL_2D 0
    (mkEnv (replicate 58 draw_low ++ [draw_high]) []).

(** ** [Array.prototype.sort] as engine code (App.tsx, line 96)

    Which arrangement [[...array].sort(() => Math.random() - 0.5)] returns
    depends on the engine's sort algorithm.  An engine is taken here as what
    it does on an array of [n] elements: it calls the comparator on two of
    them (named by their index in the input), goes on according to the sign
    of the number returned, and in the end returns the elements in some
    order.  The insertion sort of [shuffleArray] above is one such engine. *)
Inductive SortRun :=
  | Return (order : list nat)
  | Call (i j : nat) (negative zero positive : SortRun).

(** The run under the comparator [() => Math.random() - 0.5], which ignores
    its arguments and draws once. *)
Fixpoint runSort (t : SortRun) : M (list nat) :=
  match t with
  | Return order => mret order
  | Call _ _ negative zero positive =>
      r ← random;
      if lt_half r then runSort negative
      else if gt_half r then runSort positive
      else runSort zero
  end.

(** [shuffleArray] on an engine. *)
Definition shuffleArrayOn (engine : nat → SortRun) {A} (array : list A)
  : M (list A) :=
  order ← runSort (engine (length array));
  mret (omap (λ i, array !! i) order).






(** The insertion sort of [shuffleArray] as an engine: [insertRun] is
    [sort_insert], [loopRun] is [sort_loop], on indices. *)
Fixpoint insertRun (x : nat) (rev_prefix : list nat) (k : list nat → SortRun)
  : SortRun :=
  match rev_prefix with
  | [] => k [x]
  | y :: ys =>
      Call y x (k (x :: y :: ys)) (k (x :: y :: ys))
        (insertRun x ys (λ zs, k (y :: zs)))
  end.

Fixpoint loopRun (rest : list nat) : list nat → SortRun :=
  match rest with
  | [] => λ rev_prefix, Return (reverse rev_prefix)
  | x :: rest' => λ rev_prefix, insertRun x rev_prefix (loopRun rest')
  end.

Definition insertionEngine (n : nat) : SortRun := loopRun (seq 0 n) [].

(** [generateLogic] (lines 323-571) on an engine: the round is generated as
    in [generateLogic] and the premises are shuffled by the engine's
    sort. *)
Definition generateLogicOn (engine : nat → SortRun)
    (settings : GameSettings) (cipherMap : gmap string string) (isNight : bool)
    (items : list string) (mode : RftMode) (num : nat) : M (LogicData * Locals) :=
  '(newQuestion, newAnswer, modifiers, visualNodes, locals) ←
    generateRound settings cipherMap isNight items mode num;
  shuffled ← shuffleArrayOn engine (newPremises locals);
  keys ← readUsedKeys;
  mret (mkLogic shuffled newQuestion newAnswer modifiers visualNodes keys, locals).


(** * Properties *)

(** ** Sanity checks of the string primitives and of [invertSpatial] *)

Example invertSpatial_north : invertSpatial "NORTH" = "SOUTH".
Proof. vm_compute. reflexivity. Qed.

Example invertSpatial_combined :
  invertSpatial "NORTH and WEST" = "SOUTH and EAST".
Proof. vm_compute. reflexivity. Qed.

Example invertSpatial_unknown : invertSpatial "UP" = "UP".
Proof. vm_compute. reflexivity. Qed.

Example replace_first_only :
  JsString.replace "is " EmptyString "is GREATER than is" = "GREATER than is".
Proof. vm_compute. reflexivity. Qed.

Example split_example :
  JsString.split " and " "ABOVE and NORTH and EAST" = ["ABOVE"; "NORTH"; "EAST"].
Proof. vm_compute. reflexivity. Qed.

Example cleanRel_linear : cleanRelOf "is GREATER than" = "GREATER".
Proof. vm_compute. reflexivity. Qed.

(** ** [invertSpatial] is an involution on the relations it handles *)

Section InvertSpatial.

Import JsString.

(** Case split on membership in a literal list. *)
Ltac word_cases H :=
  repeat (apply elem_of_cons in H as [-> | H]); [.. | by apply elem_of_nil in H].

Lemma invert_part_word (w : string) :
  w ∈ spatial_words → invert_part w ∈ spatial_words.
Proof.
  intros H. word_cases H;
    apply (bool_decide_unpack _); vm_compute; exact I.
Qed.

Lemma invert_part_involutive (w : string) :
  w ∈ spatial_words → invert_part (invert_part w) = w.
Proof. intros H. word_cases H; vm_compute; reflexivity. Qed.

Lemma word_has_no_and (w : string) :
  w ∈ spatial_words → includes " and " w = false.
Proof. intros H. word_cases H; vm_compute; reflexivity. Qed.

Lemma split_single_word (w : string) :
  w ∈ spatial_words → split " and " w = [w].
Proof. intros H. word_cases H; vm_compute; reflexivity. Qed.

Lemma includes_word_and (w rest : string) :
  w ∈ spatial_words → includes " and " (w +:+ " and " +:+ rest) = true.
Proof. intros H. word_cases H; reflexivity. Qed.

Lemma split_word_and (w rest : string) :
  w ∈ spatial_words →
  split " and " (w +:+ " and " +:+ rest) = w :: split " and " rest.
Proof. intros H. word_cases H; reflexivity. Qed.

Lemma split_join_words (parts : list string) :
  parts ≠ [] → Forall (λ p, p ∈ spatial_words) parts →
  split " and " (join " and " parts) = parts.
Proof.
  intros Hne Hall. induction Hall as [| p rest Hp Hrest IH]; [done |].
  destruct rest as [| q rest].
  - by apply split_single_word.
  - change (join " and " (p :: q :: rest))
      with (p +:+ " and " +:+ join " and " (q :: rest)).
    rewrite split_word_and by done. f_equal. by apply IH.
Qed.

Lemma invertSpatial_join (parts : list string) :
  parts ≠ [] → Forall (λ p, p ∈ spatial_words) parts →
  invertSpatial (join " and " parts) = join " and " (map invert_part parts).
Proof.
  intros Hne Hall. unfold invertSpatial.
  destruct parts as [| p [| q rest]]; [done | |].
  - simpl. rewrite word_has_no_and; [done |]. by inversion Hall.
  - change (join " and " (p :: q :: rest))
      with (p +:+ " and " +:+ join " and " (q :: rest)).
    rewrite includes_word_and by (by inversion Hall).
    change (p +:+ " and " +:+ join " and " (q :: rest))
      with (join " and " (p :: q :: rest)).
    by rewrite split_join_words.
Qed.

End InvertSpatial.

(** C8. [invertSpatial] applied twice gives back the relation it started
    from, for every relation built from the words it has an entry for: a
    single direction (NORTH, SOUTH, EAST, WEST, ABOVE, BELOW, LEFT, RIGHT,
    FRONT, BEHIND), SAME LOCATION, and any combination of them joined with
    " and ". *)
Theorem invertSpatial_involutive (parts : list string) :
  parts ≠ [] → Forall (λ p, p ∈ spatial_words) parts →
  invertSpatial (invertSpatial (JsString.join " and " parts))
  = JsString.join " and " parts.
Proof.
  intros Hne Hall.
  rewrite invertSpatial_join by done.
  rewrite invertSpatial_join.
  - f_equal. rewrite map_map. rewrite <- (map_id parts) at 2.
    apply map_ext_Forall. eapply Forall_impl; [exact Hall |].
    intros w Hw. by apply invert_part_involutive.
  - by destruct parts.
  - apply Forall_map. eapply Forall_impl; [exact Hall |].
    intros w Hw. by apply invert_part_word.
Qed.

Lemma invertSpatial_involutive_witness :
  invertSpatial (invertSpatial "ABOVE and NORTH and WEST") = "ABOVE and NORTH and WEST".
Proof.
  apply (invertSpatial_involutive ["ABOVE"; "NORTH"; "WEST"]); [done |].
  repeat constructor; apply (bool_decide_unpack _); vm_compute; exact I.
Defined.

(** ** The two rotations into the local frame *)

(** DEICTIC follows the table N: (dx, dy), E: (-dy, dx), S: (-dx, -dy),
    W: (dy, -dx). *)
Lemma deicticLocal_table (dx dy : Z) :
  deicticLocal 0 dx dy = (dx, dy) ∧ deicticLocal 1 dx dy = (- dy, dx)
  ∧ deicticLocal 2 dx dy = (- dx, - dy) ∧ deicticLocal 3 dx dy = (dy, - dx).
Proof. done. Qed.

(** DEICTIC sees the cell one step ahead of the observer in FRONT, for each
    of the four facings. *)
Lemma deictic_forward_is_front (h : nat) :
  (h < 4)%nat →
  classifyLocal (deicticLocal h (forwardOf h).1 (forwardOf h).2).1
                (deicticLocal h (forwardOf h).1 (forwardOf h).2).2 = "FRONT".
Proof.
  intros Hh. destruct h as [| [| [| [| h]]]]; [done .. | lia].
Qed.

(** C1. The rotation of MOVEMENT agrees with the rotation of DEICTIC for the
    headings NORTH (0) and SOUTH (2) only.  For EAST (1) and WEST (3) it
    yields the opposite local vector: with heading EAST and the target one
    step to the east, (dx, dy) = (1, 0), DEICTIC rotates to (0, 1) and
    classifies FRONT, MOVEMENT rotates to (0, -1) and classifies BEHIND.
    In the round [movement_example] item B lies east of item A; the walker
    starts at A facing EAST, turns left and right again, so it faces EAST
    with B straight ahead; the round asks whether B is BEHIND and stores
    YES. *)
Theorem movement_rotation_differs_from_deictic :
  (deicticLocal 1 1 0 = (0, 1) ∧ classifyLocal 0 1 = "FRONT")
  ∧ (movementLocal 1 1 0 = (0, -1) ∧ classifyLocal 0 (-1) = "BEHIND")
  ∧ (∀ dx dy : Z,
       movementLocal 0 dx dy = deicticLocal 0 dx dy
       ∧ movementLocal 2 dx dy = deicticLocal 2 dx dy
       ∧ movementLocal 1 dx dy
         = (- (deicticLocal 1 dx dy).1, - (deicticLocal 1 dx dy).2)
       ∧ movementLocal 3 dx dy
         = (- (deicticLocal 3 dx dy).1, - (deicticLocal 3 dx dy).2))
  ∧ (λ x, (premises x.1.1, question x.1.1, answer x.1.1, trace x.1.2))
      <$> movement_example
    = Some (["B EAST A"; "C EAST B"],
            "START A. FACE EAST. TURN LEFT. TURN RIGHT. <br/><br/> Is B to your BEHIND?",
            true,
            MovementTrace 1 1 0 0 (-1) "BEHIND" "BEHIND" "BEHIND").
Proof.
  split; [done |]. split; [done |]. split; [| vm_compute; reflexivity].
  intros dx dy. repeat split; simpl; f_equal; lia.
Qed.

(** ** The adaptive-difficulty loop *)

Section Adaptive.

Implicit Types (σ : Session) (r : Round) (h : list Outcome).

Lemma armRound_settings night expected σ :
  settings (armRound night expected σ) = settings σ.
Proof. done. Qed.

Lemma playRound_correct_eq r σ :
  isCorrect (round_answer r) (armRound (round_night r) (round_expected r) σ)
  = roundCorrect r.
Proof. done. Qed.





End Adaptive.



(** ** Reasoning about generator runs *)

Section Wp.

Context {A B : Type}.
Implicit Types (m : M A) (k : A → M B) (e : Env).

Lemma bind_Some m k e b e' :
  (m ≫= k) e = Some (b, e') ↔ ∃ a e1, m e = Some (a, e1) ∧ k a e1 = Some (b, e').
Proof.
  unfold mbind, M_bind. split.
  - destruct (m e) as [[a e1] |]; [eauto | done].
  - intros (a & e1 & -> & Hk). done.
Qed.

Lemma bind_unfold m k e :
  (m ≫= k) e = match m e with Some (a, e') => k a e' | None => None end.
Proof. done. Qed.

Lemma wp_bind m k e (Φ : B → Env → Prop) :
  wp m e (λ a e1, wp (k a) e1 Φ) → wp (m ≫= k) e Φ.
Proof.
  intros Hm b e' (a & e1 & Ha & Hk)%bind_Some. by eapply Hm.
Qed.

Lemma wp_ret (a : A) e (Φ : A → Env → Prop) : Φ a e → wp (mret a) e Φ.
Proof. intros H a' e' [= <- <-]. done. Qed.

Lemma wp_mono m e (Φ Ψ : A → Env → Prop) :
  wp m e Φ → (∀ a e', Φ a e' → Ψ a e') → wp m e Ψ.
Proof. intros Hm Himp a e' Ha. eauto. Qed.

Lemma wp_any m e (Φ : A → Env → Prop) : (∀ a e', Φ a e') → wp m e Φ.
Proof. intros H a e' _. done. Qed.

End Wp.

Lemma draw_in_range (r : Draw) : (0 <= draw_val r)%Q ∧ (draw_val r < 1)%Q.
Proof.
  destruct r as [q Hq]. simpl. unfold in_unit_interval in Hq.
  apply andb_prop_elim in Hq as [H0 H1].
  apply Is_true_true, Qle_bool_iff in H0.
  apply negb_prop_elim in H1. split; [done |].
  apply Qnot_le_lt. intros Hle. apply H1, Is_true_true, Qle_bool_iff, Hle.
Qed.

Lemma floor_mul_lt (r : Draw) (n : nat) :
  (0 < n)%nat → (floor_mul (draw_val r) n < n)%nat.
Proof.
  intros Hn. destruct (draw_in_range r) as [H0 H1]. unfold floor_mul.
  set (c := inject_Z (Z.of_nat n)).
  assert (Hc : (0 < c)%Q).
  { unfold c. change 0%Q with (inject_Z 0). rewrite <- Zlt_Qlt. lia. }
  assert (Hlo : (0 <= draw_val r * c)%Q).
  { apply Qmult_le_0_compat; [done |]. by apply Qlt_le_weak. }
  assert (Hhi : (draw_val r * c < c)%Q).
  { apply Qlt_le_trans with (1 * c)%Q; [by apply Qmult_lt_compat_r |].
    rewrite Qmult_1_l. apply Qle_refl. }
  assert (Hf0 : 0 ≤ Qfloor (draw_val r * c)).
  { change 0 with (Qfloor 0). by apply Qfloor_resp_le. }
  assert (Hf1 : Qfloor (draw_val r * c) < Z.of_nat n).
  { rewrite Zlt_Qlt. eapply Qle_lt_trans; [apply Qfloor_le | exact Hhi]. }
  lia.
Qed.

Lemma wp_random e (Φ : Q → Env → Prop) :
  (∀ r ds, draws e = r :: ds → Φ (draw_val r) (mkEnv ds (usedKeys e))) →
  wp random e Φ.
Proof.
  intros H q e'. unfold random.
  destruct (draws e) as [| r ds] eqn:Hd; [done |].
  intros [= <- <-]. by apply H.
Qed.

Lemma wp_randomIndex (n : nat) e (Φ : nat → Env → Prop) :
  (∀ i e', ((0 < n)%nat → (i < n)%nat) → Φ i e') → wp (randomIndex n) e Φ.
Proof.
  intros H. unfold randomIndex. apply wp_bind, wp_random. intros r ds _.
  apply wp_ret, H. apply floor_mul_lt.
Qed.

Lemma redraw_until_stop {A} (stop : A → bool) (next : Q → A) cur ds a ds' :
  redraw_until stop next cur ds = Some (a, ds') → stop a = true.
Proof.
  revert cur. induction ds as [| r ds IH]; intros cur; simpl.
  - destruct (stop cur) eqn:Hs; [| done]. by intros [= <- <-].
  - destruct (stop cur) eqn:Hs; [by intros [= <- <-] |]. apply IH.
Qed.

(** Whatever invariant holds of the first candidate and of every redrawn
    one holds of the value the loop leaves with, which also passes [stop]. *)
Lemma redraw_until_inv {A} (P : A → Prop) (stop : A → bool) (next : Q → A)
    cur ds a ds' :
  P cur → (∀ r : Draw, P (next (draw_val r))) →
  redraw_until stop next cur ds = Some (a, ds') → P a.
Proof.
  intros Hcur Hnext. revert cur Hcur.
  induction ds as [| r ds IH]; intros cur Hcur; simpl.
  - destruct (stop cur); [| done]. by intros [= <- <-].
  - destruct (stop cur); [by intros [= <- <-] |]. by apply IH.
Qed.

Lemma wp_redrawUntil {A} (P : A → Prop) (stop : A → bool) (next : Q → A)
    cur e (Φ : A → Env → Prop) :
  P cur → (∀ r : Draw, P (next (draw_val r))) →
  (∀ a e', stop a = true → P a → Φ a e') →
  wp (redrawUntil stop next cur) e Φ.
Proof.
  intros Hcur Hnext H a e'. unfold redrawUntil.
  destruct (redraw_until stop next cur (draws e)) as [[a0 ds] |] eqn:Hr; [| done].
  intros [= <- <-]. apply H.
  - by eapply redraw_until_stop.
  - by eapply redraw_until_inv.
Qed.

Lemma wp_getDistinctRandomIndices (count : nat) e (Φ : nat * nat → Env → Prop) :
  (∀ a b e', a ≠ b → ((0 < count)%nat → (a < count)%nat ∧ (b < count)%nat) →
             Φ (a, b) e') →
  wp (getDistinctRandomIndices count) e Φ.
Proof.
  intros H. unfold getDistinctRandomIndices.
  apply wp_bind, wp_randomIndex. intros a e1 Ha.
  apply wp_bind, wp_randomIndex. intros b e2 Hb.
  apply wp_bind.
  apply (wp_redrawUntil (λ b, (0 < count)%nat → (b < count)%nat)); [done | |].
  - intros r. apply floor_mul_lt.
  - intros b' e3 Hstop Hb'. apply wp_ret, H; [| auto].
    apply negb_true_iff, Nat.eqb_neq in Hstop. done.
Qed.

(** ** [shuffleArray] returns a permutation, and can return any of them *)

Section Shuffle.

Context {A : Type}.
Implicit Types (x : A) (p rest l t : list A).

Lemma wp_sort_insert x p e (Φ : list A → Env → Prop) :
  (∀ p' e', p' ≡ₚ x :: p → Φ p' e') → wp (sort_insert x p) e Φ.
Proof.
  revert e Φ. induction p as [| y ys IH]; intros e Φ H; simpl.
  - by apply wp_ret, H.
  - apply wp_bind, wp_random. intros r ds _.
    destruct (comparator_positive (draw_val r)).
    + apply wp_bind, IH. intros zs e1 Hzs. apply wp_ret, H.
      rewrite Hzs. apply Permutation_swap.
    + by apply wp_ret, H.
Qed.

Lemma wp_sort_loop p rest e (Φ : list A → Env → Prop) :
  (∀ p' e', p' ≡ₚ p ++ rest → Φ p' e') → wp (sort_loop p rest) e Φ.
Proof.
  revert p e Φ. induction rest as [| x rest IH]; intros p e Φ H; simpl.
  - apply wp_ret, H. by rewrite app_nil_r.
  - apply wp_bind, wp_sort_insert. intros p' e1 Hp'.
    apply IH. intros p'' e2 Hp''. apply H.
    rewrite Hp'', Hp'. simpl. by rewrite Permutation_middle.
Qed.

Lemma wp_shuffleArray l e (Φ : list A → Env → Prop) :
  (∀ l' e', l' ≡ₚ l → Φ l' e') → wp (shuffleArray l) e Φ.
Proof.
  intros H. unfold shuffleArray. apply wp_bind, wp_sort_loop.
  intros p e1 Hp. apply wp_ret, H. by rewrite reverse_Permutation, Hp.
Qed.

Lemma sort_loop_snoc p l x e :
  sort_loop p (l ++ [x]) e
  = match sort_loop p l e with
    | Some (p', e1) => sort_insert x p' e1
    | None => None
    end.
Proof.
  revert p e. induction l as [| y l IH]; intros p e; simpl.
  - unfold mbind, M_bind. by destruct (sort_insert x p e) as [[p' e1] |].
  - unfold mbind, M_bind. destruct (sort_insert y p e) as [[p' e1] |]; [| done].
    apply IH.
Qed.

(** With a draw left for every comparison, the sort returns. *)
Lemma sort_insert_returns x p e :
  (length p ≤ length (draws e))%nat →
  ∃ p' e', sort_insert x p e = Some (p', e')
           ∧ length p' = S (length p)
           ∧ (length (draws e) ≤ length (draws e') + length p)%nat.
Proof.
  revert e. induction p as [| y ys IH]; intros [ds ks] Hlen; simpl in *.
  - exists [x], (mkEnv ds ks). simpl. repeat split; lia.
  - destruct ds as [| r ds]; simpl in Hlen; [lia |].
    rewrite bind_unfold. unfold random at 1. simpl.
    destruct (comparator_positive (draw_val r)).
    + destruct (IH (mkEnv ds ks)) as (zs & e' & Hz & Hzlen & Hd); [simpl; lia |].
      rewrite bind_unfold, Hz. exists (y :: zs), e'. simpl in *.
      repeat split; lia.
    + exists (x :: y :: ys), (mkEnv ds ks). simpl. repeat split; lia.
Qed.

Lemma sort_loop_returns p rest e :
  ((length p + length rest) * length rest ≤ length (draws e))%nat →
  ∃ p' e', sort_loop p rest e = Some (p', e').
Proof.
  revert p e. induction rest as [| x rest IH]; intros p e Hlen; simpl in *.
  - by exists p, e.
  - destruct (sort_insert_returns x p e) as (p1 & e1 & Hins & Hp1 & Hd); [nia |].
    rewrite bind_unfold, Hins. apply IH. rewrite Hp1. nia.
Qed.

Lemma shuffleArray_returns l e :
  (length l * length l ≤ length (draws e))%nat → is_Some (shuffleArray l e).
Proof.
  intros Hlen. unfold shuffleArray. rewrite bind_unfold.
  destruct (sort_loop_returns [] l e) as (p & e' & ->); [simpl; lia |].
  by eexists.
Qed.

End Shuffle.

Section ShuffleReach.

Context {A : Type}.
Implicit Types (x : A) (p rest l t : list A).

(** Inserting [x] can leave it after any number of elements of the
    prefix: one draw above one half per element passed, then one below. *)
Lemma sort_insert_reach x (passed kept : list A) ks :
  ∃ ds, ∀ extra,
    sort_insert x (passed ++ kept) (mkEnv (ds ++ extra) ks)
    = Some (passed ++ x :: kept, mkEnv extra ks).
Proof.
  induction passed as [| z passed [ds IH]]; simpl.
  - destruct kept as [| y ys].
    + by exists [].
    + by exists [draw_low].
  - exists (draw_high :: ds). intros extra. simpl.
    unfold mbind, M_bind at 1. simpl.
    unfold mbind, M_bind. by rewrite IH.
Qed.

Lemma sort_loop_reach l t ks :
  t ≡ₚ l →
  ∃ ds, ∀ extra,
    sort_loop [] l (mkEnv (ds ++ extra) ks) = Some (reverse t, mkEnv extra ks).
Proof.
  revert t. induction l as [| x l IH] using rev_ind; intros t Ht.
  - apply Permutation_nil_r in Ht as ->. by exists [].
  - assert (Hx : x ∈ t) by (rewrite Ht; set_solver).
    apply list_elem_of_split in Hx as (t1 & t2 & ->).
    assert (Ht' : t1 ++ t2 ≡ₚ l).
    { apply (Permutation_cons_inv (a := x)).
      by rewrite Permutation_middle, Ht, Permutation_app_comm. }
    destruct (IH _ Ht') as [ds0 Hds0].
    destruct (sort_insert_reach x (reverse t2) (reverse t1) ks) as [ds1 Hds1].
    exists (ds0 ++ ds1). intros extra.
    rewrite sort_loop_snoc, <- (assoc_L (++)), Hds0, reverse_app, Hds1.
    by rewrite reverse_app, reverse_cons, <- (assoc_L (++)).
Qed.

(** Every arrangement of the array is returned for some draws. *)
Lemma shuffleArray_reach l t ks :
  t ≡ₚ l → ∃ ds, shuffleArray l (mkEnv ds ks) = Some (t, mkEnv [] ks).
Proof.
  intros Ht. destruct (sort_loop_reach l t ks Ht) as [ds Hds].
  exists ds. unfold shuffleArray, mbind, M_bind.
  specialize (Hds []). rewrite app_nil_r in Hds. rewrite Hds. simpl.
  by rewrite reverse_involutive.
Qed.

End ShuffleReach.

(** ** What each branch of [generateLogic] establishes *)

Lemma wp_forPush_seq {B} (body : nat → M B) (P : nat → B → Prop) s n e
    (Φ : list B → Env → Prop) :
  (∀ i e1, wp (body i) e1 (λ b _, P i b)) →
  (∀ bs e', length bs = n → (∀ i b, bs !! i = Some b → P (s + i)%nat b) → Φ bs e') →
  wp (forPush body (seq s n)) e Φ.
Proof.
  intros Hbody. revert s e Φ. induction n as [| n IH]; intros s e Φ H; simpl.
  - apply wp_ret, H; [done |]. intros i b. by rewrite lookup_nil.
  - apply wp_bind. eapply wp_mono; [apply Hbody |]. intros b e1 Hb. simpl.
    apply wp_bind, IH. intros bs e2 Hlen Hbs. apply wp_ret, H; [simpl; lia |].
    intros [| i] b'; simpl.
    + intros [= <-]. by rewrite Nat.add_0_r.
    + intros Hi. replace (s + S i)%nat with (S s + i)%nat by lia. by apply Hbs.
Qed.

Section RoundSpecs.

Variable st : GameSettings.
Variable cm : gmap string string.
Variable night : bool.
Variable items : list string.

Abbreviation item := (item items).
Abbreviation premiseText := (premiseText st cm).
Abbreviation in_link_order := (in_link_order st cm items).

Lemma wp_createPremise a rawRel b e (Φ : string → Env → Prop) :
  (∀ e', Φ (premiseText a rawRel b) e') →
  wp (createPremise st cm a rawRel b) e Φ.
Proof.
  unfold createPremise, premiseText.
  destruct (enableCipher st && JsString.truthy (cm !! cleanRelOf rawRel));
    intros H.
  - apply wp_bind, wp_any. intros _ e1. apply wp_ret, H.
  - apply wp_ret, H.
Qed.

(** *** LINEAR *)

Lemma wp_linearRound num e (Φ : string * bool * Locals → Env → Prop) :
  (∀ q loc e' rels idxA idxB qType,
      trace loc = LinearTrace rels idxA idxB qType →
      idxA ≠ idxB → (idxA < num + 1)%nat → (idxB < num + 1)%nat →
      qType = "GREATER" ∨ qType = "LESS" →
      length rels = num → length (newPremises loc) = num →
      in_link_order false (newPremises loc) →
      Φ (q,
         nightFlip night
           (if String.eqb qType "GREATER" then (idxA <? idxB)%nat
            else (idxB <? idxA)%nat),
         loc) e') →
  wp (linearRound st cm night items num) e Φ.
Proof.
  intros H. unfold linearRound.
  apply wp_bind.
  apply (wp_forPush_seq _
           (λ i (l : string * string),
              l.2 = premiseText (item i) ("is " +:+ l.1 +:+ " than") (item (i + 1)))).
  { intros i e1. unfold linearLink. apply wp_bind, wp_any. intros r e2.
    apply wp_bind, wp_createPremise. intros e3. by apply wp_ret. }
  intros links e1 Hlen Hlinks.
  apply wp_bind, wp_getDistinctRandomIndices. intros idxA idxB e2 Hne Hrange.
  destruct Hrange as [HA HB]; [lia |].
  apply wp_bind, wp_any. intros r e3.
  apply wp_bind, wp_any. intros qText e4.
  apply wp_ret.
  eapply H; simpl; try done.
  - destruct (gt_half r); auto.
  - by rewrite length_fmap.
  - by rewrite length_fmap.
  - intros i p Hp. apply list_lookup_fmap_Some in Hp as ([rel p'] & -> & Hl).
    apply Hlinks in Hl. simpl in Hl. eauto.
Qed.

(** *** HIERARCHY *)

Lemma wp_hierarchyRound num e (Φ : string * bool * Locals → Env → Prop) :
  (∀ q loc e' idxA idxB asked,
      trace loc = HierarchyTrace idxA idxB asked →
      idxA ≠ idxB → (idxA < num + 1)%nat → (idxB < num + 1)%nat →
      asked = "INSIDE" ∨ asked = "CONTAINS" →
      length (newPremises loc) = num →
      (∀ i p, newPremises loc !! i = Some p →
              p = premiseText (item i) "CONTAINS" (item (i + 1))) →
      Φ (q,
         nightFlip night
           (if String.eqb asked "INSIDE" then (idxB <? idxA)%nat
            else (idxA <? idxB)%nat),
         loc) e') →
  wp (hierarchyRound st cm night items num) e Φ.
Proof.
  intros H. unfold hierarchyRound.
  apply wp_bind.
  apply (wp_forPush_seq _
           (λ i p, p = premiseText (item i) "CONTAINS" (item (i + 1)))).
  { intros i e1. apply wp_createPremise. done. }
  intros prems e1 Hlen Hprems.
  apply wp_bind, wp_getDistinctRandomIndices. intros idxA idxB e2 Hne Hrange.
  destruct Hrange as [HA HB]; [lia |].
  apply wp_bind, wp_any. intros r e3.
  destruct (gt_half r); apply wp_bind, wp_any; intros t e4; apply wp_ret.
  - apply (H _ _ _ idxA idxB "INSIDE"); simpl; auto.
  - apply (H _ _ _ idxA idxB "CONTAINS"); simpl; auto.
Qed.

End RoundSpecs.

(** ** The returned object in terms of the branch that ran *)

Lemma generateLogic_inv st cm night items mode num e r loc e' :
  generateLogic st cm night items mode num e = Some ((r, loc), e') →
  ∃ e1,
    generateRound st cm night items mode num e
    = Some ((question r, answer r, modifiers r, visualMap r, loc), e1)
    ∧ shuffleArray (newPremises loc) e1 = Some (premises r, e')
    ∧ premises r ≡ₚ newPremises loc
    ∧ usedCipherKeys r = usedKeys e'.
Proof.
  unfold generateLogic. intros H.
  apply bind_Some in H as ([[[[q a] mods] nodes] loc'] & e1 & Hround & H).
  apply bind_Some in H as (shuffled & e2 & Hsh & H).
  apply bind_Some in H as (keys & e3 & Hkeys & H).
  injection Hkeys as <- <-. injection H as <- <- <-. simpl.
  exists e1. repeat split; try done.
  by eapply (wp_shuffleArray _ _ (λ l' _, l' ≡ₚ _)); [| exact Hsh].
Qed.

Section RoundFacts.

Variable st : GameSettings.
Variable cm : gmap string string.
Variable night : bool.
Variable items : list string.

Lemma linearRound_Some num e q a loc e' :
  linearRound st cm night items num e = Some ((q, a, loc), e') →
  ∃ rels idxA idxB qType,
    trace loc = LinearTrace rels idxA idxB qType
    ∧ idxA ≠ idxB ∧ (idxA < num + 1)%nat ∧ (idxB < num + 1)%nat
    ∧ (qType = "GREATER" ∨ qType = "LESS")
    ∧ length rels = num ∧ length (newPremises loc) = num
    ∧ in_link_order st cm items false (newPremises loc)
    ∧ a = nightFlip night
            (if String.eqb qType "GREATER" then (idxA <? idxB)%nat
             else (idxB <? idxA)%nat).
Proof.
  revert q a loc e'.
  cut (wp (linearRound st cm night items num) e
         (λ x _, ∃ rels idxA idxB qType,
             trace x.2 = LinearTrace rels idxA idxB qType
             ∧ idxA ≠ idxB ∧ (idxA < num + 1)%nat ∧ (idxB < num + 1)%nat
             ∧ (qType = "GREATER" ∨ qType = "LESS")
             ∧ length rels = num ∧ length (newPremises x.2) = num
             ∧ in_link_order st cm items false (newPremises x.2)
             ∧ x.1.2 = nightFlip night
                         (if String.eqb qType "GREATER" then (idxA <? idxB)%nat
                          else (idxB <? idxA)%nat))).
  { intros Hwp q a loc e' H. exact (Hwp _ _ H). }
  apply wp_linearRound. intros. simpl. eauto 15.
Qed.

Lemma hierarchyRound_Some num e q a loc e' :
  hierarchyRound st cm night items num e = Some ((q, a, loc), e') →
  ∃ idxA idxB asked,
    trace loc = HierarchyTrace idxA idxB asked
    ∧ idxA ≠ idxB ∧ (idxA < num + 1)%nat ∧ (idxB < num + 1)%nat
    ∧ (asked = "INSIDE" ∨ asked = "CONTAINS")
    ∧ length (newPremises loc) = num
    ∧ (∀ i p, newPremises loc !! i = Some p →
              p = premiseText st cm (item items i) "CONTAINS" (item items (i + 1)))
    ∧ a = nightFlip night
            (if String.eqb asked "INSIDE" then (idxB <? idxA)%nat
             else (idxA <? idxB)%nat).
Proof.
  revert q a loc e'.
  cut (wp (hierarchyRound st cm night items num) e
         (λ x _, ∃ idxA idxB asked,
             trace x.2 = HierarchyTrace idxA idxB asked
             ∧ idxA ≠ idxB ∧ (idxA < num + 1)%nat ∧ (idxB < num + 1)%nat
             ∧ (asked = "INSIDE" ∨ asked = "CONTAINS")
             ∧ length (newPremises x.2) = num
             ∧ (∀ i p, newPremises x.2 !! i = Some p →
                       p = premiseText st cm (item items i) "CONTAINS"
                             (item items (i + 1)))
             ∧ x.1.2 = nightFlip night
                         (if String.eqb asked "INSIDE" then (idxB <? idxA)%nat
                          else (idxA <? idxB)%nat))).
  { intros Hwp q a loc e' H. exact (Hwp _ _ H). }
  apply wp_hierarchyRound. intros. simpl. eauto 15.
Qed.

End RoundFacts.

(** C2 (as the code has it). In a LINEAR round without night-mode
    inversion the stored answer is computed from the index order of the two
    sampled, distinct items alone: a GREATER query about the items at
    [idxA], [idxB] is true iff [idxA < idxB] and a LESS query iff
    [idxA > idxB] (the earlier index is the greater item); the labels [rels]
    drawn for the links do not enter. *)
Theorem linear_answer_from_index_order
    st cm items num e (r : LogicData) (loc : Locals) e' :
  generateLogic st cm false items LINEAR num e = Some ((r, loc), e') →
  ∃ rels idxA idxB qType,
    trace loc = LinearTrace rels idxA idxB qType
    ∧ length rels = num
    ∧ idxA ≠ idxB ∧ (idxA < num + 1)%nat ∧ (idxB < num + 1)%nat
    ∧ (qType = "GREATER" ∧ answer r = (idxA <? idxB)%nat
       ∨ qType = "LESS" ∧ answer r = (idxB <? idxA)%nat).
Proof.
  intros H. apply generateLogic_inv in H as (e1 & Hround & _).
  simpl in Hround. apply bind_Some in Hround as ([[q a] l] & e2 & Hlin & Hret).
  injection Hret as -> -> _ _ -> _.
  apply linearRound_Some in Hlin
    as (rels & idxA & idxB & qType & Htr & Hne & HA & HB & Hq & Hlen & _ & _ & Ha).
  exists rels, idxA, idxB, qType. repeat split; try done.
  rewrite Ha. destruct Hq as [-> | ->]; auto.
Qed.

(** C5. In a HIERARCHY round without night-mode inversion, premise [i] is
    the one [createPremise] renders for "item i CONTAINS item i+1", for every
    link [i] and with no draw involved; an INSIDE query about [idxA], [idxB]
    stores [idxA > idxB] and a CONTAINS query stores [idxA < idxB]. *)
Theorem hierarchy_chain_and_answer
    st cm items num e (r : LogicData) (loc : Locals) e' :
  generateLogic st cm false items HIERARCHY num e = Some ((r, loc), e') →
  length (newPremises loc) = num
  ∧ (∀ i, (i < num)%nat →
          newPremises loc !! i
          = Some (premiseText st cm (item items i) "CONTAINS" (item items (i + 1))))
  ∧ premises r ≡ₚ newPremises loc
  ∧ ∃ idxA idxB asked,
      trace loc = HierarchyTrace idxA idxB asked
      ∧ idxA ≠ idxB
      ∧ (asked = "INSIDE" ∧ answer r = (idxB <? idxA)%nat
         ∨ asked = "CONTAINS" ∧ answer r = (idxA <? idxB)%nat).
Proof.
  intros H. apply generateLogic_inv in H as (e1 & Hround & _ & Hperm & _).
  simpl in Hround. apply bind_Some in Hround as ([[q a] l] & e2 & Hh & Hret).
  injection Hret as -> -> _ _ -> _.
  apply hierarchyRound_Some in Hh
    as (idxA & idxB & asked & Htr & Hne & HA & HB & Hq & Hlen & Hprems & Ha).
  split; [exact Hlen |]. split; [| split; [exact Hperm |]].
  - intros i Hi. destruct (lookup_lt_is_Some_2 (newPremises loc) i) as [p Hp];
      [lia |]. rewrite Hp. f_equal. by apply Hprems.
  - exists idxA, idxB, asked. repeat split; try done.
    rewrite Ha. destruct Hq as [-> | ->]; auto.
Qed.

(** ** DISTINCTION: the value chain *)

Section Distinction.

Variable st : GameSettings.
Variable cm : gmap string string.
Variable night : bool.
Variable items : list string.

Lemma wp_distinctionLoop s n values e
    (Φ : list Z * list (string * string) → Env → Prop) :
  length values = S s → Forall bit values →
  (∀ vs links e',
      length vs = S (s + n) → Forall bit vs →
      (∀ i, (i ≤ s)%nat → vs !! i = values !! i) →
      length links = n →
      (∀ i link, links !! i = Some link → link_ok st cm items vs (s + i) link) →
      Φ (vs, links) e') →
  wp (distinctionLoop st cm items (seq s n) values) e Φ.
Proof.
  revert s values e Φ.
  induction n as [| n IH]; intros s values e Φ Hlen Hbit H; simpl.
  - apply wp_ret, H;
      [by rewrite Nat.add_0_r | done | done | done
      | intros i link; by rewrite lookup_nil].
  - apply wp_bind, wp_any. intros r e1.
    destruct (lookup_lt_is_Some_2 values s) as [v Hv]; [lia |].
    rewrite (list_lookup_total_correct values s v Hv).
    assert (Hvbit : bit v).
    { eapply Forall_forall in Hbit; [exact Hbit |].
      by eapply list_elem_of_lookup_2. }
    set (new := if gt_half r then v else 1 - v).
    set (rel := if gt_half r then "SAME" else "DIFFERENT").
    apply wp_bind, wp_createPremise. intros e2.
    apply wp_bind, IH.
    { rewrite length_app. simpl. lia. }
    { apply Forall_app. split; [done |]. apply Forall_singleton.
      unfold new, bit in *. destruct (gt_half r); lia. }
    intros vs links e3 Hlen' Hbit' Hpre Hllen Hlinks. simpl.
    assert (Hvs_s : vs !! s = Some v).
    { rewrite Hpre by lia. rewrite lookup_app_l by lia. done. }
    assert (Hvs_new : vs !! S s = Some new).
    { rewrite Hpre by lia. rewrite lookup_app_r by lia.
      by replace (S s - length values)%nat with 0%nat by lia. }
    apply wp_ret, H.
    + lia.
    + done.
    + intros i Hi. rewrite Hpre by lia. apply lookup_app_l. lia.
    + simpl. lia.
    + intros [| i] link; simpl.
      * intros [= <-]. rewrite Nat.add_0_r. unfold link_ok. simpl.
        split; [unfold rel; destruct (gt_half r); auto |].
        split; [done |].
        exists v. split; [done |]. rewrite Hvs_new. unfold new, rel.
        by destruct (gt_half r).
      * intros Hl. replace (s + S i)%nat with (S s + i)%nat by lia.
        by apply Hlinks.
Qed.

Lemma distinctionRound_Some num e q a loc e' :
  distinctionRound st cm night items num e = Some ((q, a, loc), e') →
  ∃ values rels idxA idxB qType,
    trace loc = DistinctionTrace values rels idxA idxB qType
    ∧ length values = (num + 1)%nat ∧ Forall bit values
    ∧ length rels = num ∧ length (newPremises loc) = num
    ∧ (∀ i rel, rels !! i = Some rel →
         ∃ p, newPremises loc !! i = Some p ∧ link_ok st cm items values i (rel, p))
    ∧ idxA ≠ idxB ∧ (idxA < num + 1)%nat ∧ (idxB < num + 1)%nat
    ∧ (qType = "SAME" ∨ qType = "DIFFERENT")
    ∧ a = nightFlip night
            (if String.eqb qType "SAME"
             then strictEq (values !! idxA) (values !! idxB)
             else negb (strictEq (values !! idxA) (values !! idxB))).
Proof.
  revert q a loc e'.
  cut (wp (distinctionRound st cm night items num) e
         (λ x _, ∃ values rels idxA idxB qType,
             trace x.2 = DistinctionTrace values rels idxA idxB qType
             ∧ length values = (num + 1)%nat ∧ Forall bit values
             ∧ length rels = num ∧ length (newPremises x.2) = num
             ∧ (∀ i rel, rels !! i = Some rel →
                  ∃ p, newPremises x.2 !! i = Some p ∧ link_ok st cm items values i (rel, p))
             ∧ idxA ≠ idxB ∧ (idxA < num + 1)%nat ∧ (idxB < num + 1)%nat
             ∧ (qType = "SAME" ∨ qType = "DIFFERENT")
             ∧ x.1.2 = nightFlip night
                         (if String.eqb qType "SAME"
                          then strictEq (values !! idxA) (values !! idxB)
                          else negb (strictEq (values !! idxA) (values !! idxB))))).
  { intros Hwp q a loc e' H. exact (Hwp _ _ H). }
  unfold distinctionRound.
  apply wp_bind, wp_any. intros r0 e1.
  apply wp_bind, wp_distinctionLoop; [done | |].
  { apply Forall_singleton. unfold bit. destruct (gt_half r0); lia. }
  intros values links e2 Hlen Hbit _ Hllen Hlinks. simpl.
  apply wp_bind, wp_getDistinctRandomIndices. intros idxA idxB e3 Hne Hrange.
  destruct Hrange as [HA HB]; [lia |].
  apply wp_bind, wp_any. intros r e4.
  apply wp_bind, wp_any. intros qText e5.
  apply wp_ret. simpl.
  exists values, (links.*1), idxA, idxB, (if gt_half r then "SAME" else "DIFFERENT").
  repeat split; try done; try lia.
  - by rewrite length_fmap.
  - by rewrite length_fmap.
  - intros i rel Hrel.
    apply list_lookup_fmap_Some in Hrel as ([rel' p] & -> & Hl).
    exists p. split; [by rewrite list_lookup_fmap, Hl |].
    by apply (Hlinks i (rel', p)).
  - destruct (gt_half r); auto.
Qed.

End Distinction.

(** C4. In a DISTINCTION round without night-mode inversion the values form
    the chain: [num + 1] values, each 0 or 1, with value [i + 1] equal to
    value [i] when link [i] is SAME and flipped when it is DIFFERENT, premise
    [i] stating that link; the two sampled indices are distinct and in
    range, and the stored answer is [values[idxA] == values[idxB]] for a SAME
    query and [values[idxA] != values[idxB]] for a DIFFERENT one. *)
Theorem distinction_answer_from_values
    st cm items num e (r : LogicData) (loc : Locals) e' :
  generateLogic st cm false items DISTINCTION num e = Some ((r, loc), e') →
  ∃ values rels idxA idxB qType vA vB,
    trace loc = DistinctionTrace values rels idxA idxB qType
    ∧ length values = (num + 1)%nat ∧ Forall bit values ∧ length rels = num
    ∧ (∀ i rel, rels !! i = Some rel →
         (rel = "SAME" ∨ rel = "DIFFERENT")
         ∧ newPremises loc !! i
           = Some (premiseText st cm (item items i) rel (item items (i + 1)))
         ∧ ∃ v, values !! i = Some v
                ∧ values !! S i = Some (if String.eqb rel "SAME" then v else 1 - v))
    ∧ idxA ≠ idxB
    ∧ values !! idxA = Some vA ∧ values !! idxB = Some vB
    ∧ (qType = "SAME" ∧ answer r = bool_decide (vA = vB)
       ∨ qType = "DIFFERENT" ∧ answer r = bool_decide (vA ≠ vB)).
Proof.
  intros H. apply generateLogic_inv in H as (e1 & Hround & _).
  simpl in Hround. apply bind_Some in Hround as ([[q a] l] & e2 & Hd & Hret).
  injection Hret as -> -> _ _ -> _.
  apply distinctionRound_Some in Hd
    as (values & rels & idxA & idxB & qType & Htr & Hlen & Hbit & Hrlen & _
        & Hlinks & Hne & HA & HB & Hq & Ha).
  destruct (lookup_lt_is_Some_2 values idxA) as [vA HvA]; [lia |].
  destruct (lookup_lt_is_Some_2 values idxB) as [vB HvB]; [lia |].
  exists values, rels, idxA, idxB, qType, vA, vB.
  repeat split; try done.
  - by destruct (Hlinks i rel) as (p & _ & ? & _).
  - destruct (Hlinks i rel) as (p & Hp & _ & Hpt & _); [done |].
    rewrite Hp. f_equal. exact Hpt.
  - by destruct (Hlinks i rel) as (p & _ & _ & _ & ?).
  - rewrite Ha, HvA, HvB. unfold strictEq. simpl.
    destruct Hq as [-> | ->]; [left | right]; (split; [done |]); simpl.
    + apply bool_decide_ext. split; congruence.
    + rewrite <- bool_decide_not. apply bool_decide_ext.
      split; intros Hn; contradict Hn; congruence.
Qed.

(** ** SPATIAL: sub-mode selection and the query policies *)

Section Spatial.

Variable st : GameSettings.
Variable cm : gmap string string.
Variable night : bool.
Variable items : list string.

Lemma word_at_elem (arr : list string) (i : nat) :
  (i < length arr)%nat → word_at arr i ∈ arr.
Proof.
  intros Hi. unfold word_at.
  destruct (lookup_lt_is_Some_2 arr i Hi) as [w Hw]. rewrite Hw. simpl.
  by eapply list_elem_of_lookup_2.
Qed.

Lemma wp_latticeWalk is3D s n c e
    (Φ : list string * list Position * list VisualNode → Env → Prop) :
  (∀ ps poss nodes e',
      length ps = n →
      (∀ i p, ps !! i = Some p →
         ∃ rawRel, p = premiseText st cm (item items (s + i + 1)) rawRel
                         (item items (s + i))) →
      Φ (ps, poss, nodes) e') →
  wp (latticeWalk st cm items is3D (seq s n) c) e Φ.
Proof.
  revert s c e Φ. induction n as [| n IH]; intros s c e Φ H; simpl.
  - apply wp_ret, H; [done |]. intros i p. by rewrite lookup_nil.
  - apply wp_bind, wp_any. intros dir e1.
    destruct (stepOf dir) as [[[dx dy] dz] text].
    apply wp_bind, wp_createPremise. intros e2.
    apply wp_bind, IH. intros ps poss nodes e3 Hlen Hps. simpl.
    apply wp_ret, H; [simpl; lia |].
    intros [| i] p; simpl.
    + intros [= <-]. rewrite Nat.add_0_r. eauto.
    + intros Hp. replace (s + S i)%nat with (S s + i)%nat by lia. by apply Hps.
Qed.

(** Lines 416-419 by cases on the two switches and the dimension. *)
Lemma availableTypes_cases is3D :
  availableTypes st is3D
  = match enableDeictic st, enableMovement st && negb is3D with
    | false, false => ["STANDARD"]
    | true, false => ["DEICTIC"]
    | false, true => ["MOVEMENT"]
    | true, true => ["DEICTIC"; "MOVEMENT"]
    end.
Proof.
  unfold availableTypes.
  by destruct (enableDeictic st), (enableMovement st && negb is3D).
Qed.

Lemma availableTypes_nonempty is3D : (0 < length (availableTypes st is3D))%nat.
Proof.
  rewrite availableTypes_cases.
  destruct (enableDeictic st), (enableMovement st && negb is3D); simpl; lia.
Qed.

Lemma wp_selectType is3D e (Φ : string → Env → Prop) :
  (∀ t e', t ∈ availableTypes st is3D → Φ t e') →
  wp (selectType st is3D) e Φ.
Proof.
  intros H. unfold selectType. apply wp_bind, wp_randomIndex. intros i e1 Hi.
  apply wp_ret, H, word_at_elem, Hi, availableTypes_nonempty.
Qed.

Lemma wp_pickFakeBearing effectiveRel e (Φ : string → Env → Prop) :
  (∀ fakeRaw e', fakeRaw ≠ effectiveRel → fakeRaw ∈ possibleDirs → Φ fakeRaw e') →
  wp (pickFakeBearing effectiveRel) e Φ.
Proof.
  intros H. unfold pickFakeBearing.
  apply wp_bind, wp_randomIndex. intros i e1 Hi.
  apply (wp_redrawUntil (λ w, w ∈ possibleDirs)).
  - apply word_at_elem, Hi. simpl. lia.
  - intros r. apply word_at_elem, floor_mul_lt. simpl. lia.
  - intros w e2 Hstop Hw. apply H; [| done].
    apply negb_true_iff, String.eqb_neq in Hstop. done.
Qed.

Lemma wp_deicticQuery positions e (Φ : string * bool * QueryTrace → Env → Prop) :
  (∀ q a tr e', subModeOf tr = "DEICTIC" → spatial_answer_ok night a tr →
                Φ (q, a, tr) e') →
  wp (deicticQuery st cm night items positions) e Φ.
Proof.
  intros H. unfold deicticQuery.
  apply wp_bind, wp_any. intros [idxMe idxTarget] e1. simpl.
  apply wp_bind, wp_any. intros pT e2.
  apply wp_bind, wp_any. intros pM e3.
  apply wp_bind, wp_any. intros facingDir e4.
  destruct (deicticLocal facingDir _ _) as [localX localY].
  apply wp_bind, wp_any. intros r e5.
  destruct (gt_half r).
  - apply wp_bind, wp_any. intros f e6.
    apply wp_bind, wp_any. intros t e7.
    apply wp_ret, H; [done |]. simpl. done.
  - apply wp_bind, wp_pickFakeBearing. intros fakeRaw e6 Hne _.
    apply wp_bind, wp_any. intros f e7.
    apply wp_bind, wp_any. intros t e8.
    apply wp_ret, H; [done |]. simpl. repeat split; try done.
Qed.

Lemma wp_movementQuery positions e (Φ : string * bool * QueryTrace → Env → Prop) :
  (∀ q a tr e', subModeOf tr = "MOVEMENT" → spatial_answer_ok night a tr →
                Φ (q, a, tr) e') →
  wp (movementQuery st cm night items positions) e Φ.
Proof.
  intros H. unfold movementQuery.
  apply wp_bind, wp_any. intros startIdx e1.
  apply wp_bind, wp_any. intros pS e2.
  apply wp_bind, wp_any. intros heading0 e3.
  apply wp_bind, wp_any. intros s e4.
  apply wp_bind, wp_any. intros f e5.
  apply wp_bind, wp_any. intros h e6.
  apply wp_bind, wp_any. intros m e7.
  apply wp_bind, wp_any. intros w e8.
  apply wp_bind, wp_any. intros t0 e9.
  apply wp_bind, wp_any. intros targetIdx e10.
  apply wp_bind, wp_any. intros tPos e11.
  destruct (movementLocal (heading w) _ _) as [localX localY] eqn:Hlocal.
  apply wp_bind, wp_any. intros r e12.
  destruct (gt_half r).
  - apply wp_bind, wp_any. intros t e13.
    apply wp_ret, H; [done |]. simpl. done.
  - apply wp_bind, wp_pickFakeBearing. intros qRaw e13 Hne _.
    apply wp_bind, wp_any. intros t e14.
    apply wp_ret, H; [done |]. simpl. repeat split; try done.
Qed.

Lemma wp_standardFake is3D effectiveParts e (Φ : string → Env → Prop) :
  (∀ fakeRaw e', fakeRaw ∉ effectiveParts → Φ fakeRaw e') →
  wp (standardFake is3D effectiveParts) e Φ.
Proof.
  intros H. unfold standardFake.
  apply wp_bind, wp_any. intros i e1.
  apply (wp_redrawUntil (λ _, True)); [done | done |].
  intros w e2 Hstop _. apply H.
  apply negb_true_iff, bool_decide_eq_false in Hstop. done.
Qed.

Lemma wp_standardQuery is3D positions e
    (Φ : string * bool * QueryTrace → Env → Prop) :
  (∀ q a tr e', subModeOf tr = "STANDARD" → spatial_answer_ok night a tr →
                Φ (q, a, tr) e') →
  wp (standardQuery st cm night items is3D positions) e Φ.
Proof.
  intros H. unfold standardQuery.
  apply wp_bind, wp_any. intros [idxA idxB] e1. simpl.
  apply wp_bind, wp_any. intros pB e2.
  apply wp_bind, wp_any. intros pA e3.
  set (parts := standardParts is3D _ _ _).
  set (effectiveParts := if night then map invertSpatial parts else parts).
  assert (Hfalse : ∀ e0,
    wp (fakeRaw ← standardFake is3D effectiveParts;
        t ← getTerm st cm fakeRaw;
        mret ("Is " +:+ item items idxB +:+ " " +:+ t +:+ " "
                +:+ item items idxA +:+ "?",
              false, StandardTrace idxA idxB parts effectiveParts fakeRaw))
       e0 Φ).
  { intros e0. apply wp_bind, wp_standardFake. intros fakeRaw e4 Hnot.
    apply wp_bind, wp_any. intros t e5.
    apply wp_ret, H; [done |]. simpl. repeat split; try done. }
  destruct (0 <? length effectiveParts)%nat eqn:Hlen; [| apply Hfalse].
  apply Nat.ltb_lt in Hlen.
  apply wp_bind, wp_any. intros r e4.
  destruct (gt_half r); [| apply Hfalse].
  apply wp_bind, wp_randomIndex. intros i e5 Hi.
  apply wp_bind, wp_any. intros t e6.
  apply wp_ret, H; [done |]. simpl. split; [done |].
  split; [intros _ | done]. apply word_at_elem. auto.
Qed.

Lemma spatialRound_Some is3D num e q a mods nodes loc e' :
  spatialRound st cm night items is3D num e = Some ((q, a, mods, nodes, loc), e') →
  length (newPremises loc) = num
  ∧ in_link_order st cm items true (newPremises loc)
  ∧ subModeOf (trace loc) ∈ availableTypes st is3D
  ∧ mods = (if String.eqb (subModeOf (trace loc)) "STANDARD" then []
            else [subModeOf (trace loc)])
  ∧ spatial_answer_ok night a (trace loc).
Proof.
  revert q a mods nodes loc e'.
  cut (wp (spatialRound st cm night items is3D num) e
         (λ x _,
            length (newPremises x.2) = num
            ∧ in_link_order st cm items true (newPremises x.2)
            ∧ subModeOf (trace x.2) ∈ availableTypes st is3D
            ∧ x.1.1.2 = (if String.eqb (subModeOf (trace x.2)) "STANDARD" then []
                         else [subModeOf (trace x.2)])
            ∧ spatial_answer_ok night x.1.1.1.2 (trace x.2))).
  { intros Hwp q a mods nodes loc e' H. exact (Hwp _ _ H). }
  unfold spatialRound.
  apply wp_bind, wp_latticeWalk. intros ps poss nodes e1 Hlen Hps. simpl.
  assert (Horder : in_link_order st cm items true ps).
  { intros i p Hp. destruct (Hps i p Hp) as [rawRel ->]. by exists rawRel. }
  apply wp_bind, wp_selectType. intros t e2 Ht.
  destruct (String.eqb_spec t "DEICTIC") as [-> | Hnd].
  { apply wp_bind, wp_deicticQuery. intros q a tr e3 Hsub Hok.
    apply wp_ret. simpl. rewrite Hsub. done. }
  destruct (String.eqb_spec t "MOVEMENT") as [-> | Hnm].
  { apply wp_bind, wp_movementQuery. intros q a tr e3 Hsub Hok.
    apply wp_ret. simpl. rewrite Hsub. done. }
  apply wp_bind, wp_standardQuery. intros q a tr e3 Hsub Hok.
  apply wp_ret. simpl. rewrite Hsub. repeat split; try done.
  revert Ht. rewrite availableTypes_cases.
  destruct (enableDeictic st), (enableMovement st && negb is3D);
    intros Ht; repeat (apply elem_of_cons in Ht as [-> | Ht]); try done;
    try (by apply elem_of_nil in Ht); apply list_elem_of_here.
Qed.

End Spatial.

(** ** Night mode on the non-spatial frames *)

Section NightFlip.

Variable st : GameSettings.
Variable cm : gmap string string.
Variable items : list string.





End NightFlip.

(** ** The cipher key *)

Lemma assignWords_lookup (ws rels : list string) (i0 : nat) (m0 : gmap string string) :
  NoDup rels →
  (∀ j rel, rels !! j = Some rel →
     assignWords ws i0 rels m0 !! rel
     = Some (default EmptyString (ws !! ((i0 + j) mod length ws)%nat)))
  ∧ (∀ k, k ∉ rels → assignWords ws i0 rels m0 !! k = m0 !! k).
Proof.
  intros Hnd. revert i0 m0.
  induction Hnd as [| rel0 rels Hnotin Hnd IH]; intros i0 m0; simpl.
  - split; [intros j rel; by rewrite lookup_nil | done].
  - destruct (IH (S i0)
                (<[rel0 := default EmptyString (ws !! (i0 mod length ws)%nat)]> m0))
      as [IHin IHout].
    split.
    + intros [| j] rel; simpl.
      * intros [= <-]. rewrite IHout by done.
        rewrite lookup_insert_eq. by rewrite Nat.add_0_r.
      * intros Hj. rewrite (IHin j rel Hj).
        by replace (S i0 + j)%nat with (i0 + S j)%nat by lia.
    + intros k Hk. apply not_elem_of_cons in Hk as [Hne Hk].
      rewrite IHout by done. by rewrite lookup_insert_ne.
Qed.

Lemma NoDup_relations : NoDup relations.
Proof. apply (bool_decide_unpack _). vm_compute. exact I. Qed.

Lemma NoDup_CIPHER_WORDS : NoDup CIPHER_WORDS.
Proof. apply (bool_decide_unpack _). vm_compute. exact I. Qed.

(** With all 24 words in [ws], keyword [j] gets word [j]. *)
Lemma cipher_lookup (ws : list string) (k w : string) :
  length ws = 24%nat →
  assignWords ws 0 relations ∅ !! k = Some w
  ↔ ∃ j, relations !! j = Some k ∧ ws !! j = Some w.
Proof.
  intros Hlen.
  destruct (assignWords_lookup ws relations 0 ∅ NoDup_relations) as [Hin Hout].
  destruct (decide (k ∈ relations)) as [Hk | Hk].
  - apply list_elem_of_lookup in Hk as [j Hj].
    assert (Hj20 : (j < 20)%nat) by (apply lookup_lt_Some in Hj; exact Hj).
    rewrite (Hin j k Hj), Hlen. change (0 + j)%nat with j.
    rewrite Nat.mod_small by lia.
    destruct (lookup_lt_is_Some_2 ws j) as [w' Hw']; [lia |].
    rewrite Hw'. simpl. split.
    + intros [= <-]. eauto.
    + intros (j' & Hj' & Hw). f_equal.
      assert (j' = j) as -> by (eapply NoDup_lookup; [apply NoDup_relations | done..]).
      congruence.
  - rewrite (Hout k Hk), lookup_empty. split; [done |].
    intros (j & Hj & _). destruct Hk. by eapply list_elem_of_lookup_2.
Qed.

(** C9. [generateCipherKey] returns whenever the source holds a draw for
    every comparison of the shuffle (24 * 24 are enough), and every map it
    returns is defined exactly on the 20 relation keywords, maps each of them
    to one of the 24 (pairwise distinct) cipher words, and never maps two
    keywords to the same word. *)
Theorem cipher_key_injective (e : Env) :
  ((24 * 24 ≤ length (draws e))%nat → is_Some (generateCipherKey e))
  ∧ ∀ (m : gmap string string) (e' : Env),
      generateCipherKey e = Some (m, e') →
      (∀ k, k ∈ relations ↔ is_Some (m !! k))
      ∧ (∀ k w, m !! k = Some w → w ∈ CIPHER_WORDS)
      ∧ (∀ k1 k2 w, m !! k1 = Some w → m !! k2 = Some w → k1 = k2)
      ∧ length relations = 20%nat ∧ NoDup relations
      ∧ length CIPHER_WORDS = 24%nat ∧ NoDup CIPHER_WORDS.
Proof.
  unfold generateCipherKey. split.
  { intros Hlen. rewrite bind_unfold.
    destruct (shuffleArray_returns CIPHER_WORDS e) as [[ws e1] ->]; [exact Hlen |].
    by eexists. }
  intros m e' H.
  apply bind_Some in H as (ws & e1 & Hsh & Hret). injection Hret as <- <-.
  assert (Hperm : ws ≡ₚ CIPHER_WORDS).
  { by eapply (wp_shuffleArray _ _ (λ l' _, l' ≡ₚ _)); [| exact Hsh]. }
  assert (Hlen : length ws = 24%nat) by (by rewrite Hperm).
  assert (Hnd : NoDup ws) by (rewrite Hperm; apply NoDup_CIPHER_WORDS).
  repeat split; try done; try apply NoDup_relations; try apply NoDup_CIPHER_WORDS.
  - intros Hk. apply list_elem_of_lookup in Hk as [j Hj].
    assert (Hj20 : (j < 20)%nat) by (apply lookup_lt_Some in Hj; exact Hj).
    destruct (lookup_lt_is_Some_2 ws j) as [w Hw]; [lia |].
    exists w. apply cipher_lookup; eauto.
  - intros [w Hw]. apply cipher_lookup in Hw as (j & Hj & _); [| done].
    by eapply list_elem_of_lookup_2.
  - intros k w Hw. apply cipher_lookup in Hw as (j & _ & Hw); [| done].
    rewrite <- Hperm. by eapply list_elem_of_lookup_2.
  - intros k1 k2 w H1 H2.
    apply cipher_lookup in H1 as (j1 & Hk1 & Hw1); [| done].
    apply cipher_lookup in H2 as (j2 & Hk2 & Hw2); [| done].
    assert (j1 = j2) as -> by (by eapply NoDup_lookup).
    congruence.
Qed.

(** ** The displayed premise list *)

Lemma generateRound_premises st cm night items mode num e q a mods nodes loc e' :
  generateRound st cm night items mode num e = Some ((q, a, mods, nodes, loc), e') →
  length (newPremises loc) = num
  ∧ in_link_order st cm items (is_spatial mode) (newPremises loc).
Proof.
  destruct mode; simpl; intros H.
  - apply bind_Some in H as ([[q' a'] l] & e1 & Hr & Hret).
    injection Hret as _ _ _ _ <- _.
    apply linearRound_Some in Hr as (? & ? & ? & ? & _ & _ & _ & _ & _ & _ & ? & ? & _).
    done.
  - by apply spatialRound_Some in H as (? & ? & _).
  - by apply spatialRound_Some in H as (? & ? & _).
  - apply bind_Some in H as ([[q' a'] l] & e1 & Hr & Hret).
    injection Hret as _ _ _ _ <- _.
    apply hierarchyRound_Some in Hr as (? & ? & ? & _ & _ & _ & _ & _ & Hlen & Hp & _).
    split; [done |]. intros i p Hi. exists "CONTAINS". by apply Hp.
  - apply bind_Some in H as ([[q' a'] l] & e1 & Hr & Hret).
    injection Hret as _ _ _ _ <- _.
    apply distinctionRound_Some in Hr
      as (values & rels & ? & ? & ? & _ & _ & _ & Hrlen & Hlen & Hlinks & _).
    split; [done |]. intros i p Hi.
    destruct (lookup_lt_is_Some_2 rels i) as [rel Hrel].
    { apply lookup_lt_Some in Hi. lia. }
    destruct (Hlinks i rel Hrel) as (p' & Hp' & _ & Hpt & _).
    exists rel. simpl in Hpt. congruence.
Qed.

(** ** Sub-mode selection *)

Lemma generateRound_spatial st cm night items is3D num :
  generateRound st cm night items (spatialMode is3D) num
  = spatialRound st cm night items is3D num.
Proof. by destruct is3D. Qed.


(** ** Night mode *)


(** ** Concrete rounds *)

Example linear_example_run :
  linear_example
  = Some (mkLogic ["A is GREATER than B"; "B is LESS than C"]
            "Is A GREATER than B?" true [] [] [],
          mkLocals ["A is GREATER than B"; "B is LESS than C"]
            (LinearTrace ["GREATER"; "LESS"] 0 1 "GREATER"),
          mkEnv [] []).
Proof. vm_compute. reflexivity. Qed.

Example distinction_example_run :
  (λ x, (premises x.1.1, question x.1.1, answer x.1.1, trace x.1.2))
    <$> distinction_example
  = Some (["A SAME B"; "B DIFFERENT C"], "Is A DIFFERENT from C?", true,
          DistinctionTrace [1; 1; 0] ["SAME"; "DIFFERENT"] 0 2 "DIFFERENT").
Proof. vm_compute. reflexivity. Qed.

Example hierarchy_example_run :
  (λ x, (premises x.1.1, question x.1.1, answer x.1.1, trace x.1.2))
    <$> hierarchy_example
  = Some (["A CONTAINS B"; "B CONTAINS C"], "Is A INSIDE C?", false,
          HierarchyTrace 0 2 "INSIDE").
Proof. vm_compute. reflexivity. Qed.

Example night_example_run :
  (λ x, (premises x.1.1, question x.1.1, answer x.1.1, trace x.1.2))
    <$> night_example
  = Some (["B NORTH A"], "Is B SOUTH A?", true,
          StandardTrace 0 1 ["NORTH"] ["SOUTH"] "SOUTH").
Proof. vm_compute. reflexivity. Qed.

Example cipher_example_run :
  (λ x, (x.1 !! "GREATER", x.1 !! "TURN", x.1 !! "SAME LOCATION", size x.1))
    <$> cipher_example
  = Some (Some "ZAX", Some "QUZ", None, 20%nat).
Proof. vm_compute. reflexivity. Qed.

(** The claim of C2 as stated fails here: a GREATER query about the items
    at indices 0 and 1 is stored as true, although 0 > 1 is false. *)
Lemma linear_greater_true_at_earlier_index :
  generateLogic DEFAULT_SETTINGS ∅ false ["A"; "B"; "C"] LINEAR 2
    (mkEnv [draw_high; draw_low; draw_zero; draw_half; draw_high; draw_low] [])
  = Some (mkLogic ["A is GREATER than B"; "B is LESS than C"]
            "Is A GREATER than B?" true [] [] [],
          mkLocals ["A is GREATER than B"; "B is LESS than C"]
            (LinearTrace ["GREATER"; "LESS"] 0 1 "GREATER"),
          mkEnv [] [])
  ∧ ¬ (0 > 1)%nat.
Proof. split; [vm_compute; reflexivity | lia]. Qed.


Lemma linear_answer_from_index_order_witness :
  ∃ rels idxA idxB qType,
    trace (run_locals linear_example) = LinearTrace rels idxA idxB qType
    ∧ length rels = 2%nat
    ∧ idxA ≠ idxB ∧ (idxA < 2 + 1)%nat ∧ (idxB < 2 + 1)%nat
    ∧ (qType = "GREATER" ∧ answer (run_data linear_example) = (idxA <? idxB)%nat
       ∨ qType = "LESS" ∧ answer (run_data linear_example) = (idxB <? idxA)%nat).
Proof.
  apply (linear_answer_from_index_order DEFAULT_SETTINGS ∅ example_items 2
           (mkEnv linear_draws []) _ _ (run_env linear_example)).
  vm_compute. reflexivity.
Defined.

Lemma distinction_answer_from_values_witness :
  ∃ (values : list Z) (idxA idxB : nat) (qType : string) (vA vB : Z),
    values !! idxA = Some vA ∧ values !! idxB = Some vB ∧ idxA ≠ idxB
    ∧ (qType = "SAME" ∧ answer (run_data distinction_example) = bool_decide (vA = vB)
       ∨ qType = "DIFFERENT"
         ∧ answer (run_data distinction_example) = bool_decide (vA ≠ vB)).
Proof.
  destruct (distinction_answer_from_values DEFAULT_SETTINGS ∅ example_items 2
              (mkEnv distinction_draws []) (run_data distinction_example)
              (run_locals distinction_example) (run_env distinction_example))
    as (values & rels & idxA & idxB & qType & vA & vB & _ & _ & _ & _ & _
        & Hne & HA & HB & Hans).
  - vm_compute. reflexivity.
  - by exists values, idxA, idxB, qType, vA, vB.
Defined.

Lemma hierarchy_chain_and_answer_witness :
  length (newPremises (run_locals hierarchy_example)) = 2%nat
  ∧ premises (run_data hierarchy_example) ≡ₚ newPremises (run_locals hierarchy_example).
Proof.
  destruct (hierarchy_chain_and_answer DEFAULT_SETTINGS ∅ example_items 2
              (mkEnv hierarchy_draws []) (run_data hierarchy_example)
              (run_locals hierarchy_example) (run_env hierarchy_example))
    as (Hlen & _ & Hperm & _).
  - vm_compute. reflexivity.
  - by split.
Defined.



Lemma cipher_key_injective_witness :
  is_Some (default ∅ (fst <$> cipher_example) !! "GREATER")
  ∧ length relations = 20%nat ∧ length CIPHER_WORDS = 24%nat.
Proof.
  destruct (cipher_key_injective (mkEnv (replicate 23 draw_low) [])) as [_ Hspec].
  destruct (Hspec (default ∅ (fst <$> cipher_example))
              (default (mkEnv [] []) (snd <$> cipher_example)))
    as (Hdom & _ & _ & Hrel & _ & Hwords & _).
  - vm_compute. reflexivity.
  - split; [| by split]. apply Hdom.
    apply (bool_decide_unpack _). vm_compute. exact I.
Defined.

(** * Further properties of the generators and of the session loop *)

#[local] Set Warnings "-clear-no-such-hyp".

(** ** Bearings and directions *)

(** X1. The five bearings partition the plane: FRONT and BEHIND take the two
    closed cones around the y-axis (ties on the diagonals included), RIGHT
    and LEFT the two open cones around the x-axis, and SAME LOCATION is
    returned for the zero vector only. *)
Theorem classifyLocal_partition (x y : Z) :
  (classifyLocal x y = "FRONT" ↔ 0 < y ∧ Z.abs x ≤ y)
  ∧ (classifyLocal x y = "BEHIND" ↔ y < 0 ∧ Z.abs x ≤ - y)
  ∧ (classifyLocal x y = "RIGHT" ↔ 0 < x ∧ Z.abs y < x)
  ∧ (classifyLocal x y = "LEFT" ↔ x < 0 ∧ Z.abs y < - x)
  ∧ (classifyLocal x y = "SAME LOCATION" ↔ x = 0 ∧ y = 0).
Proof.
  unfold classifyLocal.
  destruct (Z.ltb_spec 0 y), (Z.leb_spec (Z.abs x) y), (Z.ltb_spec y 0),
    (Z.leb_spec (Z.abs x) (Z.abs y)), (Z.ltb_spec 0 x), (Z.ltb_spec x 0);
    simpl; repeat split; intros; try done; try lia.
Qed.

(** The bearing of the opposite vector. *)
Lemma classifyLocal_opposite (x y : Z) :
  invertSpatial (classifyLocal x y) = classifyLocal (- x) (- y).
Proof.
  unfold classifyLocal. rewrite !Z.abs_opp.
  destruct (Z.ltb_spec 0 y), (Z.leb_spec (Z.abs x) y), (Z.ltb_spec y 0),
    (Z.leb_spec (Z.abs x) (Z.abs y)), (Z.ltb_spec 0 x), (Z.ltb_spec x 0),
    (Z.ltb_spec 0 (- y)), (Z.leb_spec (Z.abs x) (- y)), (Z.ltb_spec (- y) 0),
    (Z.ltb_spec 0 (- x)), (Z.ltb_spec (- x) 0);
    simpl; try lia; vm_compute; reflexivity.
Qed.

(** X2. Inverting a bearing is taking the bearing of the opposite vector:
    what night mode asks about in DEICTIC and MOVEMENT is the bearing the
    target would have if it were mirrored through the observer; inverting
    twice gives the bearing back. *)
Theorem invertSpatial_classifyLocal (x y : Z) :
  invertSpatial (classifyLocal x y) = classifyLocal (- x) (- y)
  ∧ invertSpatial (invertSpatial (classifyLocal x y)) = classifyLocal x y.
Proof.
  split; [apply classifyLocal_opposite |].
  by rewrite !classifyLocal_opposite, !Z.opp_involutive.
Qed.

Lemma invert_axis (pos neg : string) (d : Z) :
  invertSpatial pos = neg → invertSpatial neg = pos →
  map invertSpatial
    (if 0 <? d then [pos] else if d <? 0 then [neg] else [])
  = (if 0 <? - d then [pos] else if - d <? 0 then [neg] else []).
Proof.
  intros Hpos Hneg.
  destruct (Z.ltb_spec 0 d), (Z.ltb_spec d 0), (Z.ltb_spec 0 (- d)),
    (Z.ltb_spec (- d) 0); simpl; try lia; congruence.
Qed.

(** The parts of the opposite displacement. *)
Lemma standardParts_opposite (is3D : bool) (dx dy dz : Z) :
  map invertSpatial (standardParts is3D dx dy dz)
  = standardParts is3D (- dx) (- dy) (- dz).
Proof.
  unfold standardParts. rewrite !map_app.
  rewrite (invert_axis "NORTH" "SOUTH"), (invert_axis "EAST" "WEST")
    by (vm_compute; reflexivity).
  destruct is3D; [| done].
  by rewrite (invert_axis "ABOVE" "BELOW") by (vm_compute; reflexivity).
Qed.

(** X3. Inverting every part of a STANDARD relation gives the relation of
    the opposite displacement, in 2D and in 3D; inverting the parts twice
    gives the relation back. *)
Theorem standardParts_inverted (is3D : bool) (dx dy dz : Z) :
  map invertSpatial (standardParts is3D dx dy dz)
  = standardParts is3D (- dx) (- dy) (- dz)
  ∧ map invertSpatial (map invertSpatial (standardParts is3D dx dy dz))
    = standardParts is3D dx dy dz.
Proof.
  split; [apply standardParts_opposite |].
  by rewrite !standardParts_opposite, !Z.opp_involutive.
Qed.

Lemma standardParts_elem (is3D : bool) (dx dy dz : Z) (w : string) :
  w ∈ standardParts is3D dx dy dz ↔
    (is3D = true ∧ (w = "ABOVE" ∧ 0 < dz ∨ w = "BELOW" ∧ dz < 0))
    ∨ (w = "NORTH" ∧ 0 < dy ∨ w = "SOUTH" ∧ dy < 0)
    ∨ (w = "EAST" ∧ 0 < dx ∨ w = "WEST" ∧ dx < 0).
Proof.
  unfold standardParts. rewrite !elem_of_app.
  destruct is3D, (Z.ltb_spec 0 dz), (Z.ltb_spec dz 0), (Z.ltb_spec 0 dy),
    (Z.ltb_spec dy 0), (Z.ltb_spec 0 dx), (Z.ltb_spec dx 0);
    rewrite ?list_elem_of_singleton, ?elem_of_nil; try lia; naive_solver lia.
Qed.

Lemma standardParts_allDirs (is3D : bool) (dx dy dz : Z) (w : string) :
  w ∈ standardParts is3D dx dy dz → w ∈ allDirs is3D.
Proof.
  intros Hw. apply standardParts_elem in Hw. destruct is3D; simpl; set_solver.
Qed.

(** X4. The parts of a STANDARD relation are directions of the round's
    dimension, at most one per axis and exactly one per axis along which the
    items differ: NORTH or SOUTH by the sign of the y-difference, EAST or
    WEST by that of the x-difference, in 3D ABOVE or BELOW by that of the
    z-difference, never a direction together with its opposite, so at most
    two parts in 2D and three in 3D, no part twice.  The relation is empty
    exactly when the items do not differ (in 2D the z-axis is ignored), and
    whatever the displacement and the night flag there is a direction of
    the dimension outside the effective relation, so the loop that looks for
    a false direction has something to find. *)
Theorem standardParts_shape (is3D night : bool) (dx dy dz : Z) :
  let parts := standardParts is3D dx dy dz in
  let effectiveParts := if night then map invertSpatial parts else parts in
  (∀ w, w ∈ parts → w ∈ allDirs is3D)
  ∧ NoDup parts
  ∧ (parts = [] ↔ dx = 0 ∧ dy = 0 ∧ (is3D = true → dz = 0))
  ∧ (∃ w, w ∈ allDirs is3D ∧ w ∉ effectiveParts)
  ∧ (("NORTH" ∈ parts ↔ 0 < dy) ∧ ("SOUTH" ∈ parts ↔ dy < 0)
     ∧ ("EAST" ∈ parts ↔ 0 < dx) ∧ ("WEST" ∈ parts ↔ dx < 0)
     ∧ ("ABOVE" ∈ parts ↔ is3D = true ∧ 0 < dz)
     ∧ ("BELOW" ∈ parts ↔ is3D = true ∧ dz < 0))
  ∧ (∀ w, w ∈ parts → invertSpatial w ∉ parts)
  ∧ (length parts ≤ if is3D then 3 else 2)%nat.
Proof.
  cbv zeta. split; [| split; [| split; [| split; [| split; [| split]]]]].
  - apply standardParts_allDirs.
  - unfold standardParts.
    destruct is3D, (Z.ltb_spec 0 dz), (Z.ltb_spec dz 0), (Z.ltb_spec 0 dy),
      (Z.ltb_spec dy 0), (Z.ltb_spec 0 dx), (Z.ltb_spec dx 0); simpl;
      try lia; apply (bool_decide_unpack _); vm_compute; exact I.
  - unfold standardParts.
    destruct is3D, (Z.ltb_spec 0 dz), (Z.ltb_spec dz 0), (Z.ltb_spec 0 dy),
      (Z.ltb_spec dy 0), (Z.ltb_spec 0 dx), (Z.ltb_spec dx 0); simpl;
      split; intros; try done; try lia; naive_solver lia.
  - assert (Hout : ∀ ex ey ez, ∃ w, w ∈ allDirs is3D
                                 ∧ w ∉ standardParts is3D ex ey ez).
    { intros ex ey ez. destruct (Z.ltb_spec 0 ey).
      - exists "SOUTH". split; [destruct is3D; simpl; set_solver |].
        rewrite standardParts_elem. naive_solver lia.
      - exists "NORTH". split; [destruct is3D; simpl; set_solver |].
        rewrite standardParts_elem. naive_solver lia. }
    destruct night; [rewrite standardParts_opposite |]; apply Hout.
  - rewrite !standardParts_elem. repeat split; naive_solver lia.
  - intros w Hw Hinv. apply standardParts_elem in Hw.
    assert (Hwords : invertSpatial "ABOVE" = "BELOW" ∧ invertSpatial "BELOW" = "ABOVE"
                     ∧ invertSpatial "NORTH" = "SOUTH" ∧ invertSpatial "SOUTH" = "NORTH"
                     ∧ invertSpatial "EAST" = "WEST" ∧ invertSpatial "WEST" = "EAST")
      by (vm_compute; done).
    destruct Hwords as (HA & HB & HN & HS & HE & HW).
    destruct Hw as [[_ [[-> ?] | [-> ?]]] | [[[-> ?] | [-> ?]] | [[-> ?] | [-> ?]]]];
      rewrite ?HA, ?HB, ?HN, ?HS, ?HE, ?HW in Hinv;
      apply standardParts_elem in Hinv; naive_solver lia.
  - unfold standardParts. rewrite !length_app.
    destruct is3D, (0 <? dz), (dz <? 0), (0 <? dy), (dy <? 0), (0 <? dx), (dx <? 0);
      simpl; lia.
Qed.

(** X5. DEICTIC agrees with the compass of the lattice walk.  For each of
    the four facings, the neighbouring cell the observer would step onto by
    walking forward is in FRONT, the one a quarter turn to the right is to
    the RIGHT, the opposite one BEHIND and the remaining one to the LEFT;
    and the rotation keeps the length of the displacement. *)
Theorem deictic_compass (facingDir : nat) (dx dy : Z) :
  (facingDir < 4)%nat →
  (∀ k, (k < 4)%nat →
     let '(nx, ny) := forwardOf ((facingDir + k) mod 4) in
     let '(localX, localY) := deicticLocal facingDir nx ny in
     Some (classifyLocal localX localY) = ["FRONT"; "RIGHT"; "BEHIND"; "LEFT"] !! k)
  ∧ (let '(localX, localY) := deicticLocal facingDir dx dy in
     localX * localX + localY * localY = dx * dx + dy * dy).
Proof.
  intros Hf. split.
  - intros k Hk.
    destruct facingDir as [| [| [| [| ?]]]]; [| | | | lia];
      destruct k as [| [| [| [| ?]]]]; try lia; reflexivity.
  - destruct facingDir as [| [| [| [| ?]]]]; simpl; lia.
Qed.

Lemma deictic_compass_witness :
  let '(localX, localY) := deicticLocal 1 3 4 in
  localX * localX + localY * localY = 3 * 3 + 4 * 4.
Proof. apply (deictic_compass 1 3 4). lia. Defined.

(** ** [getDistinctRandomIndices] *)

Lemma floor_mul_le (r : Draw) (count : nat) :
  (floor_mul (draw_val r) count ≤ count - 1)%nat.
Proof.
  destruct count as [| n].
  - unfold floor_mul. destruct (draw_val r) as [p q].
    unfold Qfloor, Qmult. simpl. by rewrite Z.mul_0_r.
  - pose proof (floor_mul_lt r (S n)). lia.
Qed.

Lemma floor_mul_half (count : nat) :
  floor_mul (1 # 2) count = (count / 2)%nat.
Proof.
  unfold floor_mul, Qfloor, Qmult, inject_Z.
  change (Qnum (1 # 2) * Qnum (Z.of_nat count # 1)) with (1 * Z.of_nat count).
  change (Z.pos (Qden (1 # 2) * Qden (Z.of_nat count # 1))) with (Z.of_nat 2).
  by rewrite Z.mul_1_l, <- Nat2Z.inj_div, Nat2Z.id.
Qed.

Lemma randomIndex_cons (n : nat) (r : Draw) (ds : list Draw) (ks : list string) :
  randomIndex n (mkEnv (r :: ds) ks) = Some (floor_mul (draw_val r) n, mkEnv ds ks).
Proof. done. Qed.

Lemma redraw_until_now {A} (stop : A → bool) (next : Q → A) cur ds :
  stop cur = true → redraw_until stop next cur ds = Some (cur, ds).
Proof. intros H. destruct ds; simpl; by rewrite H. Qed.

Lemma getDistinctRandomIndices_Some (count : nat) e a b e' :
  getDistinctRandomIndices count e = Some ((a, b), e') →
  a ≠ b ∧ (a ≤ count - 1)%nat ∧ (b ≤ count - 1)%nat.
Proof.
  unfold getDistinctRandomIndices, randomIndex. intros H.
  apply bind_Some in H as (a0 & e1 & Ha & H).
  apply bind_Some in Ha as (r1 & e1' & Hr1 & [= <- <-]).
  apply bind_Some in H as (b0 & e2 & Hb & H).
  apply bind_Some in Hb as (r2 & e2' & Hr2 & [= <- <-]).
  apply bind_Some in H as (b1 & e3 & Hloop & [= <- <- <-]).
  unfold random in Hr1, Hr2.
  destruct (draws e) as [| d1 ds1]; [done |]. injection Hr1 as <- <-.
  simpl in Hr2. destruct ds1 as [| d2 ds2]; [done |]. injection Hr2 as <- <-.
  unfold redrawUntil in Hloop. simpl in Hloop.
  destruct (redraw_until _ _ _ ds2) as [[b2 ds3] |] eqn:Hre; [| done].
  injection Hloop as <- <-.
  split; [| split].
  - apply redraw_until_stop in Hre.
    by apply negb_true_iff, Nat.eqb_neq in Hre.
  - apply floor_mul_le.
  - eapply (redraw_until_inv (λ b, (b ≤ count - 1)%nat)); [| | exact Hre].
    + apply floor_mul_le.
    + intros r. apply floor_mul_le.
Qed.

(** X6. [getDistinctRandomIndices(count)] returns two different indices
    below [count]; it can do so only for [count >= 2]: with zero or one
    index to choose from no draws ever make it return (the loop
    [while (a === b)] has no exit), while for [count >= 2] there are draws
    on which it returns. *)
Theorem getDistinctRandomIndices_range (count : nat) (e : Env) :
  ((count ≤ 1)%nat → getDistinctRandomIndices count e = None)
  ∧ (∀ a b e', getDistinctRandomIndices count e = Some ((a, b), e') →
       a ≠ b ∧ (a < count)%nat ∧ (b < count)%nat)
  ∧ ((2 ≤ count)%nat →
       ∃ a b, getDistinctRandomIndices count
                (mkEnv (draw_zero :: draw_half :: draws e) (usedKeys e))
              = Some ((a, b), e)).
Proof.
  split; [| split].
  - intros Hc.
    destruct (getDistinctRandomIndices count e) as [[[a b] e'] |] eqn:H; [| done].
    apply getDistinctRandomIndices_Some in H. lia.
  - intros a b e' H. apply getDistinctRandomIndices_Some in H. lia.
  - intros Hc. exists 0%nat, (count / 2)%nat. destruct e as [ds ks].
    unfold getDistinctRandomIndices. simpl draws. simpl usedKeys.
    rewrite bind_unfold, randomIndex_cons, bind_unfold, randomIndex_cons.
    rewrite bind_unfold. unfold redrawUntil.
    change (draw_val draw_half) with (1 # 2). rewrite floor_mul_half.
    change (floor_mul (draw_val draw_zero) count) with 0%nat.
    simpl draws. rewrite redraw_until_now; [done |].
    apply negb_true_iff, Nat.eqb_neq.
    assert (1 ≤ count / 2)%nat; [| lia].
    apply Nat.div_le_lower_bound; lia.
Qed.

(** ** Score, attempts and depth over a session *)

Lemma playRound_fields (r : Round) (σ : Session) :
  let σ' := playRound r σ in
  let auto := autoProgress (settings σ) in
  let up := roundCorrect r && auto && (2 <=? progressCount σ) in
  let down := negb (roundCorrect r) && auto && (2 <? depth σ)
              && (1 <=? mistakeCount σ) in
  questionsAttempted σ' = questionsAttempted σ + 1
  ∧ phase σ' = RESULT
  ∧ autoProgress (settings σ') = auto
  ∧ currentScore σ'
    = (if roundCorrect r then currentScore σ + depth σ * 10
       else Z.max 0 (currentScore σ - 20))
  ∧ depth σ' = (if up then depth σ + 1 else if down then depth σ - 1 else depth σ)
  ∧ maxDepthReached σ'
    = (if up then Z.max (maxDepthReached σ) (depth σ + 1) else maxDepthReached σ)
  ∧ progressCount σ'
    = (if roundCorrect r
       then (if auto then (if 2 <=? progressCount σ then 0 else progressCount σ + 1)
             else progressCount σ)
       else 0).
Proof.
  unfold playRound, handleAnswer, depth.
  rewrite playRound_correct_eq, !armRound_settings. simpl.
  destruct (roundCorrect r), (autoProgress (settings σ)) eqn:Hauto; simpl.
  - destruct (2 <=? progressCount σ); simpl; rewrite ?Hauto;
      repeat split; reflexivity.
  - rewrite ?Hauto. repeat split; reflexivity.
  - destruct (2 <? numPremises (settings σ)); simpl;
      [| rewrite ?Hauto; repeat split; reflexivity].
    destruct (1 <=? mistakeCount σ); simpl; rewrite ?Hauto;
      repeat split; reflexivity.
  - rewrite ?Hauto. repeat split; reflexivity.
Qed.

Lemma play_cons (r : Round) (earlier : list Round) (σ0 : Session) :
  play (r :: earlier) σ0
  = (playRound r (play earlier σ0).1,
     mkOutcome (roundCorrect r) (depth (play earlier σ0).1)
       (depth (playRound r (play earlier σ0).1)) :: (play earlier σ0).2).
Proof. simpl. by destruct (play earlier σ0). Qed.

(** What every session state satisfies, whether adaptive difficulty is on
    or off. *)
Lemma session_inv (σ0 : Session) (rounds : list Round) :
  let σ := (play rounds (startSession σ0)).1 in
  let h := (play rounds (startSession σ0)).2 in
  questionsAttempted σ = Z.of_nat (length rounds)
  ∧ (0 ≤ depth σ0 → 0 ≤ currentScore σ)
  ∧ Z.min (depth σ0) 2 ≤ depth σ
  ∧ maxDepthReached σ = peakDepth (depth σ0) h
  ∧ depth σ ≤ maxDepthReached σ
  ∧ 0 ≤ progressCount σ
  ∧ 3 * (depth σ - depth σ0) + progressCount σ ≤ Z.of_nat (length rounds)
  ∧ autoProgress (settings σ) = autoProgress (settings σ0).
Proof.
  induction rounds as [| r earlier IH].
  - simpl. unfold depth. simpl. repeat split; lia.
  - rewrite play_cons. cbv zeta in *. simpl fst. simpl snd.
    set (σ := (play earlier (startSession σ0)).1) in *.
    destruct IH as (Hq & Hs & Hd & Hmax & Hle & Hp & Hspeed & Hauto).
    destruct (playRound_fields r σ)
      as (Hq' & _ & Hauto' & Hs' & Hd' & Hmax' & Hp').
    rewrite Hq', Hs', Hd', Hmax', Hp', Hauto'. simpl.
    rewrite <- Hmax. clear Hq' Hs' Hd' Hmax' Hp' Hauto' Hmax.
    assert (Hlen : Z.of_nat (S (length earlier)) = Z.of_nat (length earlier) + 1)
      by lia.
    rewrite Hlen. clear Hlen.
    destruct (roundCorrect r), (autoProgress (settings σ)); simpl;
      destruct (Z.leb_spec 2 (progressCount σ)), (Z.ltb_spec 2 (depth σ)),
        (Z.leb_spec 1 (mistakeCount σ)); simpl; repeat split; try done;
        intros; lia.
Qed.

(** X7. Over a whole session, from any start depth that is not negative:
    the score never drops below zero, a correct answer adds ten times the
    current depth, any other answer takes 20 off down to zero, a timeout
    (the [null] answer) is never correct and so never raises the score, and
    [questionsAttempted] counts every answered or timed-out round. *)
Theorem session_score (σ0 : Session) (rounds : list Round) (r : Round) :
  0 ≤ depth σ0 →
  let σ := (play rounds (startSession σ0)).1 in
  let σ' := playRound r σ in
  0 ≤ currentScore σ
  ∧ questionsAttempted σ = Z.of_nat (length rounds)
  ∧ currentScore σ'
    = (if roundCorrect r then currentScore σ + depth σ * 10
       else Z.max 0 (currentScore σ - 20))
  ∧ (round_answer r = None →
       roundCorrect r = false ∧ currentScore σ' ≤ currentScore σ)
  ∧ 0 ≤ currentScore σ'.
Proof.
  intros Hd0. cbv zeta.
  destruct (session_inv σ0 rounds) as (Hq & Hs & Hd & _).
  specialize (Hs Hd0).
  destruct (playRound_fields r (play rounds (startSession σ0)).1)
    as (_ & _ & _ & Hs' & _).
  rewrite Hs'. do 3 (split; [done |]). split.
  - intros Hnone. unfold roundCorrect. rewrite Hnone. simpl. split; [done | lia].
  - assert (0 ≤ depth (play rounds (startSession σ0)).1) by lia.
    destruct (roundCorrect r); lia.
Qed.

Lemma session_score_witness :
  currentScore
    (playRound timeout_round (play [correct_round] (startSession default_session)).1)
  = 0.
Proof.
  destruct (session_score default_session [correct_round] timeout_round)
    as (_ & _ & Hs & _).
  - vm_compute. discriminate.
  - rewrite Hs. reflexivity.
Defined.



(** ** The keys a round records as used *)

Section UsedKeys.

Variable st : GameSettings.
Variable cm : gmap string string.
Variable night : bool.
Variable items : list string.

Lemma keeps_ret {A} (a : A) : keeps st cm (mret a).
Proof. by intros e a' e' [= <- <-]. Qed.

Lemma keeps_bind {A B} (m : M A) (k : A → M B) :
  keeps st cm m → (∀ a, keeps st cm (k a)) → keeps st cm (m ≫= k).
Proof.
  intros Hm Hk e b e' (a & e1 & Ha & Hb)%bind_Some Hok.
  eapply Hk; [exact Hb |]. by eapply Hm.
Qed.

Lemma keeps_throw {A} : keeps st cm (throw (A := A)).
Proof. by intros e a e'. Qed.

Lemma keeps_random : keeps st cm random.
Proof.
  intros e a e'. unfold random. destruct (draws e); [done |].
  by intros [= <- <-].
Qed.

Lemma keeps_randomIndex n : keeps st cm (randomIndex n).
Proof.
  apply keeps_bind; [apply keeps_random | intros; apply keeps_ret].
Qed.

Lemma keeps_redrawUntil {A} (stop : A → bool) (next : Q → A) cur :
  keeps st cm (redrawUntil stop next cur).
Proof.
  intros e a e'. unfold redrawUntil.
  destruct (redraw_until stop next cur (draws e)) as [[a0 ds] |]; [| done].
  by intros [= <- <-].
Qed.

Lemma keeps_addUsedKey key : recordable st cm key → keeps st cm (addUsedKey key).
Proof.
  intros Hkey e a e' [= <- <-] [Hnd Hall]. simpl.
  case_bool_decide as Hin; [done |]. split.
  - apply NoDup_app. repeat split; [done | | apply NoDup_singleton].
    intros k Hk ->%list_elem_of_singleton. done.
  - apply Forall_app. split; [done |]. by apply Forall_singleton.
Qed.

Lemma keeps_getTerm key : keeps st cm (getTerm st cm key).
Proof.
  unfold getTerm.
  destruct (enableCipher st) eqn:Hc, (JsString.truthy (cm !! key)) eqn:Ht; simpl;
    try apply keeps_ret.
  apply keeps_bind; [by apply keeps_addUsedKey | intros; apply keeps_ret].
Qed.

Lemma keeps_createPremise a rawRel b : keeps st cm (createPremise st cm a rawRel b).
Proof.
  unfold createPremise.
  destruct (enableCipher st) eqn:Hc,
    (JsString.truthy (cm !! cleanRelOf rawRel)) eqn:Ht; simpl;
    try apply keeps_ret.
  apply keeps_bind; [by apply keeps_addUsedKey | intros; apply keeps_ret].
Qed.

Lemma keeps_forPush {A B} (body : A → M B) (l : list A) :
  (∀ a, keeps st cm (body a)) → keeps st cm (forPush body l).
Proof.
  intros Hbody. induction l as [| a l IH]; simpl; [apply keeps_ret |].
  apply keeps_bind; [done | intros b].
  apply keeps_bind; [done | intros bs]. apply keeps_ret.
Qed.

Lemma keeps_position_at positions i : keeps st cm (position_at positions i).
Proof.
  unfold position_at. destruct (positions !! i); [apply keeps_ret | apply keeps_throw].
Qed.

(** One step of a proof that a generator keeps the invariant. *)
Ltac keeps_step :=
  first
    [ apply keeps_ret | apply keeps_throw | apply keeps_random
    | apply keeps_randomIndex | apply keeps_redrawUntil | apply keeps_getTerm
    | apply keeps_createPremise | apply keeps_position_at
    | apply keeps_forPush; intros
    | apply keeps_bind; [| intros]
    | match goal with
      | |- keeps _ _ (if ?b then _ else _) => destruct b
      | |- keeps _ _ (match ?x with _ => _ end) => destruct x
      | |- keeps _ _ (let '_ := ?x in _) => destruct x
      end ].

Lemma keeps_getDistinctRandomIndices count : keeps st cm (getDistinctRandomIndices count).
Proof. unfold getDistinctRandomIndices. repeat keeps_step. Qed.

Lemma keeps_linearRound num : keeps st cm (linearRound st cm night items num).
Proof.
  unfold linearRound, linearLink.
  repeat first [apply keeps_getDistinctRandomIndices | keeps_step].
Qed.

Lemma keeps_distinctionLoop idxs values :
  keeps st cm (distinctionLoop st cm items idxs values).
Proof.
  revert values. induction idxs as [| i idxs IH]; intros values; simpl;
    repeat first [apply IH | keeps_step].
Qed.

Lemma keeps_distinctionRound num : keeps st cm (distinctionRound st cm night items num).
Proof.
  unfold distinctionRound.
  repeat first [apply keeps_getDistinctRandomIndices
               | apply keeps_distinctionLoop | keeps_step].
Qed.

Lemma keeps_hierarchyRound num : keeps st cm (hierarchyRound st cm night items num).
Proof.
  unfold hierarchyRound.
  repeat first [apply keeps_getDistinctRandomIndices | keeps_step].
Qed.

Lemma keeps_latticeWalk is3D idxs c :
  keeps st cm (latticeWalk st cm items is3D idxs c).
Proof.
  revert c. induction idxs as [| i idxs IH]; intros c; simpl;
    repeat first [apply IH | keeps_step].
Qed.

Lemma keeps_pickFakeBearing effectiveRel : keeps st cm (pickFakeBearing effectiveRel).
Proof. unfold pickFakeBearing. repeat keeps_step. Qed.

Lemma keeps_deicticQuery positions :
  keeps st cm (deicticQuery st cm night items positions).
Proof.
  unfold deicticQuery.
  repeat first [apply keeps_getDistinctRandomIndices
               | apply keeps_pickFakeBearing | keeps_step].
Qed.

Lemma keeps_moveLoop moves w : keeps st cm (moveLoop st cm moves w).
Proof.
  revert w. induction moves as [| k IH]; intros w; simpl; [apply keeps_ret |].
  apply keeps_bind; [| intros; apply IH].
  unfold moveStep. repeat keeps_step.
Qed.

Lemma keeps_pickTarget positions startIdx w budget targetIdx :
  keeps st cm (pickTarget items positions startIdx w budget targetIdx).
Proof.
  revert targetIdx. induction budget as [| b IH]; intros targetIdx; simpl;
    unfold targetRejected; repeat first [apply IH | keeps_step].
Qed.

Lemma keeps_movementQuery positions :
  keeps st cm (movementQuery st cm night items positions).
Proof.
  unfold movementQuery.
  repeat first [apply keeps_moveLoop | apply keeps_pickTarget
               | apply keeps_pickFakeBearing | keeps_step].
Qed.

Lemma keeps_standardQuery is3D positions :
  keeps st cm (standardQuery st cm night items is3D positions).
Proof.
  unfold standardQuery, standardFake.
  repeat first [apply keeps_getDistinctRandomIndices | keeps_step].
Qed.

Lemma keeps_spatialRound is3D num : keeps st cm (spatialRound st cm night items is3D num).
Proof.
  unfold spatialRound, selectType.
  repeat first [apply keeps_latticeWalk | apply keeps_deicticQuery
               | apply keeps_movementQuery | apply keeps_standardQuery
               | keeps_step].
Qed.

Lemma keeps_sort_insert {A} (x : A) p : keeps st cm (sort_insert x p).
Proof. induction p as [| y ys IH]; simpl; repeat first [apply IH | keeps_step]. Qed.

Lemma keeps_sort_loop {A} (p rest : list A) : keeps st cm (sort_loop p rest).
Proof.
  revert p. induction rest as [| x rest IH]; intros p; simpl;
    repeat first [apply IH | apply keeps_sort_insert | keeps_step].
Qed.

Lemma keeps_generateRound mode num : keeps st cm (generateRound st cm night items mode num).
Proof.
  unfold generateRound. destruct mode;
    repeat first [apply keeps_linearRound | apply keeps_distinctionRound
                 | apply keeps_hierarchyRound | apply keeps_spatialRound
                 | keeps_step].
Qed.

Lemma generateLogic_keys mode num e r loc e' :
  generateLogic st cm night items mode num e = Some ((r, loc), e') →
  keys_ok st cm (usedKeys e) → keys_ok st cm (usedCipherKeys r).
Proof.
  intros H Hok. apply generateLogic_inv in H as (e1 & Hround & Hsh & _ & ->).
  pose proof (keeps_generateRound mode num _ _ _ Hround Hok) as Hok1.
  unfold shuffleArray in Hsh.
  apply bind_Some in Hsh as (p & e2 & Hloop & Hret).
  injection Hret as _ <-.
  exact (keeps_sort_loop _ _ _ _ _ Hloop Hok1).
Qed.

End UsedKeys.

Lemma getCipherList_elem st (m : gmap string string) (active : list string) k w :
  (k, w) ∈ getCipherList st m active
  ↔ enableCipher st = true ∧ m !! k = Some w ∧ k ∈ active.
Proof.
  unfold getCipherList. destruct (enableCipher st); simpl.
  - rewrite list_elem_of_filter, elem_of_map_to_list. simpl. naive_solver.
  - rewrite elem_of_nil. naive_solver.
Qed.



Lemma generateCipherKey_Some e (m : gmap string string) e' :
  generateCipherKey e = Some (m, e') →
  ∃ ws, ws ≡ₚ CIPHER_WORDS ∧ m = assignWords ws 0 relations ∅.
Proof.
  unfold generateCipherKey. intros H.
  apply bind_Some in H as (ws & e1 & Hsh & Hret). injection Hret as <- <-.
  exists ws. split; [| done].
  by eapply (wp_shuffleArray _ _ (λ l' _, l' ≡ₚ _)); [| exact Hsh].
Qed.

(** X11. A round generated with a key that [generateCipherKey] returned
    reports only relation keywords as used, so at most 20 of them, and shows
    different used keywords under different tokens. *)
Theorem generated_key_legend
    st night items mode num e0 (cm : gmap string string) e
    (r : LogicData) (loc : Locals) e' :
  generateCipherKey e0 = Some (cm, e) →
  generateLogic st cm night items mode num (mkEnv (draws e) []) = Some ((r, loc), e') →
  (∀ k, k ∈ usedCipherKeys r → k ∈ relations)
  ∧ (length (usedCipherKeys r) ≤ 20)%nat
  ∧ (∀ k1 k2 w, (k1, w) ∈ getCipherList st cm (usedCipherKeys r) →
                (k2, w) ∈ getCipherList st cm (usedCipherKeys r) → k1 = k2).
Proof.
  intros Hkey H.
  apply generateCipherKey_Some in Hkey as (ws & Hperm & ->).
  assert (Hlen : length ws = 24%nat) by (by rewrite Hperm).
  assert (Hnd : NoDup ws) by (rewrite Hperm; apply NoDup_CIPHER_WORDS).
  destruct (generateLogic_keys _ _ _ _ _ _ _ _ _ _ H) as [Hndk Hall].
  { split; [apply NoDup_nil_2 | apply Forall_nil_2]. }
  assert (Hrel : ∀ k, k ∈ usedCipherKeys r → k ∈ relations).
  { intros k Hk. eapply Forall_forall in Hall as [_ Ht]; [| exact Hk].
    destruct (assignWords ws 0 relations ∅ !! k) as [w |] eqn:Hw; [| done].
    apply cipher_lookup in Hw as (j & Hj & _); [| done].
    by eapply list_elem_of_lookup_2. }
  split; [done |]. split.
  - change 20%nat with (length relations).
    apply submseteq_length, NoDup_submseteq; done.
  - intros k1 k2 w H1 H2.
    apply getCipherList_elem in H1 as (_ & H1 & _).
    apply getCipherList_elem in H2 as (_ & H2 & _).
    apply cipher_lookup in H1 as (j1 & Hk1 & Hw1); [| done].
    apply cipher_lookup in H2 as (j2 & Hk2 & Hw2); [| done].
    assert (j1 = j2) as -> by (by eapply (NoDup_lookup ws)).
    congruence.
Qed.

Lemma generated_key_legend_witness :
  (length (usedCipherKeys (run_data deictic_example)) ≤ 20)%nat
  ∧ "FRONT" ∈ relations.
Proof.
  destruct (generated_key_legend cipher_settings false example_items SPATIAL_2D 2
              (mkEnv (replicate 23 draw_low ++ deictic_draws) [])
              cipher_map (mkEnv deictic_draws [])
              (run_data deictic_example) (run_locals deictic_example)
              (run_env deictic_example))
    as (Hrel & Hlen & _).
  - vm_compute. reflexivity.
  - vm_compute. reflexivity.
  - split; [exact Hlen |]. apply Hrel. vm_compute.
    apply list_elem_of_further, list_elem_of_further, list_elem_of_here.
Defined.

(** ** The map of a spatial round *)

Section SpatialMap.

Variable st : GameSettings.
Variable cm : gmap string string.
Variable night : bool.
Variable items : list string.

Lemma stepOf_in_range (is3D : bool) (dir : nat) :
  (dir < directionCount is3D)%nat →
  let '(dx, dy, dz, text) := stepOf dir in
  Z.abs dx + Z.abs dy + Z.abs dz = 1
  ∧ (is3D = false → dz = 0)
  ∧ text ∈ allDirs is3D.
Proof.
  intros Hdir.
  destruct is3D, dir as [| [| [| [| [| [| ?]]]]]]; simpl in *; try lia;
    (split; [done |]); (split; [done |]); set_solver.
Qed.

Lemma wp_latticeWalk_map is3D s n c e
    (Φ : list string * list Position * list VisualNode → Env → Prop) :
  (∀ ps poss nodes e',
      length poss = n →
      nodePosition <$> nodes = poss →
      (∀ i nd, nodes !! i = Some nd →
         node_id nd = item items (s + i + 1)
         ∧ node_label nd = item items (s + i + 1)) →
      (∀ i p q, (c :: poss) !! i = Some p → poss !! i = Some q →
         ∃ dir dx dy dz text,
           (dir < directionCount is3D)%nat
           ∧ stepOf dir = (dx, dy, dz, text)
           ∧ q = mkPos (pos_x p + dx) (pos_y p + dy) (pos_z p + dz)
           ∧ ps !! i
             = Some (premiseText st cm (item items (s + i + 1)) text
                       (item items (s + i)))) →
      Φ (ps, poss, nodes) e') →
  wp (latticeWalk st cm items is3D (seq s n) c) e Φ.
Proof.
  revert s c e Φ. induction n as [| n IH]; intros s c e Φ H; simpl.
  - apply wp_ret, H;
      [done | done | intros i nd; by rewrite lookup_nil
      | intros i p q _; by rewrite lookup_nil].
  - apply wp_bind, wp_randomIndex. intros dir e1 Hdir.
    destruct (stepOf dir) as [[[dx dy] dz] text] eqn:Hstep.
    apply wp_bind, wp_createPremise. intros e2.
    apply wp_bind, IH. intros ps poss nodes e3 Hlen Hnodes Hids Hsteps. simpl.
    apply wp_ret, H.
    + simpl. lia.
    + by rewrite fmap_cons, Hnodes.
    + intros [| i] nd; simpl.
      * intros [= <-]. simpl. by rewrite Nat.add_0_r.
      * intros Hnd. replace (s + S i)%nat with (S s + i)%nat by lia.
        by apply Hids.
    + intros [| i] p q; simpl.
      * intros [= <-] [= <-]. exists dir, dx, dy, dz, text.
        rewrite Nat.add_0_r. repeat split; try done.
        apply Hdir. destruct is3D; lia.
      * intros Hp Hq. replace (s + S i)%nat with (S s + i)%nat by lia.
        by apply Hsteps.
Qed.

Lemma wp_standardFake_dirs is3D effectiveParts e (Φ : string → Env → Prop) :
  (∀ fakeRaw e', fakeRaw ∈ allDirs is3D → Φ fakeRaw e') →
  wp (standardFake is3D effectiveParts) e Φ.
Proof.
  intros H. unfold standardFake.
  assert (Hpos : (0 < length (allDirs is3D))%nat) by (destruct is3D; simpl; lia).
  apply wp_bind, wp_randomIndex. intros i e1 Hi.
  apply (wp_redrawUntil (λ w, w ∈ allDirs is3D)).
  - by apply word_at_elem, Hi.
  - intros r. by apply word_at_elem, floor_mul_lt.
  - intros w e2 _ Hw. by apply H.
Qed.

Lemma position_at_Some positions i p e e' :
  position_at positions i e = Some (p, e') → positions !! i = Some p.
Proof.
  unfold position_at. destruct (positions !! i); [| done].
  intros H. injection H as -> _. done.
Qed.

Lemma wp_position_at positions i e (Φ : Position → Env → Prop) :
  (∀ p, positions !! i = Some p → Φ p e) → wp (position_at positions i) e Φ.
Proof.
  intros H p e' Hp. pose proof (position_at_Some _ _ _ _ _ Hp) as Hl.
  unfold position_at in Hp. rewrite Hl in Hp. injection Hp as <-. by apply H.
Qed.

Lemma wp_standardQuery_map is3D positions e
    (Φ : string * bool * QueryTrace → Env → Prop) :
  (∀ q a tr e', query_on_map is3D positions tr → Φ (q, a, tr) e') →
  wp (standardQuery st cm night items is3D positions) e Φ.
Proof.
  intros H. unfold standardQuery.
  apply wp_bind, wp_getDistinctRandomIndices. intros idxA idxB e1 Hne _.
  apply wp_bind, wp_position_at. intros pB HpB.
  apply wp_bind, wp_position_at. intros pA HpA.
  set (parts := standardParts is3D _ _ _).
  set (effectiveParts := if night then map invertSpatial parts else parts).
  assert (Heff : ∀ w, w ∈ effectiveParts → w ∈ allDirs is3D).
  { intros w. unfold effectiveParts, parts. destruct night.
    - rewrite standardParts_opposite. apply standardParts_allDirs.
    - apply standardParts_allDirs. }
  assert (Hfalse : ∀ e0,
    wp (fakeRaw ← standardFake is3D effectiveParts;
        t ← getTerm st cm fakeRaw;
        mret ("Is " +:+ item items idxB +:+ " " +:+ t +:+ " "
                +:+ item items idxA +:+ "?",
              false, StandardTrace idxA idxB parts effectiveParts fakeRaw))
       e0 Φ).
  { intros e0. apply wp_bind, wp_standardFake_dirs. intros fakeRaw e4 Hin.
    apply wp_bind, wp_any. intros t e5.
    apply wp_ret, H. simpl. eauto 10. }
  destruct (0 <? length effectiveParts)%nat eqn:Hlen; [| apply Hfalse].
  apply Nat.ltb_lt in Hlen.
  apply wp_bind, wp_any. intros r e4.
  destruct (gt_half r); [| apply Hfalse].
  apply wp_bind, wp_randomIndex. intros i e5 Hi.
  apply wp_bind, wp_any. intros t e6.
  apply wp_ret, H. simpl. split; [done |]. split; [| eauto 10].
  apply Heff, word_at_elem. auto.
Qed.

Lemma wp_deicticQuery_map positions e
    (Φ : string * bool * QueryTrace → Env → Prop) :
  (∀ q a tr e', query_on_map false positions tr
                ∧ query_on_map true positions tr → Φ (q, a, tr) e') →
  wp (deicticQuery st cm night items positions) e Φ.
Proof.
  intros H. unfold deicticQuery.
  apply wp_bind, wp_getDistinctRandomIndices. intros idxMe idxTarget e1 Hne _.
  apply wp_bind, wp_position_at. intros pT HpT.
  apply wp_bind, wp_position_at. intros pM HpM.
  apply wp_bind, wp_randomIndex. intros facingDir e4 Hf.
  destruct (deicticLocal facingDir _ _) as [localX localY] eqn:Hlocal.
  assert (Hrel : (if night then invertSpatial (classifyLocal localX localY)
                  else classifyLocal localX localY)
                 ∈ "SAME LOCATION" :: possibleDirs).
  { destruct night; [rewrite classifyLocal_opposite |];
      unfold classifyLocal; repeat case_match; set_solver. }
  apply wp_bind, wp_any. intros r e5.
  destruct (gt_half r).
  - apply wp_bind, wp_any. intros f e6.
    apply wp_bind, wp_any. intros t e7.
    apply wp_ret, H. simpl. split; (split; [done |]); (split; [lia |]);
      (split; [done |]); eauto.
  - apply wp_bind, wp_pickFakeBearing. intros fakeRaw e6 _ Hin.
    apply wp_bind, wp_any. intros f e7.
    apply wp_bind, wp_any. intros t e8.
    apply wp_ret, H. simpl. split; (split; [done |]); (split; [lia |]);
      (split; [by apply list_elem_of_further |]); eauto.
Qed.

Lemma wp_movementQuery_map positions e
    (Φ : string * bool * QueryTrace → Env → Prop) :
  (∀ q a tr e', (∀ d, query_on_map d positions tr) → Φ (q, a, tr) e') →
  wp (movementQuery st cm night items positions) e Φ.
Proof.
  intros H. unfold movementQuery.
  do 11 (apply wp_bind, wp_any; intros ? ?).
  destruct (movementLocal _ _ _) as [localX localY].
  assert (Hrel : (if night then invertSpatial (classifyLocal localX localY)
                  else classifyLocal localX localY)
                 ∈ "SAME LOCATION" :: possibleDirs).
  { destruct night; [rewrite classifyLocal_opposite |];
      unfold classifyLocal; repeat case_match; set_solver. }
  apply wp_bind, wp_any. intros r e12.
  destruct (gt_half r).
  - apply wp_bind, wp_any. intros t e13. apply wp_ret, H. intros d. simpl. done.
  - apply wp_bind, wp_pickFakeBearing. intros qRaw e13 _ Hin.
    apply wp_bind, wp_any. intros t e14. apply wp_ret, H. intros d. simpl.
    by apply list_elem_of_further.
Qed.

Lemma spatialRound_map is3D num e q a mods nodes loc e' :
  spatialRound st cm night items is3D num e = Some ((q, a, mods, nodes, loc), e') →
  length nodes = (num + 1)%nat
  ∧ (∀ i nd, nodes !! i = Some nd →
       node_id nd = item items i ∧ node_label nd = item items i)
  ∧ nodes !! 0%nat = Some (mkNode (item items 0) 0 0 0 (item items 0))
  ∧ walk_ok st cm items is3D (nodePosition <$> nodes) (newPremises loc)
  ∧ query_on_map is3D (nodePosition <$> nodes) (trace loc).
Proof.
  revert q a mods nodes loc e'.
  cut (wp (spatialRound st cm night items is3D num) e
         (λ x _,
            length x.1.2 = (num + 1)%nat
            ∧ (∀ i nd, x.1.2 !! i = Some nd →
                 node_id nd = item items i ∧ node_label nd = item items i)
            ∧ x.1.2 !! 0%nat = Some (mkNode (item items 0) 0 0 0 (item items 0))
            ∧ walk_ok st cm items is3D (nodePosition <$> x.1.2) (newPremises x.2)
            ∧ query_on_map is3D (nodePosition <$> x.1.2) (trace x.2))).
  { intros Hwp q a mods nodes loc e' H. exact (Hwp _ _ H). }
  unfold spatialRound.
  apply wp_bind, wp_latticeWalk_map.
  intros ps poss nodes e1 Hlen Hnodes Hids Hsteps. simpl.
  set (all := mkNode (item items 0) 0 0 0 (item items 0) :: nodes).
  assert (Hpos : nodePosition <$> all = mkPos 0 0 0 :: poss).
  { unfold all. by rewrite fmap_cons, Hnodes. }
  assert (Hall : length all = (num + 1)%nat).
  { unfold all. simpl. rewrite <- Hlen, <- Hnodes, length_fmap. lia. }
  assert (Hid : ∀ i nd, all !! i = Some nd →
            node_id nd = item items i ∧ node_label nd = item items i).
  { intros [| i] nd; simpl; [by intros [= <-] |].
    intros Hnd. replace (S i) with (0 + i + 1)%nat by lia. by apply Hids. }
  assert (Hwalk : walk_ok st cm items is3D (nodePosition <$> all) ps).
  { rewrite Hpos. intros i p q' Hp Hq. simpl in Hq.
    destruct (Hsteps i p q' Hp Hq) as (dir & dx & dy & dz & text & ? & ? & ? & ?).
    exists dir, dx, dy, dz, text. done. }
  apply wp_bind, wp_any. intros t e2.
  destruct (String.eqb t "DEICTIC").
  { apply wp_bind, wp_deicticQuery_map. intros q a tr e3 [H2 H3].
    apply wp_ret. cbn [fst snd newPremises trace]. fold all.
    do 4 (split; [done |]). rewrite Hpos. by destruct is3D. }
  destruct (String.eqb t "MOVEMENT").
  { apply wp_bind, wp_movementQuery_map. intros q a tr e3 Hq.
    apply wp_ret. cbn [fst snd newPremises trace]. fold all.
    do 4 (split; [done |]). rewrite Hpos. apply Hq. }
  apply wp_bind, wp_standardQuery_map. intros q a tr e3 Hq.
  apply wp_ret. cbn [fst snd newPremises trace]. fold all.
  do 4 (split; [done |]). by rewrite Hpos.
Qed.

End SpatialMap.

Lemma walk_z_flat st cm items (positions : list Position) prems :
  walk_ok st cm items false positions prems →
  (∀ p, positions !! 0%nat = Some p → pos_z p = 0) →
  ∀ i p, positions !! i = Some p → pos_z p = 0.
Proof.
  intros Hwalk H0 i. induction i as [| i IH]; intros p Hp; [by apply H0 |].
  destruct (lookup_lt_is_Some_2 positions i) as [p0 Hp0].
  { apply lookup_lt_Some in Hp. lia. }
  destruct (Hwalk i p0 p Hp0 Hp) as (dir & dx & dy & dz & text & Hdir & Hstep & -> & _).
  pose proof (stepOf_in_range false dir Hdir) as Hrange. rewrite Hstep in Hrange.
  destruct Hrange as (_ & Hz & _). simpl. rewrite (IH p0 Hp0), Hz; done.
Qed.

(** X12. The map of a round.  A round of a non-spatial frame carries no map
    and no modifier.  A spatial round of depth [num] carries [num + 1] nodes,
    node [i] labelled with item [i], the first at the origin; each next node
    lies one unit step from the previous one, along a direction of the
    round's dimension (in 2D every node has z = 0), and premise [i] is the
    one rendered for "item i+1 is <that direction> of item i". *)
Theorem visualMap_is_lattice_walk
    st cm night items mode num e (r : LogicData) (loc : Locals) e' :
  generateLogic st cm night items mode num e = Some ((r, loc), e') →
  if is_spatial mode
  then
    length (visualMap r) = (num + 1)%nat
    ∧ visualMap r !! 0%nat = Some (mkNode (item items 0) 0 0 0 (item items 0))
    ∧ (∀ i nd, visualMap r !! i = Some nd →
         node_id nd = item items i ∧ node_label nd = item items i
         ∧ (mode = SPATIAL_2D → node_z nd = 0))
    ∧ (∀ i p q, visualMap r !! i = Some p → visualMap r !! S i = Some q →
         ∃ dir dx dy dz text,
           stepOf dir = (dx, dy, dz, text)
           ∧ node_x q = node_x p + dx ∧ node_y q = node_y p + dy
           ∧ node_z q = node_z p + dz
           ∧ Z.abs dx + Z.abs dy + Z.abs dz = 1
           ∧ text ∈ allDirs (match mode with SPATIAL_3D => true | _ => false end)
           ∧ newPremises loc !! i
             = Some (premiseText st cm (item items (i + 1)) text (item items i)))
  else visualMap r = [] ∧ modifiers r = [].
Proof.
  intros H. apply generateLogic_inv in H as (e1 & Hround & _).
  destruct (is_spatial mode) eqn:Hmode.
  - assert (Hsp : mode = spatialMode match mode with SPATIAL_3D => true | _ => false end)
      by (by destruct mode).
    set (is3D := match mode with SPATIAL_3D => true | _ => false end) in *.
    rewrite Hsp, generateRound_spatial in Hround.
    apply spatialRound_map in Hround as (Hlen & Hids & H0 & Hwalk & _).
    split; [done |]. split; [done |]. split.
    + intros i nd Hnd. destruct (Hids i nd Hnd) as [Hid Hlabel].
      split; [done |]. split; [done |]. intros H2d.
      assert (is3D = false) as Hflat by (unfold is3D; by rewrite H2d).
      rewrite Hflat in Hwalk.
      apply (walk_z_flat _ _ _ _ _ Hwalk) with (i := i) (p := nodePosition nd).
      * intros p. rewrite list_lookup_fmap, H0. by intros [= <-].
      * by rewrite list_lookup_fmap, Hnd.
    + intros i p q Hp Hq.
      destruct (Hwalk i (nodePosition p) (nodePosition q))
        as (dir & dx & dy & dz & text & Hdir & Hstep & Hqp & Hprem).
      { by rewrite list_lookup_fmap, Hp. }
      { by rewrite list_lookup_fmap, Hq. }
      pose proof (stepOf_in_range is3D dir Hdir) as Hrange.
      rewrite Hstep in Hrange. destruct Hrange as (Hunit & _ & Htext).
      injection Hqp as Hx Hy Hz.
      exists dir, dx, dy, dz, text. done.
  - destruct mode; try done; simpl in Hround;
      apply bind_Some in Hround as ([[q a] l] & e2 & _ & Hret);
      by injection Hret as _ _ <- <- _ _.
Qed.

Lemma visualMap_is_lattice_walk_witness :
  length (visualMap (run_data deictic_example)) = 3%nat
  ∧ visualMap (run_data deictic_example) !! 0%nat = Some (mkNode "A" 0 0 0 "A").
Proof.
  pose proof (visualMap_is_lattice_walk cipher_settings cipher_map false
                example_items SPATIAL_2D 2 (mkEnv deictic_draws [])
                (run_data deictic_example) (run_locals deictic_example)
                (run_env deictic_example)) as H.
  destruct H as (Hlen & H0 & _).
  - vm_compute. reflexivity.
  - split; [exact Hlen | exact H0].
Defined.

(** X13. The relation of a STANDARD round is read off the map: its parts
    are the directions in which the node of item [idxB] lies from the node
    of item [idxA], two different items; the effective relation is that of
    the opposite displacement at night; the word asked about is a direction
    of the round's dimension, the stored answer says whether it belongs to
    the effective relation, and it is NO whenever the relation is empty (the
    two nodes coincide). *)
Theorem standard_relation_from_map
    st cm night items is3D num e (r : LogicData) (loc : Locals) e'
    idxA idxB parts effectiveParts asked :
  generateLogic st cm night items (spatialMode is3D) num e = Some ((r, loc), e') →
  trace loc = StandardTrace idxA idxB parts effectiveParts asked →
  idxA ≠ idxB
  ∧ asked ∈ allDirs is3D
  ∧ (answer r = true ↔ asked ∈ effectiveParts)
  ∧ (parts = [] → answer r = false)
  ∧ ∃ nA nB,
      visualMap r !! idxA = Some nA ∧ visualMap r !! idxB = Some nB
      ∧ parts = standardParts is3D (node_x nB - node_x nA)
                  (node_y nB - node_y nA) (node_z nB - node_z nA)
      ∧ effectiveParts
        = (if night
           then standardParts is3D (node_x nA - node_x nB)
                  (node_y nA - node_y nB) (node_z nA - node_z nB)
           else parts).
Proof.
  intros H Htr. apply generateLogic_inv in H as (e1 & Hround & _).
  rewrite generateRound_spatial in Hround.
  pose proof (spatialRound_Some _ _ _ _ _ _ _ _ _ _ _ _ _ Hround)
    as (_ & _ & _ & _ & Hok).
  apply spatialRound_map in Hround as (_ & _ & _ & _ & Hmap).
  rewrite Htr in Hok, Hmap. simpl in Hok, Hmap.
  destruct Hok as [Heff Hans].
  destruct Hmap as (Hne & Hasked & pA & pB & HpA & HpB & Hparts).
  apply list_lookup_fmap_Some in HpA as (nA & -> & HnA).
  apply list_lookup_fmap_Some in HpB as (nB & -> & HnB).
  simpl in Hparts.
  split; [done |]. split; [done |]. split; [done |]. split.
  - intros ->. destruct (answer r); [| done].
    destruct Hans as [Hans _]. specialize (Hans eq_refl).
    rewrite Heff in Hans. destruct night; by apply elem_of_nil in Hans.
  - exists nA, nB. split; [done |]. split; [done |]. split; [done |].
    rewrite Heff. destruct night; [| done].
    rewrite Hparts, standardParts_opposite. f_equal; lia.
Qed.

Lemma standard_relation_from_map_witness :
  answer (run_data night_example) = true ↔ "SOUTH" ∈ ["SOUTH"].
Proof.
  destruct (standard_relation_from_map DEFAULT_SETTINGS ∅ true ["A"; "B"] false 1
              (mkEnv night_draws []) (run_data night_example)
              (run_locals night_example) (run_env night_example)
              0%nat 1%nat ["NORTH"] ["SOUTH"] "SOUTH")
    as (_ & _ & Hans & _).
  - vm_compute. reflexivity.
  - vm_compute. reflexivity.
  - exact Hans.
Defined.

(** X14. The bearing of a DEICTIC round is read off the map: the local
    vector is the displacement from the observer's node to the target's
    node (two different items), rotated for one of the four facings, and it
    has the length of that displacement; the true bearing is its
    classification, the effective bearing at night that of the opposite
    vector; the word asked about is one of the four bearings or SAME
    LOCATION, and the stored answer says whether it is the effective one. *)
Theorem deictic_bearing_from_map
    st cm night items is3D num e (r : LogicData) (loc : Locals) e'
    idxMe idxTarget facingDir localX localY trueLocalRel effectiveRel asked :
  generateLogic st cm night items (spatialMode is3D) num e = Some ((r, loc), e') →
  trace loc = DeicticTrace idxMe idxTarget facingDir localX localY
                trueLocalRel effectiveRel asked →
  idxMe ≠ idxTarget
  ∧ (facingDir < 4)%nat
  ∧ trueLocalRel = classifyLocal localX localY
  ∧ effectiveRel = (if night then classifyLocal (- localX) (- localY)
                    else trueLocalRel)
  ∧ asked ∈ "SAME LOCATION" :: possibleDirs
  ∧ (answer r = true ↔ asked = effectiveRel)
  ∧ ∃ nM nT,
      visualMap r !! idxMe = Some nM ∧ visualMap r !! idxTarget = Some nT
      ∧ (localX, localY)
        = deicticLocal facingDir (node_x nT - node_x nM) (node_y nT - node_y nM)
      ∧ localX * localX + localY * localY
        = (node_x nT - node_x nM) * (node_x nT - node_x nM)
          + (node_y nT - node_y nM) * (node_y nT - node_y nM).
Proof.
  intros H Htr. apply generateLogic_inv in H as (e1 & Hround & _).
  rewrite generateRound_spatial in Hround.
  pose proof (spatialRound_Some _ _ _ _ _ _ _ _ _ _ _ _ _ Hround)
    as (_ & _ & _ & _ & Hok).
  apply spatialRound_map in Hround as (_ & _ & _ & _ & Hmap).
  rewrite Htr in Hok, Hmap. simpl in Hok, Hmap.
  destruct Hok as (Htrue & Heff & Hans).
  destruct Hmap as (Hne & Hf & Hasked & pM & pT & HpM & HpT & Hlocal).
  apply list_lookup_fmap_Some in HpM as (nM & -> & HnM).
  apply list_lookup_fmap_Some in HpT as (nT & -> & HnT).
  simpl in Hlocal.
  split; [done |]. split; [done |]. split; [done |]. split.
  { rewrite Heff. destruct night; [| done].
    by rewrite Htrue, classifyLocal_opposite. }
  split; [done |]. split; [done |].
  exists nM, nT. split; [done |]. split; [done |]. split; [done |].
  destruct facingDir as [| [| [| [| ?]]]]; simpl in Hlocal; try lia;
    injection Hlocal as -> ->; lia.
Qed.

Lemma deictic_bearing_from_map_witness :
  answer (run_data deictic_example) = true ↔ "FRONT" = "FRONT".
Proof.
  destruct (deictic_bearing_from_map cipher_settings cipher_map false
              example_items false 2 (mkEnv deictic_draws [])
              (run_data deictic_example) (run_locals deictic_example)
              (run_env deictic_example)
              0%nat 2%nat 1%nat (-1) 1 "FRONT" "FRONT" "FRONT")
    as (_ & _ & _ & _ & _ & Hans & _).
  - vm_compute. reflexivity.
  - vm_compute. reflexivity.
  - exact Hans.
Defined.

(** ** The Distinction chain *)

(** Along a chain whose links keep or flip the value, the value [k] links
    further on is the start value, flipped once per DIFFERENT link. *)
Lemma chain_parity (values : list Z) (rels : list string) :
  length values = S (length rels) →
  (∀ i rel, rels !! i = Some rel →
     (rel = "SAME" ∨ rel = "DIFFERENT")
     ∧ ∃ v, values !! i = Some v
            ∧ values !! S i = Some (if String.eqb rel "SAME" then v else 1 - v)) →
  ∀ k lo, (lo + k ≤ length rels)%nat →
    ∃ v, values !! lo = Some v
         ∧ values !! (lo + k)%nat
           = Some (if Nat.even (length (filter (λ rel, rel = "DIFFERENT")
                                          (take k (drop lo rels))))
                   then v else 1 - v).
Proof.
  intros Hlen Hlinks k. induction k as [| k IH]; intros lo Hk.
  - destruct (lookup_lt_is_Some_2 values lo) as [v Hv]; [lia |].
    exists v. by rewrite Nat.add_0_r, take_0.
  - destruct (IH lo) as (v & Hv & Hvk); [lia |].
    destruct (lookup_lt_is_Some_2 rels (lo + k)) as [rel Hrel]; [lia |].
    destruct (Hlinks _ _ Hrel) as (Hcases & u & Hu & Hnext).
    rewrite Hvk in Hu. injection Hu as <-.
    exists v. split; [done |].
    replace (lo + S k)%nat with (S (lo + k)) by lia. rewrite Hnext.
    rewrite (take_S_r _ _ rel) by (by rewrite lookup_drop).
    rewrite filter_app, length_app.
    set (d := length (filter (λ rel, rel = "DIFFERENT") (take k (drop lo rels)))).
    f_equal. destruct Hcases as [-> | ->].
    + rewrite filter_cons_False by done. simpl. by rewrite Nat.add_0_r.
    + rewrite filter_cons_True by done. simpl.
      replace (d + 1)%nat with (S d) by lia. rewrite Nat.even_succ, <- Nat.negb_even.
      destruct (Nat.even d); simpl; f_equal; lia.
Qed.

(** X15. The answer of a Distinction round follows from its premises alone:
    the two items asked about have the same value exactly when the number of
    DIFFERENT links between them is even, whatever the hidden start value;
    so "Is A the SAME as B?" is answered YES by day exactly for an even
    count, "Is A DIFFERENT from B?" exactly for an odd one, and at night the
    answer is the opposite. *)
Theorem distinction_answer_is_link_parity
    st cm night items num e (r : LogicData) (loc : Locals) e'
    values rels idxA idxB qType :
  generateLogic st cm night items DISTINCTION num e = Some ((r, loc), e') →
  trace loc = DistinctionTrace values rels idxA idxB qType →
  (values !! idxA = values !! idxB ↔ Nat.even (differentBetween rels idxA idxB) = true)
  ∧ answer r
    = nightFlip night
        (if String.eqb qType "SAME" then Nat.even (differentBetween rels idxA idxB)
         else Nat.odd (differentBetween rels idxA idxB)).
Proof.
  intros H Htr. apply generateLogic_inv in H as (e1 & Hround & _).
  simpl in Hround. apply bind_Some in Hround as ([[q a] l] & e2 & Hd & Hret).
  injection Hret as -> -> _ _ -> _.
  apply distinctionRound_Some in Hd
    as (values' & rels' & idxA' & idxB' & qType' & Htr' & Hlen & Hbit & Hrlen & _
        & Hlinks & Hne & HA & HB & Hq & Ha).
  rewrite Htr in Htr'. injection Htr' as <- <- <- <- <-.
  assert (Hchain : ∀ i rel, rels !! i = Some rel →
            (rel = "SAME" ∨ rel = "DIFFERENT")
            ∧ ∃ v, values !! i = Some v
                   ∧ values !! S i = Some (if String.eqb rel "SAME" then v else 1 - v)).
  { intros i rel Hrel. destruct (Hlinks i rel Hrel) as (p & _ & ? & _ & ?). done. }
  assert (Hpar : values !! idxA = values !! idxB
                 ↔ Nat.even (differentBetween rels idxA idxB) = true).
  { unfold differentBetween.
    destruct (Nat.le_ge_cases idxA idxB) as [Hle | Hge].
    - rewrite (Nat.min_l _ _ Hle), (Nat.max_r _ _ Hle).
      destruct (chain_parity values rels ltac:(lia) Hchain (idxB - idxA) idxA
                  ltac:(lia)) as (v & Hlo & Hhi).
      replace (idxA + (idxB - idxA))%nat with idxB in Hhi by lia.
      rewrite Hlo, Hhi. destruct (Nat.even _); split; try done.
      intros [= Hv]. lia.
    - rewrite (Nat.min_r _ _ Hge), (Nat.max_l _ _ Hge).
      destruct (chain_parity values rels ltac:(lia) Hchain (idxA - idxB) idxB
                  ltac:(lia)) as (v & Hlo & Hhi).
      replace (idxB + (idxA - idxB))%nat with idxA in Hhi by lia.
      rewrite Hlo, Hhi. destruct (Nat.even _); split; try done.
      intros [= Hv]. lia. }
  split; [done |].
  rewrite Ha. f_equal. unfold strictEq. rewrite <- Nat.negb_even.
  destruct (Nat.even (differentBetween rels idxA idxB)) eqn:Heven.
  - rewrite bool_decide_eq_true_2 by (by apply Hpar). done.
  - rewrite bool_decide_eq_false_2; [done |].
    intros Heq. apply Hpar in Heq. congruence.
Qed.

Lemma distinction_answer_is_link_parity_witness :
  answer (run_data distinction_example) = true.
Proof.
  destruct (distinction_answer_is_link_parity DEFAULT_SETTINGS ∅ false
              example_items 2 (mkEnv distinction_draws [])
              (run_data distinction_example) (run_locals distinction_example)
              (run_env distinction_example)
              [1; 1; 0] ["SAME"; "DIFFERENT"] 0%nat 2%nat "DIFFERENT")
    as (_ & Hans).
  - vm_compute. reflexivity.
  - vm_compute. reflexivity.
  - rewrite Hans. vm_compute. reflexivity.
Defined.

(** ** The walker of MOVEMENT *)

Lemma random_Some e r e1 :
  random e = Some (r, e1) →
  length (draws e) = S (length (draws e1)) ∧ usedKeys e1 = usedKeys e.
Proof. unfold random. destruct (draws e); [done |]. by intros [= <- <-]. Qed.

Lemma randomIndex_Some n e i e1 :
  randomIndex n e = Some (i, e1) →
  length (draws e) = S (length (draws e1)) ∧ usedKeys e1 = usedKeys e
  ∧ ((0 < n)%nat → (i < n)%nat).
Proof.
  unfold randomIndex. intros (r & e2 & Hr & Hret)%bind_Some.
  injection Hret as <- <-. destruct (random_Some _ _ _ Hr) as [Hlen Hkeys].
  do 2 (split; [done |]). unfold random in Hr.
  destruct (draws e) as [| d ds]; [done |]. injection Hr as <- _.
  apply floor_mul_lt.
Qed.

Lemma getTerm_Some st cm key e t e' :
  getTerm st cm key e = Some (t, e') →
  draws e' = draws e ∧ (enableCipher st = false → t = key).
Proof.
  unfold getTerm. destruct (enableCipher st); simpl.
  - destruct (JsString.truthy (cm !! key)).
    + intros (u & e1 & Hadd & Hret)%bind_Some. unfold addUsedKey in Hadd.
      injection Hadd as _ <-. injection Hret as <- <-. done.
    + by intros [= <- <-].
  - by intros [= <- <-].
Qed.

Lemma moveStep_Some st cm w e w1 e1 :
  moveStep st cm w e = Some (w1, e1) → (heading w < 4)%nat →
  (heading w1 < 4)%nat
  ∧ (∃ ins, instructions w1 = instructions w ++ [ins]
       ∧ (enableCipher st = false →
            followInstruction (curX w, curY w, heading w) ins
            = (curX w1, curY w1, heading w1)))
  ∧ Z.abs (curX w1 - curX w) + Z.abs (curY w1 - curY w) ≤ 1
  ∧ (length (draws e1) + 1 ≤ length (draws e) ≤ length (draws e1) + 2)%nat.
Proof.
  unfold moveStep. intros (r & e2 & Hr & H)%bind_Some Hh.
  apply random_Some in Hr as [Hlen _].
  destruct (lt_half r).
  - destruct w as [x y h ins]. simpl in *.
    destruct h as [| [| [| [| h]]]]; try lia;
      apply bind_Some in H as (t & e3 & Ht & Hret);
      apply getTerm_Some in Ht as [Hd Ht];
      injection Hret as <- <-; simpl; rewrite Hd;
      (split; [lia |]); (split; [| split; lia]);
      eexists; (split; [done |]); intros Hoff; rewrite (Ht Hoff);
      cbn; repeat f_equal; lia.
  - apply bind_Some in H as (r' & e3 & Hr' & H).
    apply random_Some in Hr' as [Hlen' _].
    assert (Hmod1 : ((heading w + 1) mod 4 < 4)%nat) by (apply Nat.mod_upper_bound; lia).
    assert (Hmod3 : ((heading w + 3) mod 4 < 4)%nat) by (apply Nat.mod_upper_bound; lia).
    destruct (gt_half r');
      apply bind_Some in H as (t & e4 & Ht & H);
      apply getTerm_Some in Ht as [Hd Ht];
      apply bind_Some in H as (d & e5 & Hdir & Hret);
      apply getTerm_Some in Hdir as [Hd' Hdir];
      injection Hret as <- <-; simpl; rewrite Hd', Hd;
      (split; [done |]); (split; [| split; lia]);
      eexists; (split; [done |]); intros Hoff; rewrite (Ht Hoff), (Hdir Hoff); done.
Qed.

(** X16. The instructions of a Movement question describe the walk: the
    loop appends one instruction per move and leaves the earlier ones; with
    the cipher off, following the appended instructions by hand from the
    walker's start leads to the position and heading the generator ends
    at.  The heading stays one of the four compass directions, the walker
    ends at most [moves] steps from its start, and a move takes one or two
    draws. *)
Theorem moveLoop_follows_instructions st cm moves w e w' e' :
  moveLoop st cm moves w e = Some (w', e') →
  (heading w < 4)%nat →
  (heading w' < 4)%nat
  ∧ (∃ added, instructions w' = instructions w ++ added
       ∧ length added = moves
       ∧ (enableCipher st = false →
            foldl followInstruction (curX w, curY w, heading w) added
            = (curX w', curY w', heading w')))
  ∧ Z.abs (curX w' - curX w) + Z.abs (curY w' - curY w) ≤ Z.of_nat moves
  ∧ (length (draws e') + moves ≤ length (draws e)
     ≤ length (draws e') + 2 * moves)%nat.
Proof.
  revert w e.
  induction moves as [| k IH]; intros w e H Hh; simpl in H.
  - injection H as <- <-. split; [done |]. split; [| split; lia].
    exists []. by rewrite app_nil_r.
  - apply bind_Some in H as (w1 & e1 & Hstep & Hloop).
    destruct (moveStep_Some _ _ _ _ _ _ Hstep Hh)
      as (Hh1 & (ins & Hins & Hfollow) & Hdist & Hdraws).
    destruct (IH _ _ Hloop Hh1)
      as (Hh' & (added & Hadded & Hlen & Hfold) & Hdist' & Hdraws').
    split; [done |]. split; [| split; lia].
    exists (ins :: added). split; [| split].
    + by rewrite Hadded, Hins, <- app_assoc.
    + simpl. by rewrite Hlen.
    + intros Hoff. cbn [foldl]. rewrite (Hfollow Hoff). by apply Hfold.
Qed.

Lemma moveLoop_follows_instructions_witness :
  foldl followInstruction (0, 0, 1%nat) ["WALK 1."; "TURN RIGHT."] = (1, 0, 2%nat).
Proof.
  destruct (moveLoop_follows_instructions DEFAULT_SETTINGS ∅ 2
              (mkWalker 0 0 1 []) (mkEnv [draw_low; draw_high; draw_high] [])
              (mkWalker 1 0 2 ["WALK 1."; "TURN RIGHT."]) (mkEnv [] []))
    as (_ & (added & Hadded & _ & Hfold) & _).
  - vm_compute. reflexivity.
  - simpl. lia.
  - simpl in Hadded. rewrite Hadded. apply Hfold. reflexivity.
Defined.

Lemma targetRejected_Some positions startIdx w t e b e1 :
  targetRejected positions startIdx w t e = Some (b, e1) →
  e1 = e
  ∧ (if b
     then t = startIdx
          ∨ ∃ p, positions !! t = Some p ∧ pos_x p = curX w ∧ pos_y p = curY w
     else t ≠ startIdx
          ∧ ∃ p, positions !! t = Some p ∧ ¬ (pos_x p = curX w ∧ pos_y p = curY w)).
Proof.
  unfold targetRejected. destruct (Nat.eqb_spec t startIdx) as [-> | Hne].
  - intros [= <- <-]. split; [done |]. by left.
  - intros (p & e2 & Hp & Hret)%bind_Some. unfold position_at in Hp.
    destruct (positions !! t) as [p0 |] eqn:Hpos; [| done].
    injection Hp as <- <-. injection Hret as <- <-. split; [done |].
    destruct (Z.eqb_spec (pos_x p0) (curX w)), (Z.eqb_spec (pos_y p0) (curY w));
      simpl; try (split; [done |]); eauto; exists p0; split; try done; tauto.
Qed.

(** X17. The target loop of MOVEMENT redraws at most [budget] times (50 in
    the source).  The index it returns is the one it was entered with or an
    index of an item; it is not the start item and its node is not where
    the walker stands, unless all [budget] redraws were used up, in which
    case the last draw is returned although it is the start item or lies
    under the walker. *)
Theorem pickTarget_bounded items positions startIdx w budget t e t' e' :
  pickTarget items positions startIdx w budget t e = Some (t', e') →
  usedKeys e' = usedKeys e
  ∧ (length (draws e') ≤ length (draws e) ≤ length (draws e') + budget)%nat
  ∧ (t' = t ∨ ((0 < length items)%nat → (t' < length items)%nat))
  ∧ (t' ≠ startIdx
     ∧ (∃ p, positions !! t' = Some p ∧ ¬ (pos_x p = curX w ∧ pos_y p = curY w))
     ∨ length (draws e) = (length (draws e') + budget)%nat
       ∧ (t' = startIdx
          ∨ ∃ p, positions !! t' = Some p ∧ pos_x p = curX w ∧ pos_y p = curY w)).
Proof.
  revert t e. induction budget as [| b IH]; intros t e H.
  - simpl in H. apply bind_Some in H as (rej & e1 & Hrej & H).
    apply targetRejected_Some in Hrej as [-> Hrej].
    destruct rej; injection H as <- <-;
      (split; [done |]); (split; [lia |]); (split; [by left |]).
    + right. split; [lia | done].
    + by left.
  - simpl in H. apply bind_Some in H as (rej & e1 & Hrej & H).
    apply targetRejected_Some in Hrej as [-> Hrej].
    destruct rej.
    + apply bind_Some in H as (t1 & e2 & Ht1 & H).
      apply randomIndex_Some in Ht1 as (Hlen & Hkeys & Hrange).
      destruct (IH _ _ H) as (Hk & Hd & Hidx & Hres).
      split; [congruence |]. split; [lia |]. split.
      * right. destruct Hidx as [-> | Hidx]; done.
      * destruct Hres as [Hres | [Hfull Hres]]; [by left |].
        right. split; [lia | done].
    + injection H as <- <-.
      split; [done |]. split; [lia |]. split; [by left |]. by left.
Qed.

Lemma pickTarget_bounded_witness :
  (1%nat ≠ 0%nat
   ∧ ∃ p, [mkPos 0 0 0; mkPos 1 0 0] !! 1%nat = Some p
          ∧ ¬ (pos_x p = 0 ∧ pos_y p = 0))
  ∨ 1%nat = (0 + 50)%nat
    ∧ (1%nat = 0%nat
       ∨ ∃ p, [mkPos 0 0 0; mkPos 1 0 0] !! 1%nat = Some p
              ∧ pos_x p = 0 ∧ pos_y p = 0).
Proof.
  destruct (pickTarget_bounded ["A"; "B"] [mkPos 0 0 0; mkPos 1 0 0] 0
              (mkWalker 0 0 0 []) 50 0 (mkEnv [draw_half] []) 1 (mkEnv [] []))
    as (_ & _ & _ & Hres).
  - vm_compute. reflexivity.
  - exact Hres.
Defined.

(** X18. The cap of the target loop can be hit: when every redraw gives
    the start item again, the loop returns the start item after [budget]
    redraws, so the question then asks about the item the walk started
    at. *)
Theorem pickTarget_can_return_start
    items positions startIdx w budget (d : Draw) (ds : list Draw) ks :
  floor_mul (draw_val d) (length items) = startIdx →
  pickTarget items positions startIdx w budget startIdx
    (mkEnv (replicate budget d ++ ds) ks)
  = Some (startIdx, mkEnv ds ks).
Proof.
  intros <-. induction budget as [| b IH].
  - simpl. rewrite bind_unfold. unfold targetRejected. by rewrite Nat.eqb_refl.
  - etrans; [| exact IH]. simpl. rewrite bind_unfold.
    unfold targetRejected at 1. rewrite Nat.eqb_refl. reflexivity.
Qed.

Lemma pickTarget_can_return_start_witness :
  pickTarget example_items [mkPos 0 0 0; mkPos 1 0 0; mkPos 1 1 0] 0
    (mkWalker 1 0 1 []) 50 0 (mkEnv (replicate 50 draw_zero ++ []) [])
  = Some (0%nat, mkEnv [] []).
Proof.
  apply (pickTarget_can_return_start example_items
           [mkPos 0 0 0; mkPos 1 0 0; mkPos 1 1 0] 0 (mkWalker 1 0 1 []) 50
           draw_zero [] []).
  reflexivity.
Defined.

(** ** The answer controls and the result heading *)

(** X19. The result heading is green exactly when the answer was correct:
    of the messages [handleAnswer] can set, with or without the note of a
    depth change, those of a correct answer contain VERIFIED or SUCCESS and
    those of a wrong answer or a timeout contain neither. *)
Theorem feedback_green_iff_correct (userAnswer : option bool) (σ : Session) :
  feedbackIsGreen (feedbackMsg (handleAnswer userAnswer σ)) = isCorrect userAnswer σ.
Proof.
  unfold handleAnswer.
  destruct (isCorrect userAnswer σ) eqn:Hc.
  - destruct userAnswer as [a |]; [| by vm_compute in Hc].
    destruct (enableTransformation (settings σ) && contextIsNight σ),
      (autoProgress (settings σ)), (2 <=? progressCount σ); reflexivity.
  - destruct userAnswer as [a |];
      destruct (enableTransformation (settings σ) && contextIsNight σ),
        (autoProgress (settings σ) && (2 <? numPremises (settings σ))),
        (1 <=? mistakeCount σ); reflexivity.
Qed.

(** X20. The two answer controls always send opposite answers, the one
    labelled YES sends [true] and the one labelled NO sends [false],
    whichever side YES was put on; so exactly one of them is the correct
    answer of the round.  A key is an answer only in the question phase,
    and then it is the answer of the button on its side. *)
Theorem answer_controls_agree
    (isYesRight : bool) (ph : GamePhase) (code : string) (σ : Session) :
  (∀ b, buttonLabel isYesRight b = (if buttonAnswer isYesRight b then "YES" else "NO"))
  ∧ buttonAnswer isYesRight LeftButton = negb (buttonAnswer isYesRight RightButton)
  ∧ isCorrect (Some (buttonAnswer isYesRight LeftButton)) σ
    = negb (isCorrect (Some (buttonAnswer isYesRight RightButton)) σ)
  ∧ (∀ a, a ∈ keyAnswers ph isYesRight code →
       ph = QUESTION
       ∧ keyAnswers ph isYesRight code = [a]
       ∧ (code ∈ ["ArrowLeft"; "KeyD"] ∧ a = buttonAnswer isYesRight LeftButton
          ∨ code ∈ ["ArrowRight"; "KeyJ"] ∧ a = buttonAnswer isYesRight RightButton)).
Proof.
  split; [by intros [|]; destruct isYesRight |]. split; [done |]. split.
  - unfold isCorrect. simpl.
    destruct isYesRight, (expectedAnswer σ); reflexivity.
  - intros a Ha. destruct ph; try by apply elem_of_nil in Ha.
    split; [done |]. unfold keyAnswers in *.
    destruct (String.eqb_spec code "ArrowLeft") as [-> | H1].
    { simpl in *. apply list_elem_of_singleton in Ha as ->.
      split; [done |]. left. split; [apply list_elem_of_here | done]. }
    destruct (String.eqb_spec code "KeyD") as [-> | H2].
    { simpl in *. apply list_elem_of_singleton in Ha as ->.
      split; [done |]. left.
      split; [apply list_elem_of_further, list_elem_of_here | done]. }
    destruct (String.eqb_spec code "ArrowRight") as [-> | H3].
    { simpl in *. apply list_elem_of_singleton in Ha as ->.
      split; [done |]. right. split; [apply list_elem_of_here | done]. }
    destruct (String.eqb_spec code "KeyJ") as [-> | H4].
    { simpl in *. apply list_elem_of_singleton in Ha as ->.
      split; [done |]. right.
      split; [apply list_elem_of_further, list_elem_of_here | done]. }
    simpl in Ha. by apply elem_of_nil in Ha.
Qed.

(** ** The symbols of a round *)

Lemma string_length_app (a b : string) :
  String.length (a +:+ b) = (String.length a + String.length b)%nat.
Proof. induction a as [| c a IH]; simpl; [done | by rewrite IH]. Qed.

Lemma string_app_inj_r (a b s : string) : a +:+ s = b +:+ s → a = b.
Proof.
  intros H.
  assert (Hlen : String.length a = String.length b).
  { apply (f_equal String.length) in H. rewrite !string_length_app in H. lia. }
  revert b H Hlen. induction a as [| c a IH]; intros [| c' b] H Hlen; try done.
  simpl in *. injection H as -> H. f_equal. apply IH; [done | lia].
Qed.

Lemma emojiSpan_inj (x y : string) : emojiSpan x = emojiSpan y → x = y.
Proof.
  unfold emojiSpan. intros H.
  do 5 apply String.app_inj in H. by apply string_app_inj_r in H.
Qed.

Lemma NoDup_EMOJIS : NoDup EMOJIS.
Proof. apply (bool_decide_unpack _). vm_compute. reflexivity. Qed.

(** X21. [generateSymbols(count, mode)] returns [count] symbols.  In EMOJI
    mode they are the emoji of a shuffle of the 20 emoji, taken round and
    round: up to 20 symbols are pairwise different, and from the 21st on
    symbol [i + 20] is symbol [i] again. *)
Theorem generateSymbols_emoji voronoi count mode e symbols e' :
  generateSymbols voronoi count mode e = Some (symbols, e') →
  length symbols = count
  ∧ (mode = EMOJI →
       (∃ shuffled, shuffled ≡ₚ EMOJIS
          ∧ ∀ i, (i < count)%nat →
              symbols !! i = Some (emojiSpan (word_at shuffled (i mod 20))))
       ∧ ((count ≤ 20)%nat → NoDup symbols)
       ∧ (∀ i, (i + 20 < count)%nat → symbols !! (i + 20)%nat = symbols !! i)).
Proof.
  unfold generateSymbols. intros (sh & e1 & Hsh & Hloop)%bind_Some.
  assert (Hperm : sh ≡ₚ EMOJIS).
  { by apply (wp_shuffleArray EMOJIS e (λ l _, l ≡ₚ EMOJIS) (λ l _ H, H) _ _ Hsh). }
  assert (Hlen20 : length sh = 20%nat) by (by rewrite Hperm).
  cut (length symbols = count
       ∧ ∀ i b, symbols !! i = Some b →
           mode = EMOJI → b = emojiSpan (word_at sh (i mod 20))).
  { intros [Hlen Hsym]. split; [done |]. intros Hmode.
    assert (Hat : ∀ i, (i < count)%nat →
              symbols !! i = Some (emojiSpan (word_at sh (i mod 20)))).
    { intros i Hi. destruct (lookup_lt_is_Some_2 symbols i) as [b Hb]; [lia |].
      rewrite Hb. f_equal. by apply (Hsym i). }
    split; [by exists sh |]. split.
    - intros Hc. apply NoDup_alt. intros i j b Hi Hj.
      pose proof (lookup_lt_Some _ _ _ Hi) as Hil.
      pose proof (lookup_lt_Some _ _ _ Hj) as Hjl.
      rewrite Hat in Hi by lia. rewrite Hat in Hj by lia.
      rewrite Nat.mod_small in Hi by lia. rewrite Nat.mod_small in Hj by lia.
      rewrite <- Hi in Hj. apply (inj Some) in Hj. apply emojiSpan_inj in Hj.
      destruct (lookup_lt_is_Some_2 sh i) as [x Hx]; [lia |].
      destruct (lookup_lt_is_Some_2 sh j) as [y Hy]; [lia |].
      unfold word_at in Hj. rewrite Hx, Hy in Hj. simpl in Hj. subst y. clear Hi.
      assert (Hnd : NoDup sh) by (rewrite Hperm; apply NoDup_EMOJIS).
      by eapply (NoDup_lookup sh).
    - intros i Hi. rewrite !Hat by lia. do 3 f_equal.
      replace (i + 20)%nat with (i + 1 * 20)%nat by lia.
      by rewrite Nat.Div0.mod_add. }
  revert Hloop.
  apply (wp_forPush_seq (symbolAt voronoi sh mode)
           (λ i b, mode = EMOJI → b = emojiSpan (word_at sh (i mod 20))) 0 count e1
           (λ bs _, length bs = count
                    ∧ ∀ i b, bs !! i = Some b →
                        mode = EMOJI → b = emojiSpan (word_at sh (i mod 20)))).
  - intros i e2 b e3 Hb ->. unfold symbolAt in Hb. simpl in Hb.
    rewrite Hlen20 in Hb. by injection Hb as <- _.
  - intros bs _ Hlen Hbs. split; [done |]. intros i b Hb. by apply (Hbs i b).
Qed.

Lemma generateSymbols_emoji_witness :
  NoDup (map emojiSpan (take 3 EMOJIS)).
Proof.
  destruct (generateSymbols_emoji (λ _, None) 3 EMOJI (mkEnv (replicate 19 draw_low) [])
              (map emojiSpan (take 3 EMOJIS)) (mkEnv [] []))
    as (_ & Hemoji).
  - vm_compute. reflexivity.
  - destruct (Hemoji eq_refl) as (_ & Hnd & _). apply Hnd. simpl. lia.
Defined.

Lemma generateWord_run (d1 d2 d3 d4 : Draw) ds ks :
  generateWord (mkEnv (d1 :: d2 :: d3 :: d4 :: ds) ks)
  = Some (wordSpan (charAt NONSENSE_CONSONANTS (floor_mul (draw_val d1) 21))
            (charAt NONSENSE_VOWELS (floor_mul (draw_val d2) 5))
            (charAt NONSENSE_CONSONANTS (floor_mul (draw_val d3) 21))
            (charAt NONSENSE_VOWELS (floor_mul (draw_val d4) 5)),
          mkEnv ds ks).
Proof. reflexivity. Qed.

Lemma shuffleArray_EMOJIS_kept ds ks :
  shuffleArray EMOJIS (mkEnv (replicate 19 draw_low ++ ds) ks)
  = Some (EMOJIS, mkEnv ds ks).
Proof. reflexivity. Qed.

(** X22. In WORDS mode nothing keeps two symbols of a round apart: a word
    is four independent draws, and on draws that repeat, every symbol of
    the round is the same word. *)
Theorem generateSymbols_words_can_repeat
    voronoi (count : nat) (d1 d2 d3 d4 : Draw) ks :
  let word :=
    wordSpan (charAt NONSENSE_CONSONANTS (floor_mul (draw_val d1) 21))
      (charAt NONSENSE_VOWELS (floor_mul (draw_val d2) 5))
      (charAt NONSENSE_CONSONANTS (floor_mul (draw_val d3) 21))
      (charAt NONSENSE_VOWELS (floor_mul (draw_val d4) 5)) in
  generateSymbols voronoi count WORDS
    (mkEnv (replicate 19 draw_low ++ mjoin (replicate count [d1; d2; d3; d4])) ks)
  = Some (replicate count word, mkEnv [] ks)
  ∧ ((2 ≤ count)%nat → ¬ NoDup (replicate count word)).
Proof.
  intros word. split.
  - unfold generateSymbols. rewrite bind_unfold, shuffleArray_EMOJIS_kept.
    generalize 0%nat. induction count as [| n IH]; intros s; [done |].
    cbn [seq forPush replicate mjoin list_join]. rewrite bind_unfold.
    change (symbolAt voronoi EMOJIS WORDS s) with (mret WORDS ≫= λ _ : SymbolMode, generateWord).
    cbn [app]. rewrite bind_unfold. cbn [mret M_ret].
    rewrite generateWord_run. rewrite bind_unfold, IH. reflexivity.
  - intros Hc Hnd. destruct count as [| [| n]]; try lia.
    simpl in Hnd. apply NoDup_cons in Hnd as [Hin _]. apply Hin, list_elem_of_here.
Qed.

(** ** [startRound] *)

Lemma keeps_generateSymbols st cm voronoi count mode :
  keeps st cm (generateSymbols voronoi count mode).
Proof.
  unfold generateSymbols. apply keeps_bind.
  { unfold shuffleArray. apply keeps_bind; [apply keeps_sort_loop |].
    intros p. apply keeps_ret. }
  intros sh. apply keeps_forPush. intros i. unfold symbolAt.
  apply keeps_bind.
  { destruct mode; try apply keeps_ret.
    apply keeps_bind; [apply keeps_random | intros; apply keeps_ret]. }
  intros [| | |]; try apply keeps_ret.
  - unfold generateWord.
    repeat (apply keeps_bind; [apply keeps_randomIndex | intros]).
    apply keeps_ret.
  - intros e s e'. unfold generateVoronoi.
    destruct (voronoi (draws e)) as [[s0 ds] |]; [| done]. by intros [= <- <-].
Qed.

Lemma generated_key_size e (m : gmap string string) e' :
  generateCipherKey e = Some (m, e') → size m ≠ 0%nat.
Proof.
  intros (ws & Hperm & ->)%generateCipherKey_Some.
  assert (Hlen : length ws = 24%nat) by (by rewrite Hperm).
  destruct (lookup_lt_is_Some_2 ws 0) as [w Hw]; [lia |].
  apply map_size_ne_0_lookup. exists "GREATER". exists w.
  apply cipher_lookup; [done |]. by exists 0%nat.
Qed.

Lemma generateLogic_modifiers st cm night items mode num e r loc e' :
  generateLogic st cm night items mode num e = Some ((r, loc), e') →
  modifiers r = [] ∨ is_spatial mode = true
                     ∧ (modifiers r = ["DEICTIC"] ∨ modifiers r = ["MOVEMENT"]).
Proof.
  intros H. apply generateLogic_inv in H as (e1 & Hround & _).
  destruct (is_spatial mode) eqn:Hmode.
  - assert (Hsp : ∃ is3D, mode = spatialMode is3D).
    { destruct mode; try done; [by exists false | by exists true]. }
    destruct Hsp as [is3D ->]. rewrite generateRound_spatial in Hround.
    apply spatialRound_Some in Hround as (_ & _ & Hsub & Hmods & _).
    rewrite availableTypes_cases in Hsub. rewrite Hmods.
    destruct (enableDeictic st), (enableMovement st && negb is3D);
      repeat (apply elem_of_cons in Hsub as [-> | Hsub]);
      try (by apply elem_of_nil in Hsub); simpl; auto.
  - left. destruct mode; try done; simpl in Hround;
      apply bind_Some in Hround as ([[q a] l] & e2 & _ & Hret);
      by injection Hret as _ _ <- _ _ _.
Qed.

(** What a started round was made of. *)
Lemma startRound_inv voronoi st cm qa timer e r e' :
  startRound voronoi st cm qa timer e = Some (RoundStarted r, e') →
  (disableSessionTimer st = true ∨ 0 < timer)
  ∧ currentRoundMode r ∈ enabledModes st
  ∧ (roundCipherMap r = cm ∧ cipherHasChanged r = false
       ∧ (enableCipher st = true → size cm ≠ 0%nat)
     ∨ enableCipher st = true
       ∧ (∃ e0 e1, generateCipherKey e0 = Some (roundCipherMap r, e1))
       ∧ (if cipherHasChanged r then 0 < qa ∧ size cm ≠ 0%nat
          else size cm = 0%nat))
  ∧ (roundIsNight r = true → enableTransformation st = true)
  ∧ (∃ items e1 e2,
       generateLogic st (roundCipherMap r) (roundIsNight r) items
         (currentRoundMode r) (Z.to_nat (numPremises st)) e1
       = Some ((logicData r, roundLocals r), e2)
       ∧ keys_ok st (roundCipherMap r) (usedKeys e1))
  ∧ roundPhase r
    = (if blindMode st || cipherHasChanged r then PREMISE_MEMORIZE
       else if enableInterference st then INTERFERENCE else QUESTION)
  ∧ activeModifiers r
    = modifiers (logicData r)
        ++ (if cipherHasChanged r then ["KEY_CHANGE"] else [])
        ++ (if roundIsNight r then ["TRANSFORM"] else [])
        ++ (match roundPhase r with INTERFERENCE => ["INTERFERENCE"] | _ => [] end)
  ∧ questionSecondsRemaining r = questionTimeLimit st.
Proof.
  unfold startRound. intros H.
  destruct (negb (disableSessionTimer st) && (timer <=? 0)) eqn:Hguard; [done |].
  destruct (length (enabledModes st) =? 0)%nat; [done |].
  apply bind_Some in H as (i & e1 & _ & H).
  destruct (enabledModes st !! i) as [nextMode |] eqn:Hmode; [| done].
  apply bind_Some in H as ([m changed] & e2 & Hkey & H).
  apply bind_Some in H as (isNight & e3 & Hnight & H).
  apply bind_Some in H as ([data locals] & e4 & Hlogic & H).
  apply bind_Some in H as (ry & e5 & _ & H).
  apply bind_Some in H as ([[ph mods'] colour] & e6 & Hphase & H).
  injection H as <- <-. simpl.
  split.
  { destruct (disableSessionTimer st); [by left |]. right. simpl in Hguard. lia. }
  split; [by eapply list_elem_of_lookup_2 |].
  split.
  { destruct (enableCipher st) eqn:Hc; simpl in Hkey.
    - destruct (Nat.eqb_spec (size cm) 0) as [Hsize | Hsize].
      + apply bind_Some in Hkey as (m0 & e7 & Hgen & Hret).
        injection Hret as <- <- <-. right. split; [done |]. split; [eauto | done].
      + destruct (Z.ltb_spec 0 qa).
        * apply bind_Some in Hkey as (rk & e7 & _ & Hkey).
          destruct (lt_draw rk key_change_chance).
          -- apply bind_Some in Hkey as (m0 & e8 & Hgen & Hret).
             injection Hret as <- <- <-. right. split; [done |].
             split; [eauto | done].
          -- injection Hkey as <- <- <-. left. done.
        * injection Hkey as <- <- <-. left. done.
    - injection Hkey as <- <- <-. left. done. }
  split.
  { destruct (enableTransformation st); [done |]. by injection Hnight as <- _. }
  split.
  { unfold callGenerateLogic in Hlogic.
    apply bind_Some in Hlogic as (u & e7 & Hfresh & Hlogic).
    apply bind_Some in Hlogic as (items & e8 & Hsym & Hlogic).
    exists items, e8, e4. split; [done |].
    eapply (keeps_generateSymbols st m); [exact Hsym |].
    unfold freshUsedKeys in Hfresh. injection Hfresh as _ <-. simpl.
    split; [apply NoDup_nil_2 | apply Forall_nil_2]. }
  unfold enterPhase in Hphase.
  destruct (blindMode st || changed).
  { injection Hphase as <- <- <- _. rewrite app_nil_r. done. }
  destruct (enableInterference st).
  - apply bind_Some in Hphase as (c & e7 & _ & Hret).
    injection Hret as <- <- <- _. by rewrite <- !app_assoc.
  - injection Hphase as <- <- <- _. rewrite app_nil_r. done.
Qed.

(** X23. [startRound] starts no round once the session timer has run out
    (it ends the session) or while no logic module is enabled (it alerts),
    and takes no draw then.  The round it starts otherwise is of an enabled
    module, has as many premises as the current depth, is in the night
    context only with the transformation modifier on, and its question
    timer starts at the configured limit. *)
Theorem startRound_guards voronoi st cm qa timer e :
  (disableSessionTimer st = false → timer ≤ 0 →
     startRound voronoi st cm qa timer e = Some (SessionEnds, e))
  ∧ ((disableSessionTimer st = true ∨ 0 < timer) → enabledModes st = [] →
       startRound voronoi st cm qa timer e = Some (NoModuleAlert, e))
  ∧ (∀ r e', startRound voronoi st cm qa timer e = Some (RoundStarted r, e') →
       (disableSessionTimer st = true ∨ 0 < timer)
       ∧ activeModes st (currentRoundMode r) = true
       ∧ (roundIsNight r = true → enableTransformation st = true)
       ∧ length (premises (logicData r)) = Z.to_nat (numPremises st)
       ∧ questionSecondsRemaining r = questionTimeLimit st).
Proof.
  split; [| split].
  - intros Hon Htime. unfold startRound. rewrite Hon.
    destruct (Z.leb_spec timer 0); [done | lia].
  - intros Hrun Hnone. unfold startRound. rewrite Hnone.
    destruct (negb (disableSessionTimer st) && (timer <=? 0)) eqn:Hguard; [| done].
    apply andb_true_iff in Hguard as [Hd Ht].
    destruct Hrun as [Hrun | Hrun]; [by rewrite Hrun in Hd | lia].
  - intros r e' H.
    apply startRound_inv in H
      as (Hrun & Hmode & _ & Hnight & (items & e1 & e2 & Hlogic & _) & _ & _ & Hq).
    split; [done |]. split.
    { unfold enabledModes in Hmode. by apply list_elem_of_filter in Hmode as [? _]. }
    split; [done |]. split; [| done].
    apply generateLogic_inv in Hlogic as (e3 & Hround & _ & Hperm & _).
    apply generateRound_premises in Hround as [Hlen _].
    by rewrite Hperm.
Qed.

(** Deciding a closed fact about lists of strings by evaluation. *)
Ltac decide_list := apply (bool_decide_unpack _); vm_compute; reflexivity.
Ltac refute_member H := apply (bool_decide_pack _) in H; vm_compute in H; done.
Ltac decide_member :=
  first [ split; [done | intros _; decide_list]
        | let H := fresh in split; [intros H; refute_member H | done] ].

(** X24. The modifiers of a started round say what happened: KEY_CHANGE is
    listed exactly when the key was regenerated on a later round of a
    session, and such a round always opens with the memorize phase;
    TRANSFORM exactly in the night context; INTERFERENCE exactly when the
    round opens with the interference task; DEICTIC or MOVEMENT only for a
    spatial round.  No modifier is listed twice. *)
Theorem startRound_modifiers voronoi st cm qa timer e r e' :
  startRound voronoi st cm qa timer e = Some (RoundStarted r, e') →
  NoDup (activeModifiers r)
  ∧ activeModifiers r ⊆ ["DEICTIC"; "MOVEMENT"; "KEY_CHANGE"; "TRANSFORM"; "INTERFERENCE"]
  ∧ ("KEY_CHANGE" ∈ activeModifiers r ↔ cipherHasChanged r = true)
  ∧ ("TRANSFORM" ∈ activeModifiers r ↔ roundIsNight r = true)
  ∧ ("INTERFERENCE" ∈ activeModifiers r ↔ roundPhase r = INTERFERENCE)
  ∧ ("DEICTIC" ∈ activeModifiers r ∨ "MOVEMENT" ∈ activeModifiers r →
       is_spatial (currentRoundMode r) = true)
  ∧ (cipherHasChanged r = true →
       roundPhase r = PREMISE_MEMORIZE ∧ enableCipher st = true ∧ 0 < qa)
  ∧ roundPhase r ∈ [PREMISE_MEMORIZE; INTERFERENCE; QUESTION].
Proof.
  intros H.
  apply startRound_inv in H
    as (_ & _ & Hkey & _ & (items & e1 & e2 & Hlogic & _) & Hphase & Hmods & _).
  apply generateLogic_modifiers in Hlogic.
  assert (Hchanged : cipherHasChanged r = true → enableCipher st = true ∧ 0 < qa).
  { intros Hc. destruct Hkey as [(_ & Hno & _) | (Hon & _ & Hwhen)]; [congruence |].
    rewrite Hc in Hwhen. by destruct Hwhen. }
  rewrite Hmods. clear Hmods Hkey.
  destruct Hlogic as [-> | [Hsp [-> | ->]]];
    destruct (cipherHasChanged r) eqn:Hc, (roundIsNight r);
    rewrite ?orb_true_r, ?orb_false_r in Hphase;
    try destruct (blindMode st); try destruct (enableInterference st);
    simpl in Hphase; rewrite Hphase; simpl;
    (split; [decide_list |]); (split; [decide_list |]);
    do 3 (split; [decide_member |]);
    (split; [first [done | intros [Hin | Hin]; refute_member Hin] |]);
    (split; [first [done | intros _; destruct (Hchanged eq_refl); done] |]);
    rewrite !elem_of_cons; auto.
Qed.

Lemma startRound_modifiers_witness :
  "KEY_CHANGE" ∈ activeModifiers started_example
  ↔ cipherHasChanged started_example = true.
Proof.
  destruct (startRound_modifiers (λ _, None) cipher_settings ∅ 0 300
              (mkEnv start_draws []) started_example
              (mkEnv [] ["EAST"; "NORTH"; "FRONT"]))
    as (_ & _ & Hkey & _).
  - vm_compute. reflexivity.
  - exact Hkey.
Defined.

(** KEY_CHANGE is listed exactly for a round flagged as a key change. *)
Lemma key_change_listed voronoi st cm qa timer e r e' :
  startRound voronoi st cm qa timer e = Some (RoundStarted r, e') →
  "KEY_CHANGE" ∈ activeModifiers r ↔ cipherHasChanged r = true.
Proof.
  intros H.
  apply startRound_inv in H
    as (_ & _ & _ & _ & (items & e1 & e2 & Hlogic & _) & _ & Hmods & _).
  apply generateLogic_modifiers in Hlogic. rewrite Hmods.
  destruct Hlogic as [-> | [_ [-> | ->]]];
    destruct (cipherHasChanged r), (roundIsNight r), (roundPhase r);
    simpl; decide_member.
Qed.

(** X25. The key of a started round.  With the cipher on the round is
    never generated with an empty key: an empty current key is replaced by
    a generated one without the KEY_CHANGE flag (the round is not marked as
    a key change and KEY_CHANGE is not among its modifiers), a current key
    is kept unless the round is flagged as a key change, which takes a
    current key that is not empty and a question attempted before, and
    then the new key is a generated one.  With the cipher off the key is
    left alone and no key word is reported.  The key words the round
    reports are all different, and the legend built from the round's key
    shows each of them with a non-empty token. *)
Theorem startRound_cipher_legend voronoi st cm qa timer e r e' :
  startRound voronoi st cm qa timer e = Some (RoundStarted r, e') →
  (enableCipher st = true → size (roundCipherMap r) ≠ 0%nat)
  ∧ (enableCipher st = false →
       roundCipherMap r = cm ∧ cipherHasChanged r = false
       ∧ usedCipherKeys (logicData r) = [])
  ∧ (cipherHasChanged r = false → size cm ≠ 0%nat → roundCipherMap r = cm)
  ∧ (cipherHasChanged r = true ∨ enableCipher st = true ∧ size cm = 0%nat →
       ∃ ws, ws ≡ₚ CIPHER_WORDS ∧ roundCipherMap r = assignWords ws 0 relations ∅)
  ∧ (enableCipher st = true → size cm = 0%nat →
       cipherHasChanged r = false ∧ "KEY_CHANGE" ∉ activeModifiers r)
  ∧ (cipherHasChanged r = true →
       enableCipher st = true ∧ 0 < qa ∧ size cm ≠ 0%nat
       ∧ "KEY_CHANGE" ∈ activeModifiers r)
  ∧ NoDup (usedCipherKeys (logicData r))
  ∧ (∀ k, k ∈ usedCipherKeys (logicData r) →
       ∃ w, w ≠ EmptyString
            ∧ (k, w) ∈ getCipherList st (roundCipherMap r)
                         (usedCipherKeys (logicData r))).
Proof.
  intros H. pose proof (key_change_listed _ _ _ _ _ _ _ _ H) as Hlisted.
  apply startRound_inv in H
    as (_ & _ & Hkey & _ & (items & e1 & e2 & Hlogic & Hok) & _).
  destruct (generateLogic_keys _ _ _ _ _ _ _ _ _ _ Hlogic Hok) as [Hnd Hall].
  assert (Hmapped : ∀ k, k ∈ usedCipherKeys (logicData r) →
            enableCipher st = true
            ∧ ∃ w, roundCipherMap r !! k = Some w ∧ w ≠ EmptyString).
  { intros k Hk. eapply Forall_forall in Hall as [Hc Ht]; [| exact Hk].
    split; [done |]. destruct (roundCipherMap r !! k) as [[| c w] |]; try done.
    by exists (String c w). }
  split; [| split; [| split; [| split; [| split; [| split; [| split]]]]]].
  - intros Hon. destruct Hkey as [(-> & _ & Hsize) | (_ & (e0 & e3 & Hgen) & _)].
    + by apply Hsize.
    + by eapply generated_key_size.
  - intros Hoff. destruct Hkey as [(-> & -> & _) | (Hon & _)]; [| congruence].
    do 2 (split; [done |]).
    destruct (usedCipherKeys (logicData r)) as [| k ks]; [done |].
    destruct (Hmapped k) as [Hon _]; [apply list_elem_of_here | congruence].
  - intros Hflag Hsize. destruct Hkey as [(-> & _) | (_ & _ & Hwhen)]; [done |].
    rewrite Hflag in Hwhen. done.
  - intros Hnew. destruct Hkey as [(_ & Hflag & Hsize) | (_ & (e0 & e3 & Hgen) & _)].
    + destruct Hnew as [Hnew | [Hon Hempty]]; [congruence |]. by destruct (Hsize Hon).
    + by eapply generateCipherKey_Some.
  - intros Hon Hempty.
    assert (Hflag : cipherHasChanged r = false).
    { destruct Hkey as [(_ & Hflag & _) | (_ & _ & Hwhen)]; [done |].
      destruct (cipherHasChanged r); [by destruct Hwhen | done]. }
    split; [done |]. rewrite Hlisted, Hflag. done.
  - intros Hflag. destruct Hkey as [(_ & Hno & _) | (Hon & _ & Hwhen)]; [congruence |].
    rewrite Hflag in Hwhen. destruct Hwhen as [Hqa Hsize].
    do 3 (split; [done |]). by apply Hlisted.
  - done.
  - intros k Hk. destruct (Hmapped k Hk) as (Hon & w & Hw & Hne).
    exists w. split; [done |]. by apply getCipherList_elem.
Qed.

Lemma startRound_cipher_legend_witness :
  ∃ w, w ≠ EmptyString
       ∧ ("FRONT", w) ∈ getCipherList cipher_settings (roundCipherMap started_example)
                          (usedCipherKeys (logicData started_example)).
Proof.
  destruct (startRound_cipher_legend (λ _, None) cipher_settings ∅ 0 300
              (mkEnv start_draws []) started_example
              (mkEnv [] ["EAST"; "NORTH"; "FRONT"]))
    as (_ & _ & _ & _ & _ & _ & _ & Hlegend).
  - vm_compute. reflexivity.
  - apply Hlegend. vm_compute.
    apply list_elem_of_further, list_elem_of_further, list_elem_of_here.
Defined.

(** ** [formatTime] *)

Lemma padStart_two_digits (n : Z) :
  0 ≤ n < 100 →
  padStart 2 "0" (toString n)
  = String (digitChar (n / 10)) (String (digitChar (n mod 10)) EmptyString).
Proof.
  intros Hn.
  assert (Hall : Forall (λ k, padStart 2 "0" (toString (Z.of_nat k))
                              = String (digitChar (Z.of_nat k / 10))
                                  (String (digitChar (Z.of_nat k mod 10)) EmptyString))
                   (seq 0 100)).
  { apply (bool_decide_unpack _). vm_compute. reflexivity. }
  eapply Forall_forall in Hall; [| apply (elem_of_seq 0 100 (Z.to_nat n)); lia].
  by rewrite Z2Nat.id in Hall by lia.
Qed.

Lemma digitChar_inj (a b : Z) :
  0 ≤ a < 10 → 0 ≤ b < 10 → digitChar a = digitChar b → a = b.
Proof.
  intros Ha Hb H. apply (f_equal Ascii.nat_of_ascii) in H. unfold digitChar in H.
  rewrite !Ascii.nat_ascii_embedding in H by lia. lia.
Qed.

(** X26. Up to 99 minutes 59 seconds [formatTime] shows a time as five
    characters, two digits of minutes, a colon and two digits of seconds
    below 60, padded with zeros; two different times below that bound are
    never shown alike. *)
Theorem formatTime_mm_ss (s : Z) :
  0 ≤ s < 6000 →
  formatTime s
  = String (digitChar (s / 60 / 10))
      (String (digitChar ((s / 60) mod 10))
         (":" +:+ String (digitChar (s mod 60 / 10))
                    (String (digitChar ((s mod 60) mod 10)) EmptyString)))
  ∧ s mod 60 / 10 < 6
  ∧ ∀ t, 0 ≤ t < 6000 → formatTime t = formatTime s → t = s.
Proof.
  assert (Hshape : ∀ s, 0 ≤ s < 6000 →
            formatTime s
            = String (digitChar (s / 60 / 10))
                (String (digitChar ((s / 60) mod 10))
                   (":" +:+ String (digitChar (s mod 60 / 10))
                              (String (digitChar ((s mod 60) mod 10)) EmptyString)))).
  { intros n Hn. unfold formatTime.
    rewrite Z.rem_mod_nonneg by lia.
    assert (0 ≤ n / 60 < 100) by (split; [apply Z.div_pos | apply Z.div_lt_upper_bound]; lia).
    assert (0 ≤ n mod 60 < 60) by (apply Z.mod_pos_bound; lia).
    rewrite !padStart_two_digits by lia. reflexivity. }
  assert (Hdigits : ∀ n, 0 ≤ n < 6000 →
            0 ≤ n / 60 / 10 < 10 ∧ 0 ≤ (n / 60) mod 10 < 10
            ∧ 0 ≤ n mod 60 / 10 < 6 ∧ 0 ≤ (n mod 60) mod 10 < 10).
  { intros n Hn.
    assert (0 ≤ n / 60 < 100) by (split; [apply Z.div_pos | apply Z.div_lt_upper_bound]; lia).
    assert (0 ≤ n mod 60 < 60) by (apply Z.mod_pos_bound; lia).
    repeat split;
      first [ apply Z.div_pos; lia | apply Z.div_lt_upper_bound; lia
            | apply Z.mod_pos_bound; lia ]. }
  intros Hs. split; [by apply Hshape |]. split; [by apply Hdigits |].
  intros t Ht Heq. rewrite (Hshape s Hs), (Hshape t Ht) in Heq.
  destruct (Hdigits s Hs) as (Hs1 & Hs2 & Hs3 & Hs4).
  destruct (Hdigits t Ht) as (Ht1 & Ht2 & Ht3 & Ht4).
  simpl in Heq. injection Heq as H1 H2 H3 H4.
  apply digitChar_inj in H1; [| lia | lia]. apply digitChar_inj in H2; [| lia | lia].
  apply digitChar_inj in H3; [| lia | lia]. apply digitChar_inj in H4; [| lia | lia].
  pose proof (Z.div_mod s 60). pose proof (Z.div_mod t 60).
  pose proof (Z.div_mod (s / 60) 10). pose proof (Z.div_mod (t / 60) 10).
  pose proof (Z.div_mod (s mod 60) 10). pose proof (Z.div_mod (t mod 60) 10).
  lia.
Qed.

Lemma formatTime_mm_ss_witness : formatTime 285 = "04:45".
Proof.
  destruct (formatTime_mm_ss 285) as (Hshape & _); [lia |].
  rewrite Hshape. reflexivity.
Defined.

(** ** Depth zero *)

(** X27. Every query but that of MOVEMENT asks about two different items
    of the round, and a round of depth 0 has one item only: at depth 0
    [generateLogic] returns nothing for LINEAR, DISTINCTION, HIERARCHY and
    3D rounds, whatever the draws, and a 2D round it returns is a MOVEMENT
    round without premises, on a map of one node. *)
Theorem depth_zero_round_is_movement
    st cm night items mode e (r : LogicData) (loc : Locals) e' :
  generateLogic st cm night items mode 0 e = Some ((r, loc), e') →
  mode = SPATIAL_2D ∧ enableMovement st = true
  ∧ modifiers r = ["MOVEMENT"] ∧ premises r = [] ∧ length (visualMap r) = 1%nat.
Proof.
  intros H. apply generateLogic_inv in H as (e1 & Hround & _ & Hperm & _).
  destruct (is_spatial mode) eqn:Hmode.
  - assert (Hsp : ∃ is3D, mode = spatialMode is3D).
    { destruct mode; try done; [by exists false | by exists true]. }
    destruct Hsp as [is3D ->]. rewrite generateRound_spatial in Hround.
    pose proof (spatialRound_Some _ _ _ _ _ _ _ _ _ _ _ _ _ Hround)
      as (Hlen & _ & Hsub & Hmods & _).
    apply spatialRound_map in Hround as (Hnodes & _ & _ & _ & Hmap).
    assert (Hone : ∀ i p, (nodePosition <$> visualMap r) !! i = Some p → i = 0%nat).
    { intros i p Hi. apply lookup_lt_Some in Hi. rewrite length_fmap in Hi. lia. }
    destruct (trace loc) eqn:Htr; simpl in Hmap; try done.
    + destruct Hmap as (Hne & _ & _ & pM & pT & HM & HT & _).
      apply Hone in HM, HT. congruence.
    + rewrite availableTypes_cases in Hsub. simpl in Hsub, Hmods.
      apply length_zero_iff_nil in Hlen. rewrite Hlen in Hperm.
      apply Permutation_nil_r in Hperm.
      destruct (enableDeictic st), (enableMovement st), is3D; simpl in Hsub;
        repeat (apply elem_of_cons in Hsub as [Hsub | Hsub]);
        try (by apply elem_of_nil in Hsub); try done.
    + destruct Hmap as (Hne & _ & pA & pB & HA & HB & _).
      apply Hone in HA, HB. congruence.
  - destruct mode; try done; simpl in Hround;
      apply bind_Some in Hround as ([[q a] l] & e2 & Hr & _).
    + apply linearRound_Some in Hr as (? & ? & ? & ? & _ & ? & ? & ? & _). lia.
    + apply hierarchyRound_Some in Hr as (? & ? & ? & _ & ? & ? & ? & _). lia.
    + apply distinctionRound_Some in Hr
        as (? & ? & ? & ? & ? & _ & _ & _ & _ & _ & _ & ? & ? & ? & _). lia.
Qed.

Lemma depth_zero_round_is_movement_witness :
  modifiers (run_data depth_zero_example) = ["MOVEMENT"]
  ∧ premises (run_data depth_zero_example) = [].
Proof.
  destruct (depth_zero_round_is_movement movement_settings ∅ false ["A"]
              SPATIAL_2D (mkEnv (replicate 58 draw_low ++ [draw_high]) [])
              (run_data depth_zero_example) (run_locals depth_zero_example)
              (run_env depth_zero_example))
    as (_ & _ & Hmods & Hprem & _).
  - vm_compute. reflexivity.
  - split; [exact Hmods | exact Hprem].
Defined.

(** * The displayed premise list, on any conforming engine *)

(** ** The engine's sort *)














(** ** The insertion sort of [shuffleArray] is a conforming engine *)

Lemma lt_half_not_gt (r : Q) : lt_half r = true → gt_half r = false.
Proof.
  unfold lt_half, gt_half. intros H. apply negb_true_iff in H.
  apply negb_false_iff. apply Qle_bool_iff.
  destruct (Qle_bool (1 # 2) r) eqn:Hle; [done |].
  destruct (Qlt_le_dec r (1 # 2)) as [Hlt | Hge].
  - by apply Qlt_le_weak.
  - apply Qle_bool_iff in Hge. congruence.
Qed.

Lemma runSort_insertRun x p k e :
  runSort (insertRun x p k) e = (sort_insert x p ≫= λ zs, runSort (k zs)) e.
Proof.
  revert k e. induction p as [| y ys IH]; intros k e; [done |].
  simpl. rewrite !bind_unfold. destruct (random e) as [[r e1] |]; [| done].
  unfold comparator_positive.
  destruct (gt_half r) eqn:Hgt.
  - destruct (lt_half r) eqn:Hlt; [apply lt_half_not_gt in Hlt; congruence |].
    rewrite IH, !bind_unfold. destruct (sort_insert x ys e1) as [[zs e2] |]; done.
  - by destruct (lt_half r).
Qed.

Lemma runSort_loopRun rest p e :
  runSort (loopRun rest p) e = (sort_loop p rest ≫= λ q, mret (reverse q)) e.
Proof.
  revert p e. induction rest as [| x rest IH]; intros p e; [done |].
  simpl. rewrite runSort_insertRun, !bind_unfold.
  destruct (sort_insert x p e) as [[zs e1] |]; [| done]. apply IH.
Qed.

Lemma runSort_insertionEngine n e :
  runSort (insertionEngine n) e = shuffleArray (seq 0 n) e.
Proof. apply runSort_loopRun. Qed.

(** The sort moves the elements without looking at them. *)
Lemma sort_insert_fmap {A B} (f : A → B) x p e :
  sort_insert (f x) (f <$> p) e
  = (sort_insert x p ≫= λ zs, mret (f <$> zs)) e.
Proof.
  revert e. induction p as [| y ys IH]; intros e; [done |].
  simpl. rewrite !bind_unfold. destruct (random e) as [[r e1] |]; [| done].
  destruct (comparator_positive r); [| done].
  rewrite !bind_unfold, IH, !bind_unfold.
  by destruct (sort_insert x ys e1) as [[zs e2] |].
Qed.

Lemma sort_loop_fmap {A B} (f : A → B) p rest e :
  sort_loop (f <$> p) (f <$> rest) e
  = (sort_loop p rest ≫= λ q, mret (f <$> q)) e.
Proof.
  revert p e. induction rest as [| x rest IH]; intros p e; [done |].
  simpl. rewrite !bind_unfold, sort_insert_fmap, !bind_unfold.
  destruct (sort_insert x p e) as [[zs e1] |]; [| done]. apply IH.
Qed.

Lemma shuffleArray_fmap {A B} (f : A → B) l e :
  shuffleArray (f <$> l) e = (shuffleArray l ≫= λ q, mret (f <$> q)) e.
Proof.
  unfold shuffleArray. rewrite !bind_unfold.
  rewrite (sort_loop_fmap f [] l), !bind_unfold.
  destruct (sort_loop [] l e) as [[q e1] |]; [| done].
  simpl. by rewrite fmap_reverse.
Qed.

(** [shuffleArray] is [shuffleArrayOn] the insertion engine. *)
Lemma shuffleArray_on_insertionEngine {A} `{!Inhabited A} (l : list A) e :
  shuffleArray l e = shuffleArrayOn insertionEngine l e.
Proof.
  unfold shuffleArrayOn. rewrite bind_unfold, runSort_insertionEngine.
  assert (Hl : l = (λ i, l !!! i) <$> seq 0 (length l)).
  { apply list_eq. intros i. rewrite list_lookup_fmap.
    destruct (decide (i < length l)%nat) as [Hi | Hi].
    - rewrite lookup_seq_lt by done. simpl.
      destruct (lookup_lt_is_Some_2 l i Hi) as [x Hx].
      by rewrite Hx, (list_lookup_total_correct _ _ _ Hx).
    - rewrite lookup_ge_None_2 by lia.
      by rewrite lookup_seq_ge by lia. }
  rewrite Hl at 1. rewrite shuffleArray_fmap, bind_unfold.
  destruct (shuffleArray (seq 0 (length l)) e) as [[order e1] |] eqn:Hsh; [| done].
  assert (Horder : order ≡ₚ seq 0 (length l)).
  { by eapply (wp_shuffleArray _ _ (λ l' _, l' ≡ₚ _)); [| exact Hsh]. }
  simpl. f_equal. f_equal.
  assert (Hvalid : Forall (λ i, (i < length l)%nat) order).
  { rewrite Horder. apply Forall_forall. intros i Hi. apply elem_of_seq in Hi. lia. }
  clear Horder Hsh Hl. induction Hvalid as [| i order Hi _ IH]; [done |].
  destruct (lookup_lt_is_Some_2 l i Hi) as [x Hx]. rewrite fmap_cons.
  change (omap (λ i0, l !! i0) (i :: order))
    with (match l !! i with
          | Some y => y :: omap (λ i0, l !! i0) order
          | None => omap (λ i0, l !! i0) order
          end).
  rewrite Hx. f_equal; [by apply list_lookup_total_correct | exact IH].
Qed.







(** ** Generators read their draws from the front *)









Section Framed.

Variable st : GameSettings.
Variable cm : gmap string string.
Variable night : bool.
Variable items : list string.




















End Framed.


(** ** [generateLogic] on an engine *)


(** [generateLogic] is [generateLogicOn] the insertion engine. *)
Lemma generateLogic_on_insertionEngine st cm night items mode num e :
  generateLogic st cm night items mode num e
  = generateLogicOn insertionEngine st cm night items mode num e.
Proof.
  unfold generateLogic, generateLogicOn. rewrite !bind_unfold.
  destruct (generateRound st cm night items mode num e)
    as [[[[[[q a] mods] nodes] loc] e1] |]; [| done].
  by rewrite !bind_unfold, shuffleArray_on_insertionEngine.
Qed.


